(** * fcompare: file fingerprints, equality grouping and access-time preservation

    A shallow embedding of [fcompare/fcompare.go] (package [fcompare] of
    524D/msfile).  The Go functions [TestKeepAtime], [CompareFiles],
    [GetPartialChecksum], [GetChecksum] and [processFile] are transcribed as
    state-passing computations over a model of the operating system (files,
    time stamps, system-call failures), with [log.Fatal] and run-time panics
    as separate outcomes.  The library functions the package calls
    ([crypto/sha256], [encoding/hex], [strconv], [os], [io], [time]) are
    modelled below, before the package itself. *)

From Stdlib Require Import ZArith List Lia Bool.
From Stdlib Require Import Strings.String Strings.Ascii Init.Byte.
From Stdlib Require DecimalString DecimalPos DecimalZ.
From stdpp Require Import base option list gmap strings fin_maps sorting.

Local Open Scope Z_scope.

(** ** crypto/sha256 *)

Module SHA256.

(** 32-bit words are integers in [0, 2^32); every operation writes its
    wrap-around out. *)
Definition wrap (x : Z) : Z := x mod 2 ^ 32.
Definition add32 (x y : Z) : Z := wrap (x + y).
Definition rotr (n x : Z) : Z :=
  Z.lor (Z.shiftr x n) (wrap (Z.shiftl x (32 - n))).
Definition not32 (x : Z) : Z := Z.lxor x (2 ^ 32 - 1).

Definition ch (x y z : Z) : Z := Z.lxor (Z.land x y) (Z.land (not32 x) z).
Definition maj (x y z : Z) : Z :=
  Z.lxor (Z.lxor (Z.land x y) (Z.land x z)) (Z.land y z).
Definition bsig0 (x : Z) : Z := Z.lxor (Z.lxor (rotr 2 x) (rotr 13 x)) (rotr 22 x).
Definition bsig1 (x : Z) : Z := Z.lxor (Z.lxor (rotr 6 x) (rotr 11 x)) (rotr 25 x).
Definition ssig0 (x : Z) : Z := Z.lxor (Z.lxor (rotr 7 x) (rotr 18 x)) (Z.shiftr x 3).
Definition ssig1 (x : Z) : Z := Z.lxor (Z.lxor (rotr 17 x) (rotr 19 x)) (Z.shiftr x 10).

(** The round constants and the initial state are derived the way the
    standard defines them: fractional bits of the cube roots, respectively
    square roots, of the first primes. *)
Definition is_prime (n : Z) : bool :=
  (1 <? n) && forallb (fun d => negb (n mod d =? 0))
                      (map Z.of_nat (seq 2 (Z.to_nat n - 2))).

Definition first_primes (k : nat) : list Z :=
  firstn k (filter is_prime (map Z.of_nat (seq 2 320))).

(** Largest [r] with [r^3 <= x], one bit at a time from bit 40 downwards. *)
Definition icbrt (x : Z) : Z :=
  fold_left (fun r b => let r' := r + 2 ^ Z.of_nat b in
                        if r' * r' * r' <=? x then r' else r)
            (rev (seq 0 41)) 0.

Definition K : list Z :=
  Eval vm_compute in map (fun p => wrap (icbrt (p * 2 ^ 96))) (first_primes 64).

Definition H_init : list Z :=
  Eval vm_compute in map (fun p => wrap (Z.sqrt (p * 2 ^ 64))) (first_primes 8).

Definition Z_of_byte (b : byte) : Z := Z.of_N (Byte.to_N b).
Definition byte_of_Z (z : Z) : byte :=
  match Byte.of_N (Z.to_N (z mod 256)) with Some b => b | None => x00 end.

(** Big-endian encoding of [z] on [n] bytes. *)
Fixpoint be_bytes (n : nat) (z : Z) : list byte :=
  match n with
  | O => []
  | S n' => byte_of_Z (Z.shiftr z (8 * Z.of_nat n')) :: be_bytes n' z
  end.

Definition be_word (bs : list byte) : Z :=
  fold_left (fun acc b => acc * 256 + Z_of_byte b) bs 0.

(** Message padding: a 1 bit, zeros up to 56 mod 64 bytes, the bit length
    on 64 bits. *)
Definition pad (msg : list byte) : list byte :=
  let len := Z.of_nat (length msg) in
  msg ++ x80 :: repeat x00 (Z.to_nat ((55 - len) mod 64)) ++ be_bytes 8 (8 * len).

Fixpoint chunks (fuel n : nat) (bs : list byte) : list (list byte) :=
  match fuel, bs with
  | O, _ | _, [] => []
  | S fuel', _ => firstn n bs :: chunks fuel' n (skipn n bs)
  end.

Definition block_words (blk : list byte) : list Z :=
  map be_word (chunks 16 4 blk).

(** Message schedule: sixteen block words extended to sixty-four. *)
Definition schedule (blk : list byte) : list Z :=
  fold_left (fun w t =>
               w ++ [add32 (add32 (ssig1 (nth (t - 2) w 0)) (nth (t - 7) w 0))
                           (add32 (ssig0 (nth (t - 15) w 0)) (nth (t - 16) w 0))])
            (seq 16 48) (block_words blk).

Record regs := Regs { ra : Z; rb : Z; rc : Z; rd : Z; re : Z; rf : Z; rg : Z; rh : Z }.

Definition round (s : regs) (kw : Z * Z) : regs :=
  let t1 := add32 (add32 (add32 (rh s) (bsig1 (re s))) (ch (re s) (rf s) (rg s)))
                  (add32 (fst kw) (snd kw)) in
  let t2 := add32 (bsig0 (ra s)) (maj (ra s) (rb s) (rc s)) in
  Regs (add32 t1 t2) (ra s) (rb s) (rc s) (add32 (rd s) t1) (re s) (rf s) (rg s).

Definition compress (s : regs) (blk : list byte) : regs :=
  let s' := fold_left round (combine K (schedule blk)) s in
  Regs (add32 (ra s) (ra s')) (add32 (rb s) (rb s')) (add32 (rc s) (rc s'))
       (add32 (rd s) (rd s')) (add32 (re s) (re s')) (add32 (rf s) (rf s'))
       (add32 (rg s) (rg s')) (add32 (rh s) (rh s')).

Definition init : regs :=
  match H_init with
  | [a; b; c; d; e; f; g; h] => Regs a b c d e f g h
  | _ => Regs 0 0 0 0 0 0 0 0
  end.

(** The 32-byte digest of a message. *)
Definition sum (msg : list byte) : list byte :=
  let p := pad msg in
  let s := fold_left compress (chunks (length p) 64 p) init in
  concat (map (be_bytes 4) [ra s; rb s; rc s; rd s; re s; rf s; rg s; rh s]).

End SHA256.

(** A running hash ([hash.Hash]) is the sequence of bytes written to it so
    far: [sha256.New()] starts empty, [Write] appends, [Sum(nil)] digests
    everything written. *)
Definition hash_state := list byte.
Definition sha256_New : hash_state := [].
Definition hash_Write (h : hash_state) (p : list byte) : hash_state := h ++ p.
Definition hash_Sum (h : hash_state) : list byte := SHA256.sum h.

(** ** encoding/hex *)

Definition hex_digit (d : Z) : ascii :=
  match String.get (Z.to_nat d) "0123456789abcdef" with
  | Some c => c
  | None => "0"%char
  end.

Fixpoint hex_EncodeToString (bs : list byte) : string :=
  match bs with
  | [] => EmptyString
  | b :: bs' =>
      String (hex_digit (SHA256.Z_of_byte b / 16))
        (String (hex_digit (SHA256.Z_of_byte b mod 16)) (hex_EncodeToString bs'))
  end.

Definition bytes_of_string (s : string) : list byte :=
  map byte_of_ascii (list_ascii_of_string s).

(** ** time, strconv, path/filepath *)

(** A [time.Time] is a number of nanoseconds since the Unix epoch (UTC). *)
Definition days_from_civil (y m d : Z) : Z :=
  let y' := if m <=? 2 then y - 1 else y in
  let era := y' / 400 in
  let yoe := y' - era * 400 in
  let doy := (153 * (if 2 <? m then m - 3 else m + 9) + 2) / 5 + d - 1 in
  era * 146097 + (yoe * 365 + yoe / 4 - yoe / 100 + doy) - 719468.

Definition time_Date (y mo d h mi s ns : Z) : Z :=
  (days_from_civil y mo d * 86400 + h * 3600 + mi * 60 + s) * 1000000000 + ns.

Definition time_Unix (t : Z) : Z := t / 1000000000.

(** [strconv.FormatInt(n, 10)]. *)
Definition strconv_FormatInt (n : Z) : string :=
  DecimalString.NilZero.string_of_int (Z.to_int n).

(** The elements of a slash-separated path: the text between separators. *)
Fixpoint path_elements (s : string) : list string :=
  match s with
  | EmptyString => [EmptyString]
  | String c s' =>
      if Ascii.eqb c "/" then EmptyString :: path_elements s'
      else match path_elements s' with
           | e :: es => String c e :: es
           | [] => [String c EmptyString]
           end
  end.

(** One element in the loop of [filepath.Clean]; [out] holds the elements
    written so far, the last one first.  An empty element and [.] are
    skipped; [..] removes the element before it, is kept where a relative
    path has nothing left to remove, and is dropped at the root. *)
Definition clean_step (rooted : bool) (out : list string) (e : string) : list string :=
  if (e =? "")%string || (e =? ".")%string then out
  else if (e =? "..")%string then
    match out with
    | top :: rest => if (top =? "..")%string then e :: out else rest
    | [] => if rooted then [] else [e]
    end
  else e :: out.

(** [filepath.Clean] with [/] as the separator. *)
Definition filepath_Clean (path : string) : string :=
  match path with
  | EmptyString => "."
  | String c _ =>
      let rooted := Ascii.eqb c "/" in
      let body := String.concat "/" (rev (fold_left (clean_step rooted) (path_elements path) [])) in
      if rooted then String "/" body
      else match body with EmptyString => "." | _ => body end
  end.

(** The text before the last separator of a path, if it has one. *)
Fixpoint dir_split (s : string) : option string :=
  match s with
  | EmptyString => None
  | String c s' =>
      match dir_split s' with
      | Some d => Some (String c d)
      | None => if Ascii.eqb c "/" then Some EmptyString else None
      end
  end.

(** [filepath.Dir]: the path up to and including its last separator,
    cleaned; ["."] when there is no separator. *)
Definition filepath_Dir (p : string) : string :=
  match dir_split p with
  | None => filepath_Clean ""
  | Some d => filepath_Clean (d ++ "/")
  end.

(** ** The operating system *)

Inductive errno := ENOENT | EACCES | EPERM | EIO | EEXIST | EINVAL | EROFS.

(** Go [error] values: a failed system call, [io.EOF], or [errors.New]. *)
Inductive error :=
| Errno (e : errno)
| io_EOF
| errors_New (msg : string).

(** What a file system does with the times handed to [utimes]: it stores
    them, silently keeps the old ones, or rounds them down to its
    granularity (in nanoseconds). *)
Inductive utimes_policy := Honoured | Ignored | Coarsened (gran : Z).

Definition store_time (pol : utimes_policy) (old new : Z) : Z :=
  match pol with
  | Honoured => new
  | Ignored => old
  | Coarsened g => new - new mod g
  end.

Record inode := Inode {
  i_data : list byte;
  i_atime : Z;
  i_mtime : Z;
  i_fs : utimes_policy
}.

Inductive whence := SeekStart | SeekEnd.

Inductive syscall :=
| SysStat (path : string)
| SysOpen (path : string)
| SysCreate (path : string)
| SysRead (path : string) (off len : Z)
| SysSeek (path : string) (off : Z) (wh : whence)
| SysUtimes (path : string) (atime mtime : Z)
| SysUnlink (path : string).

#[global] Instance whence_eq_dec : EqDecision whence.
Proof. solve_decision. Defined.

#[global] Instance syscall_eq_dec : EqDecision syscall.
Proof. solve_decision. Defined.

(** The state of the machine: the files by path, the directories with the
    policy of the file system they are on, the clock, the environment, the
    source of temporary names, and the system calls made so far with their
    result.  The environment [w_env] says, for each call and each number of
    times that call has been made before, whether it fails the call
    (permission denied, I/O error, a file that went away, ...): the same
    call can succeed once and fail the next time. *)
Record world := World {
  w_files : gmap string inode;
  w_dirs : gmap string utimes_policy;
  w_now : Z;
  w_env : syscall -> nat -> option errno;
  w_rand : N;
  w_trace : list (syscall * option errno)
}.

(** How many times the call [c] has been made so far. *)
Definition issued (c : syscall) (w : world) : nat :=
  length (filter (fun ev => ev.1 = c) (w_trace w)).

(** What the environment does to the call [c] if it is made now. *)
Definition w_fail (w : world) (c : syscall) : option errno :=
  w_env w c (issued c w).

Definition set_files (fs : gmap string inode) (w : world) : world :=
  World fs (w_dirs w) (w_now w) (w_env w) (w_rand w) (w_trace w).
Definition next_rand (w : world) : world :=
  World (w_files w) (w_dirs w) (w_now w) (w_env w) (N.succ (w_rand w)) (w_trace w).
Definition record (c : syscall) (r : option errno) (w : world) : world :=
  World (w_files w) (w_dirs w) (w_now w) (w_env w) (w_rand w) (w_trace w ++ [(c, r)]).

(** ** Computations *)

(** A Go call either returns, or the process exits ([log.Fatal] calls
    [os.Exit(1)]), or it panics. *)
Inductive outcome (A : Type) :=
| Done (a : A) (w : world)
| Exited (code : Z) (w : world)
| Panicked (msg : string) (w : world).
Arguments Done {A} a w.
Arguments Exited {A} code w.
Arguments Panicked {A} msg w.

Definition proc (A : Type) : Type := world -> outcome A.

#[global] Instance proc_ret : MRet proc := fun A a w => Done a w.
#[global] Instance proc_bind : MBind proc := fun A B k c w =>
  match c w with
  | Done a w' => k a w'
  | Exited code w' => Exited code w'
  | Panicked msg w' => Panicked msg w'
  end.

Definition log_Fatal {A} : proc A := fun w => Exited 1 w.
Definition panic {A} (msg : string) : proc A := fun w => Panicked msg w.

(** [defer d; body]: [d] runs when [body] returns or panics, not when the
    process exits; its own results are discarded. *)
Definition defer {A B} (d : proc B) (body : proc A) : proc A := fun w =>
  match body w with
  | Done a w' =>
      match d w' with
      | Done _ w'' => Done a w''
      | Exited code w'' => Exited code w''
      | Panicked msg w'' => Panicked msg w''
      end
  | Exited code w' => Exited code w'
  | Panicked msg w' =>
      match d w' with
      | Done _ w'' => Panicked msg w''
      | Exited code w'' => Exited code w''
      | Panicked msg' w'' => Panicked msg' w''
      end
  end.

(** The result of a library call of type [(T, error)]. *)
Inductive Res (T : Type) := Val (v : T) | Fail (e : error).
Arguments Val {T} v.
Arguments Fail {T} e.

Definition err_of {T} (r : Res T) : option error :=
  match r with Val _ => None | Fail e => Some e end.

(** One system call: the environment may fail it, this time; otherwise its
    semantics [sem] decides; either way the call and its result are
    recorded. *)
Definition sys {A} (c : syscall) (sem : world -> errno + A * world) : proc (Res A) := fun w =>
  match w_fail w c with
  | Some e => Done (Fail (Errno e)) (record c (Some e) w)
  | None =>
      match sem w with
      | inl e => Done (Fail (Errno e)) (record c (Some e) w)
      | inr (a, w') => Done (Val a) (record c None w')
      end
  end.

(** ** os, io, atime *)

Record FileInfo := { fi_Size : Z; fi_ModTime : Z; fi_Atime : Z }.

Definition file_size (w : world) (p : string) : Z :=
  match w_files w !! p with
  | Some ino => Z.of_nat (length (i_data ino))
  | None => 0
  end.

Definition os_Stat (p : string) : proc (Res FileInfo) :=
  sys (SysStat p) (fun w =>
    match w_files w !! p with
    | None => inl ENOENT
    | Some ino =>
        inr ({| fi_Size := Z.of_nat (length (i_data ino));
                fi_ModTime := i_mtime ino; fi_Atime := i_atime ino |}, w)
    end).

(** [atime.Stat] (djherbis/atime): a stat, of which the access time is kept. *)
Definition atime_Stat (p : string) : proc (Res Z) :=
  r ← os_Stat p;
  mret (match r with Val fi => Val (fi_Atime fi) | Fail e => Fail e end).

(** An open [*os.File]: its name and its read offset. *)
Record File := { f_name : string; f_off : Z }.

Definition os_Open (p : string) : proc (Res File) :=
  sys (SysOpen p) (fun w =>
    match w_files w !! p with
    | None => inl ENOENT
    | Some _ => inr ({| f_name := p; f_off := 0 |}, w)
    end).

(** Bytes [off, off+len) of a content, cut at its end. *)
Definition slice (data : list byte) (off len : Z) : list byte :=
  take (Z.to_nat len) (drop (Z.to_nat off) data).

(** Reading marks the file as accessed now. *)
Definition read_sem (p : string) (off len : Z) (w : world) : errno + list byte * world :=
  match w_files w !! p with
  | None => inl ENOENT
  | Some ino =>
      inr (slice (i_data ino) off len,
           set_files (<[p := Inode (i_data ino) (w_now w) (i_mtime ino) (i_fs ino)]> (w_files w)) w)
  end.

(** [io.Copy(h, f)]: everything from the offset of [f] to the end of the
    file goes into [h]. *)
Definition io_Copy (h : hash_state) (f : File) : proc (hash_state * File * option error) := fun w =>
  let n := Z.max 0 (file_size w (f_name f) - f_off f) in
  (r ← sys (SysRead (f_name f) (f_off f) n) (read_sem (f_name f) (f_off f) n);
   mret (match r with
         | Val bs => (hash_Write h bs,
                      {| f_name := f_name f; f_off := f_off f + Z.of_nat (length bs) |}, None)
         | Fail e => (h, f, Some e)
         end)) w.

(** [io.CopyN(h, f, n)]: the next [n] bytes of [f] go into [h]; [io.EOF]
    when the file ends before. *)
Definition io_CopyN (h : hash_state) (f : File) (n : Z) : proc (hash_state * File * option error) := fun w =>
  let m := Z.min n (Z.max 0 (file_size w (f_name f) - f_off f)) in
  (r ← sys (SysRead (f_name f) (f_off f) m) (read_sem (f_name f) (f_off f) m);
   mret (match r with
         | Val bs => (hash_Write h bs,
                      {| f_name := f_name f; f_off := f_off f + Z.of_nat (length bs) |},
                      if Z.of_nat (length bs) <? n then Some io_EOF else None)
         | Fail e => (h, f, Some e)
         end)) w.

Definition file_Seek (f : File) (off : Z) (wh : whence) : proc (File * option error) :=
  r ← sys (SysSeek (f_name f) off wh) (fun w =>
         let pos := match wh with
                    | SeekStart => off
                    | SeekEnd => file_size w (f_name f) + off
                    end in
         if pos <? 0 then inl EINVAL else inr ({| f_name := f_name f; f_off := pos |}, w));
  mret (match r with Val f' => (f', None) | Fail e => (f, Some e) end).

(** Closing has no effect that the package could observe. *)
Definition file_Close (f : File) : proc unit := mret tt.

Definition os_Chtimes (p : string) (atime mtime : Z) : proc (option error) :=
  r ← sys (SysUtimes p atime mtime) (fun w =>
         match w_files w !! p with
         | None => inl ENOENT
         | Some ino =>
             inr (tt, set_files (<[p := Inode (i_data ino)
                                            (store_time (i_fs ino) (i_atime ino) atime)
                                            (store_time (i_fs ino) (i_mtime ino) mtime)
                                            (i_fs ino)]> (w_files w)) w)
         end);
  mret (err_of r).

Definition os_Remove (p : string) : proc (option error) :=
  r ← sys (SysUnlink p) (fun w =>
         match w_files w !! p with
         | None => inl ENOENT
         | Some _ => inr (tt, set_files (delete p (w_files w)) w)
         end);
  mret (err_of r).

Fixpoint ends_with_separator (s : string) : bool :=
  match s with
  | EmptyString => false
  | String c EmptyString => Ascii.eqb c "/"
  | String _ s' => ends_with_separator s'
  end.

(** [joinPath] of package [os]: no second separator after a directory that
    ends with one. *)
Definition joinPath (dir name : string) : string :=
  if ends_with_separator dir then (dir ++ name)%string else (dir ++ "/" ++ name)%string.

(** The name [os.CreateTemp] tries: the pattern (which has no [*] here)
    followed by a number in decimal, in [dir]. *)
Definition temp_name (dir pattern : string) (n : N) : string :=
  joinPath dir (pattern ++ DecimalString.NilZero.string_of_uint (N.to_uint n))%string.

(** [os.CreateTemp]: a fresh name in [dir] is created exclusively; a name
    that exists is retried with the next one, [tries] more times. *)
Fixpoint create_temp (tries : nat) (dir pattern : string) : proc (Res File) := fun w =>
  let name := temp_name dir pattern (w_rand w) in
  match sys (SysCreate name) (fun w =>
              match w_dirs w !! dir with
              | None => inl ENOENT
              | Some pol =>
                  match w_files w !! name with
                  | Some _ => inl EEXIST
                  | None =>
                      inr ({| f_name := name; f_off := 0 |},
                           set_files (<[name := Inode [] (w_now w) (w_now w) pol]> (w_files w)) w)
                  end
              end) (next_rand w) with
  | Done (Fail (Errno EEXIST)) w' =>
      match tries with
      | O => Done (Fail (Errno EEXIST)) w'
      | S tries' => create_temp tries' dir pattern w'
      end
  | o => o
  end.

(** [dir] is never empty here: it comes from [filepath.Dir]. *)
Definition os_CreateTemp (dir pattern : string) : proc (Res File) :=
  create_temp (Z.to_nat 9999) dir pattern.

(** ** Package fcompare *)

Definition minPartialChecksumSize : Z := 16 * 1024 * 1024.

(** [type CompareMethod int]: any integer can be passed; three are named. *)
Definition CompareMethod := Z.
Definition CmpSize : CompareMethod := 0.
Definition CmpPartial : CompareMethod := 1.
Definition CmpFull : CompareMethod := 2.

Definition TestKeepAtime (fn : string) : proc (bool * option error) :=
  let dir := filepath_Dir fn in
  r ← os_CreateTemp dir "fcompare";
  match r with
  | Fail err => mret (false, Some err)
  | Val f =>
      let tfn := f_name f in
      _ ← file_Close f;
      defer (os_Remove tfn)
        (let aTime := time_Date 2000 1 1 0 0 0 0 in
         e ← os_Chtimes tfn aTime aTime;
         match e with
         | Some err => mret (false, Some err)
         | None =>
             r ← atime_Stat tfn;
             match r with
             | Fail err => mret (false, Some err)
             | Val aTimeChk =>
                 if negb (time_Unix aTime =? time_Unix aTimeChk)
                 then mret (false, None)
                 else mret (true, None)
             end
         end)
  end.

Definition GetPartialChecksum (filename : string) : proc (string * bool * option error) :=
  r ← os_Stat filename;
  match r with
  | Fail err => mret (EmptyString, false, Some err)
  | Val fi =>
      let filesize := fi_Size fi in
      r ← os_Open filename;
      match r with
      | Fail err => log_Fatal
      | Val f =>
          defer (file_Close f)
            (let h := sha256_New in
             if filesize <=? minPartialChecksumSize then
               '(h, f, err) ← io_Copy h f;
               match err with
               | Some e => mret (EmptyString, false, Some e)
               | None => mret (hex_EncodeToString (hash_Sum h), true, None)
               end
             else
               '(h, f, err) ← io_CopyN h f (1024 * 1024);
               match err with
               | Some e => mret (EmptyString, false, Some e)
               | None =>
                   let filemid := Z.quot filesize 2 in
                   let filemid := filemid - Z.rem filemid (1024 * 1024) in
                   '(f, err) ← file_Seek f filemid SeekStart;
                   match err with
                   | Some e => mret (EmptyString, false, Some e)
                   | None =>
                       '(h, f, err) ← io_CopyN h f (1024 * 1024);
                       match err with
                       | Some e => mret (EmptyString, false, Some e)
                       | None =>
                           '(f, err) ← file_Seek f (- 1024 * 1024) SeekEnd;
                           match err with
                           | Some e => mret (EmptyString, false, Some e)
                           | None =>
                               '(h, f, err) ← io_Copy h f;
                               match err with
                               | Some e => mret (EmptyString, false, Some e)
                               | None => mret (hex_EncodeToString (hash_Sum h), false, None)
                               end
                           end
                       end
                   end
               end)
      end
  end.

Definition GetChecksum (filename : string) : proc (string * option error) :=
  r ← os_Open filename;
  match r with
  | Fail err => log_Fatal
  | Val f =>
      defer (file_Close f)
        (let h := sha256_New in
         '(h, f, err) ← io_Copy h f;
         match err with
         | Some e => mret (EmptyString, Some e)
         | None => mret (hex_EncodeToString (hash_Sum h), None)
         end)
  end.

(** The [switch method] statement of [processFile]. *)
Definition method_switch (filename : string) (method : CompareMethod) (fi : FileInfo)
  : proc (string * option error) :=
  if method =? CmpPartial then
    '(fileinfo, _, err) ← GetPartialChecksum filename;
    match err with
    | Some e => mret (fileinfo, Some e)
    | None => mret (fileinfo, None)
    end
  else if method =? CmpSize then
    let fSize := fi_Size fi in
    mret (strconv_FormatInt fSize, None)
  else if method =? CmpFull then
    '(fileinfo, err) ← GetChecksum filename;
    match err with
    | Some e => mret (fileinfo, Some e)
    | None => mret (fileinfo, None)
    end
  else log_Fatal.

Definition processFile (filename : string) (method : CompareMethod) (keepATime : bool)
  : proc (string * option error) :=
  r ← atime_Stat filename;
  match r with
  | Fail err => log_Fatal
  | Val atime =>
      r ← os_Stat filename;
      match r with
      | Fail err => mret (EmptyString, Some err)
      | Val fi =>
          let mtime := fi_ModTime fi in
          (if keepATime then defer (os_Chtimes filename atime mtime) else id)
            (method_switch filename method fi)
      end
  end.

(** The first loop of [CompareFiles]: [fis[fi] = append(fis[fi], i)] for
    each file, returning at the first error. *)
Fixpoint compare_loop (fns : list string) (i : nat) (method : CompareMethod)
    (keepATime : bool) (fis : gmap string (list nat))
  : proc (gmap string (list nat) * option error) :=
  match fns with
  | [] => mret (fis, None)
  | fn :: rest =>
      '(fi, err) ← processFile fn method keepATime;
      match err with
      | Some e => mret (fis, Some e)
      | None =>
          compare_loop rest (S i) method keepATime
                       (<[fi := default [] (fis !! fi) ++ [i]]> fis)
      end
  end.

(** [for _, v := range fis]: Go leaves the order open; the model takes the
    order of [map_to_list], and results are stated up to a permutation of
    the groups. *)
Definition range_values (fis : gmap string (list nat)) : list (list nat) :=
  (map_to_list fis).*2.

Definition compare_body (fns : list string) (method : CompareMethod) (keepATime : bool)
  : proc (list (list nat) * option error) :=
  '(fis, err) ← compare_loop fns 0 method keepATime ∅;
  match err with
  | Some e => mret ([], Some e)
  | None => mret (range_values fis, None)
  end.

Definition CompareFiles (fns : list string) (method : CompareMethod)
    (keepATime checkKeepAtime : bool) : proc (list (list nat) * option error) :=
  if checkKeepAtime then
    match fns with
    | [] => panic "runtime error: index out of range [0] with length 0"
    | fn0 :: _ =>
        '(canKeep, err) ← TestKeepAtime fn0;
        match err with
        | Some e => mret ([], Some e)
        | None =>
            if negb canKeep then mret ([], Some (errors_New "can't keep atime"))
            else compare_body fns method keepATime
        end
    end
  else compare_body fns method keepATime.

(** ** The fingerprints as the specification words them *)

Definition MiB : Z := 1024 * 1024.

(** [floor(size/2)] rounded down to a multiple of 1 MiB. *)
Definition partial_mid (size : Z) : Z := size / 2 - (size / 2) mod MiB.

(** The three windows of the partial method: head, middle, tail. *)
Definition partial_windows (data : list byte) : list byte :=
  let size := Z.of_nat (length data) in
  slice data 0 MiB ++ slice data (partial_mid size) MiB ++ slice data (size - MiB) MiB.

Definition sha256_hex (data : list byte) : string :=
  hex_EncodeToString (SHA256.sum data).

(** The fingerprint of a content under a method, when there is one. *)
Definition Fingerprint (method : CompareMethod) (data : list byte) : option string :=
  if method =? CmpSize then Some (strconv_FormatInt (Z.of_nat (length data)))
  else if method =? CmpFull then Some (sha256_hex data)
  else if method =? CmpPartial then
    Some (if Z.of_nat (length data) <=? 16 * MiB then sha256_hex data
          else sha256_hex (partial_windows data))
  else None.

(** ** Worlds to run the package on *)

Definition no_fail : syscall -> nat -> option errno := fun _ _ => None.

Definition file_of (s : string) (atime mtime : Z) : inode :=
  Inode (bytes_of_string s) atime mtime Honoured.

(** Three small files in a directory that honours [utimes]; the clock is
    well after the files' times. *)
Definition demo_world : world :=
  World (<["d/a" := file_of "hello" 1000000000 900000000]>
           (<["d/b" := file_of "hello" 2000000000 800000000]>
              (<["d/c" := file_of "world" 3000000000 700000000]> ∅)))
        {["d" := Honoured]} 5000000000 no_fail 0 [].

(** [w] in an environment that fails the calls [f] names every time they
    are made. *)
Definition with_fail (f : syscall -> option errno) (w : world) : world :=
  World (w_files w) (w_dirs w) (w_now w) (fun c _ => f c) (w_rand w) (w_trace w).

Definition with_env (env : syscall -> nat -> option errno) (w : world) : world :=
  World (w_files w) (w_dirs w) (w_now w) env (w_rand w) (w_trace w).

Definition with_dirs (d : gmap string utimes_policy) (w : world) : world :=
  World (w_files w) d (w_now w) (w_env w) (w_rand w) (w_trace w).

Definition outcome_value {A} (o : outcome A) : option A :=
  match o with Done a _ => Some a | _ => None end.

Definition outcome_world {A} (o : outcome A) : world :=
  match o with Done _ w | Exited _ w | Panicked _ w => w end.

(** The first failure among a sequence of calls that differ from one
    another, each being answered as the environment answers it now. *)
Fixpoint first_failure (w : world) (calls : list syscall) : option errno :=
  match calls with
  | [] => None
  | c :: cs =>
      match w_fail w c with
      | Some e => Some e
      | None => first_failure w cs
      end
  end.

(** The calls [GetPartialChecksum] makes on an open file of [size] bytes
    above the threshold. *)
Definition partial_calls (fn : string) (size : Z) : list syscall :=
  [SysRead fn 0 MiB; SysSeek fn (partial_mid size) SeekStart;
   SysRead fn (partial_mid size) MiB;
   SysSeek fn (- MiB) SeekEnd; SysRead fn (size - MiB) MiB].

(** A file of 16 MiB and one byte, all zero. *)
Definition big_data : list byte := replicate (Z.to_nat (16 * 1024 * 1024 + 1)) x00.

Definition big_world : world :=
  World {["d/big" := Inode big_data 1000000000 900000000 Honoured]}
        {["d" := Honoured]} 5000000000 no_fail 0 [].

(** Environments that fail one call, or every [utimes], each time it is
    made; and one that fails the issue number [k] (from 0) of one call. *)
Definition fail_on (c0 : syscall) (e : errno) : syscall -> option errno :=
  fun c => if decide (c = c0) then Some e else None.

Definition deny_utimes : syscall -> option errno :=
  fun c => match c with SysUtimes _ _ _ => Some EPERM | _ => None end.

Definition fail_nth (c0 : syscall) (k : nat) (e : errno) : syscall -> nat -> option errno :=
  fun c n => if decide (c = c0) then (if decide (n = k) then Some e else None) else None.

Definition exit_code {A} (o : outcome A) : option Z :=
  match o with Exited code _ => Some code | _ => None end.





(** The sentinel instant of the probe: 2000-01-01 00:00:00 UTC. *)
Definition sentinel : Z := time_Date 2000 1 1 0 0 0 0.

(** The capability check as the specification words it: the call aborts with an
    error and no grouping exactly when preservation was requested and the
    probe on the first path reports not capable. *)
Definition aborts_iff_requested_and_incapable
    (fns : list string) (method : CompareMethod) (keepATime : bool) (w : world) : Prop :=
  (exists e, outcome_value (CompareFiles fns method keepATime true w) = Some ([], Some e))
  <-> (keepATime = true
       /\ exists fn0 rest err, fns = fn0 :: rest
            /\ outcome_value (TestKeepAtime fn0 w) = Some (false, err)).

(** ** Relations between the state before and after *)

Definition content (w : world) (p : string) : option (list byte) :=
  i_data <$> w_files w !! p.

(** Only time stamps may differ: the same files with the same contents on
    the same file systems, the same environment. *)
Definition retimed (w w' : world) : Prop :=
  w_env w' = w_env w /\ w_dirs w' = w_dirs w /\ w_now w' = w_now w /\ w_rand w' = w_rand w
  /\ forall q, (i_data <$> w_files w' !! q) = (i_data <$> w_files w !! q)
            /\ (i_fs <$> w_files w' !! q) = (i_fs <$> w_files w !! q).

(** Only the access time of [p] may differ. *)
Definition accessed (p : string) (w w' : world) : Prop :=
  retimed w w'
  /\ (forall q, (i_mtime <$> w_files w' !! q) = (i_mtime <$> w_files w !! q))
  /\ (forall q, q <> p -> w_files w' !! q = w_files w !! q).

(** From [w] to [w'] the calls [evs] were made, in the same environment. *)
Definition traced (evs : list (syscall * option errno)) (w w' : world) : Prop :=
  w_env w' = w_env w /\ w_trace w' = w_trace w ++ evs.

(** The calls made, with their results, when [calls] are attempted in turn
    and the first one that the environment fails is the last. *)
Fixpoint run_calls (w : world) (calls : list syscall) : list (syscall * option errno) :=
  match calls with
  | [] => []
  | c :: cs =>
      match w_fail w c with
      | Some e => [(c, Some e)]
      | None => (c, None) :: run_calls w cs
      end
  end.

Class Frame (R : world -> world -> Prop) : Prop := {
  R_refl : forall w, R w w;
  R_trans : forall a b c, R a b -> R b c -> R a c;
  R_record : forall c r w, R w (record c r w)
}.

Definition keeps (R : world -> world -> Prop) {A} (c : proc A) : Prop :=
  forall w, R w (outcome_world (c w)).

(** The indices, in increasing order, whose fingerprint is [key]. *)
Definition group_of (fps : list string) (key : string) : list nat :=
  filter (fun i => fps !! i = Some key) (seq 0 (length fps)).

(** The map the loop of [CompareFiles] builds from the fingerprints [fps]
    of the files at indices [i], [i+1], ... *)
Fixpoint group_fold (fps : list string) (i : nat) (fis : gmap string (list nat))
  : gmap string (list nat) :=
  match fps with
  | [] => fis
  | s :: rest => group_fold rest (S i) (<[s := default [] (fis !! s) ++ [i]]> fis)
  end.

Definition nonempty {A} (l : list A) : option (list A) :=
  match l with [] => None | _ => Some l end.

(** The fingerprint, under [method], of the file that path number [i]
    names in the state [w]. *)
Definition fingerprint_at (method : CompareMethod) (w : world) (fns : list string) (i : nat)
  : option string :=
  fn ← fns !! i; data ← content w fn; Fingerprint method data.

(** The state in which [CompareFiles] enters its loop: the one it was
    called in, or the one a successful probe left. *)
Definition enters_loop (checkKeepAtime : bool) (fns : list string) (w w0 : world) : Prop :=
  if checkKeepAtime
  then exists fn0 rest, fns = fn0 :: rest /\ TestKeepAtime fn0 w = Done (true, None) w0
  else w0 = w.

(** ** Notions used to state further properties *)

(** The characters [hex.EncodeToString] draws from. *)
Definition is_lower_hex (c : ascii) : bool :=
  existsb (Ascii.eqb c) (list_ascii_of_string "0123456789abcdef").

(** Apart from time stamps, nothing differs, and the files whose paths are
    not in [paths] do not differ at all. *)
Definition untouched_outside (paths : list string) (w w' : world) : Prop :=
  retimed w w' /\ forall q, q ∉ paths -> w_files w' !! q = w_files w !! q.

(** [big_data] with the byte at offset 2 MiB changed. *)
Definition big_data_changed : list byte :=
  <[Z.to_nat (2 * 1024 * 1024) := x01]> big_data.

Definition big_world_changed : world :=
  World {["d/big" := Inode big_data_changed 1000000000 900000000 Honoured]}
        {["d" := Honoured]} 5000000000 no_fail 0 [].

(** ** Command msfile (msfile.go, the version that uses package fcompare) *)

Module Msfile.

(** [var par params], as the flags left it. *)
Record params := { compare : bool; json : bool; method : string }.

Record FileInfo := {
  Filename : string;
  Size : Z;
  Atime : Z;
  Mtime : Z;
  PartialChecksum : string;
  FullChecksum : string;
  Properties : gmap string string
}.

Definition set_times (a m : Z) (inf : FileInfo) : FileInfo :=
  {| Filename := Filename inf; Size := Size inf; Atime := a; Mtime := m;
     PartialChecksum := PartialChecksum inf; FullChecksum := FullChecksum inf;
     Properties := Properties inf |}.

Definition set_Size (n : Z) (inf : FileInfo) : FileInfo :=
  {| Filename := Filename inf; Size := n; Atime := Atime inf; Mtime := Mtime inf;
     PartialChecksum := PartialChecksum inf; FullChecksum := FullChecksum inf;
     Properties := Properties inf |}.

Definition set_PartialChecksum (s : string) (inf : FileInfo) : FileInfo :=
  {| Filename := Filename inf; Size := Size inf; Atime := Atime inf; Mtime := Mtime inf;
     PartialChecksum := s; FullChecksum := FullChecksum inf;
     Properties := Properties inf |}.

Definition set_FullChecksum (s : string) (inf : FileInfo) : FileInfo :=
  {| Filename := Filename inf; Size := Size inf; Atime := Atime inf; Mtime := Mtime inf;
     PartialChecksum := PartialChecksum inf; FullChecksum := s;
     Properties := Properties inf |}.

(** The [if par.compare { switch par.method ... }] block of [processFile]. *)
Definition compare_switch (par : params) (filename : string) (fileinfo : FileInfo)
  : proc (FileInfo * option error) :=
  if compare par then
    if String.eqb (method par) "partial" then
      '(s, isFull, err) ← GetPartialChecksum filename;
      let fileinfo := set_PartialChecksum s fileinfo in
      match err with
      | Some e => mret (fileinfo, Some e)
      | None =>
          mret (if isFull : bool
                then set_FullChecksum (PartialChecksum fileinfo) fileinfo
                else fileinfo, None)
      end
    else if String.eqb (method par) "size" then mret (fileinfo, None)
    else if String.eqb (method par) "full" then
      '(s, err) ← GetChecksum filename;
      let fileinfo := set_FullChecksum s fileinfo in
      match err with
      | Some e => mret (fileinfo, Some e)
      | None => mret (fileinfo, None)
      end
    else log_Fatal
  else mret (fileinfo, None).

Definition processFile (par : params) (filename : string) : proc (FileInfo * option error) :=
  let fileinfo :=
    {| Filename := filename; Size := 0; Atime := 0; Mtime := 0;
       PartialChecksum := EmptyString; FullChecksum := EmptyString; Properties := ∅ |} in
  r ← atime_Stat filename;
  match r with
  | Fail err => log_Fatal
  | Val atime =>
      r ← os_Stat filename;
      match r with
      | Fail err => mret (fileinfo, Some err)
      | Val fi =>
          let mtime := fi_ModTime fi in
          let fileinfo := set_times (time_Unix atime) (time_Unix mtime) fileinfo in
          defer (os_Chtimes filename atime mtime)
            (let fileinfo := set_Size (fi_Size fi) fileinfo in
             compare_switch par filename fileinfo)
      end
  end.

(** What goes to standard output: a line of text, or a [FileInfo] rendered
    by [json.Marshal] or by the [%+v] verb (the rendering itself is left to
    the libraries; marshalling this struct cannot fail). *)
Inductive line :=
| Text (s : string)
| Json (inf : FileInfo)
| PlusV (inf : FileInfo).

(** The loop over [flag.Args()] that probes every argument. *)
Fixpoint probe_all (args : list string) : proc unit :=
  match args with
  | [] => mret tt
  | fn :: rest =>
      '(canKeep, _) ← TestKeepAtime fn;
      if negb canKeep then log_Fatal else probe_all rest
  end.

(** The loop that prints one [FileInfo] per argument; [out] is what has
    been printed so far. *)
Fixpoint print_all (par : params) (args : list string) (out : list line) (w : world)
  : list line * outcome unit :=
  match args with
  | [] => (out, Done tt w)
  | arg :: rest =>
      match processFile par arg w with
      | Done (inf, None) w' =>
          print_all par rest (out ++ [if json par then Json inf else PlusV inf]) w'
      | Done (_, Some _) w' => (out, Exited 1 w')
      | Exited code w' => (out, Exited code w')
      | Panicked msg w' => (out, Panicked msg w')
      end
  end.

Definition same_files (par : params) (inf1 inf2 : FileInfo) : bool :=
  (String.eqb (method par) "partial"
   && String.eqb (PartialChecksum inf1) (PartialChecksum inf2))
  || (String.eqb (method par) "size" && (Size inf1 =? Size inf2))
  || (String.eqb (method par) "full"
      && String.eqb (FullChecksum inf1) (FullChecksum inf2)).

(** The comparison of exactly two files. *)
Definition compare_two (par : params) (a b : string) (w : world) : list line * outcome unit :=
  match processFile par a w with
  | Done (inf1, None) w1 =>
      match processFile par b w1 with
      | Done (inf2, None) w2 =>
          ([Text (if same_files par inf1 inf2
                  then "Files are the same" else "Files are different")],
           Done tt w2)
      | Done (_, Some _) w2 => ([], Exited 1 w2)
      | Exited code w2 => ([], Exited code w2)
      | Panicked msg w2 => ([], Panicked msg w2)
      end
  | Done (_, Some _) w1 => ([], Exited 1 w1)
  | Exited code w1 => ([], Exited code w1)
  | Panicked msg w1 => ([], Panicked msg w1)
  end.

(** [main], after [handleCommandLine]: [par] holds the flags and [args] is
    [flag.Args()].  The result is what was printed on standard output and
    how the process ended (the usage line is followed by the flag defaults
    on standard error). *)
Definition main (par : params) (args : list string) (w : world) : list line * outcome unit :=
  if (length args =? 0)%nat
  then ([Text "Usage: msfile [options] file1 [file2]"], Exited 1 w)
  else
    match probe_all args w with
    | Done _ w1 =>
        if compare par then
          if negb (length args =? 2)%nat then ([], Exited 1 w1)
          else
            match args with
            | a :: b :: _ => compare_two par a b w1
            | _ => ([], Panicked "runtime error: index out of range" w1)
            end
        else print_all par args [] w1
    | Exited code w1 => ([], Exited code w1)
    | Panicked msg w1 => ([], Panicked msg w1)
    end.

End Msfile.

Definition info_flags : Msfile.params :=
  {| Msfile.compare := false; Msfile.json := true; Msfile.method := "partial" |}.

Definition compare_flags (m : string) : Msfile.params :=
  {| Msfile.compare := true; Msfile.json := false; Msfile.method := m |}.

(** Every file is on a file system that stores the times it is given, and
    the environment never fails a [utimes]. *)
Definition restorable (w : world) : Prop :=
  (forall p ino, w_files w !! p = Some ino -> i_fs ino = Honoured)
  /\ (forall p a m k, w_env w (SysUtimes p a m) k = None).

(** * Checks on concrete inputs *)

Example sha256_abc :
  hex_EncodeToString (SHA256.sum (bytes_of_string "abc"))
  = "ba7816bf8f01cfea414140de5dae2223b00361a396177a9cb410ff61f20015ad"%string.
Proof. vm_compute. reflexivity. Qed.

Example sha256_two_blocks :
  hex_EncodeToString
    (SHA256.sum (bytes_of_string "abcdbcdecdefdefgefghfghighijhijkijkljklmklmnlmnomnopnopq"))
  = "248d6a61d20638b8e5c026930c3e6039a33ce45964ff2167f6ecedd419db06c1"%string.
Proof. vm_compute. reflexivity. Qed.

Example sha256_empty :
  hex_EncodeToString (SHA256.sum [])
  = "e3b0c44298fc1c149afbf4c8996fb92427ae41e4649b934ca495991b7852b855"%string.
Proof. vm_compute. reflexivity. Qed.

Example sentinel_is_y2k : time_Unix (time_Date 2000 1 1 0 0 0 0) = 946684800.
Proof. reflexivity. Qed.

Example FormatInt_samples :
  strconv_FormatInt 0 = "0"%string /\ strconv_FormatInt 1048576 = "1048576"%string
  /\ strconv_FormatInt (-7) = "-7"%string.
Proof. repeat split. Qed.

Example Dir_samples :
  filepath_Dir "data/run1.raw" = "data"%string /\ filepath_Dir "run1.raw" = "."%string
  /\ filepath_Dir "/run1.raw" = "/"%string.
Proof. repeat split. Qed.

Example Clean_samples :
  map filepath_Clean
    ["abc"; ""; "."; ".."; "/"; "abc/"; "./"; "../../"; "abc//def//ghi"; "//abc//";
     "abc/./def"; "/./abc/def"; "abc/def/ghi/../jkl"; "abc/def/../.."; "/abc/def/../..";
     "abc/def/../../.."; "/abc/def/../../.."; "abc/def/../../../ghi/jkl/../../../mno";
     "/../abc"; "abc/../../././../def"]%string
  = ["abc"; "."; "."; ".."; "/"; "abc"; "."; "../.."; "abc/def/ghi"; "/abc";
     "abc/def"; "/abc/def"; "abc/def/jkl"; "."; "/";
     ".."; "/"; "../../mno";
     "/abc"; "../../def"]%string.
Proof. vm_compute. reflexivity. Qed.

Example Dir_more_samples :
  map filepath_Dir
    [""; "."; "/."; "/"; "/foo"; "x/"; "abc"; "abc/def"; "a/b/.x"; "/foo/bar/baz/";
     "/dirty//path///"; "dev.txt"; "../todo.txt"; ".."; "d//a"; "./d/a"]%string
  = ["."; "."; "/"; "/"; "/"; "x"; "."; "abc"; "a/b"; "/foo/bar/baz";
     "/dirty/path"; "."; ".."; "."; "d"; "d"]%string.
Proof. vm_compute. reflexivity. Qed.

Example temp_name_samples :
  temp_name "d" "fcompare" 7 = "d/fcompare7"%string
  /\ temp_name "/" "fcompare" 12 = "/fcompare12"%string
  /\ temp_name "." "fcompare" 0 = "./fcompare0"%string.
Proof. repeat split. Qed.

(** The second stat of [processFile] fails: the error is returned after the
    two stats, and no restore is made. *)
Example second_stat_fails :
  outcome_value (processFile "d/a" CmpFull true
                   (with_env (fail_nth (SysStat "d/a") 1 EIO) demo_world))
  = Some (EmptyString, Some (Errno EIO))
  /\ w_trace (outcome_world (processFile "d/a" CmpFull true
                               (with_env (fail_nth (SysStat "d/a") 1 EIO) demo_world)))
     = [(SysStat "d/a", None); (SysStat "d/a", Some EIO)].
Proof. split; vm_compute; reflexivity. Qed.

(** The stat of [GetPartialChecksum], the third of the file, fails: the error
    is returned, after the restore. *)
Example third_stat_fails :
  outcome_value (processFile "d/a" CmpPartial true
                   (with_env (fail_nth (SysStat "d/a") 2 EIO) demo_world))
  = Some (EmptyString, Some (Errno EIO))
  /\ w_trace (outcome_world (processFile "d/a" CmpPartial true
                               (with_env (fail_nth (SysStat "d/a") 2 EIO) demo_world)))
     = [(SysStat "d/a", None); (SysStat "d/a", None); (SysStat "d/a", Some EIO);
        (SysUtimes "d/a" 1000000000 900000000, None)].
Proof. split; vm_compute; reflexivity. Qed.

(** The restore fails: the digest is returned all the same. *)
Example restore_error_is_dropped :
  outcome_value (processFile "d/a" CmpFull true (with_fail deny_utimes demo_world))
  = Some ("2cf24dba5fb0a30e26e83b2ac5b9e29e1b161e5c1fa7425e73043362938b9824"%string, None)
  /\ last (w_trace (outcome_world (processFile "d/a" CmpFull true
                                     (with_fail deny_utimes demo_world))))
     = Some (SysUtimes "d/a" 1000000000 900000000, Some EPERM).
Proof. split; vm_compute; reflexivity. Qed.

Example demo_full :
  outcome_value (processFile "d/a" CmpFull true demo_world)
  = Some ("2cf24dba5fb0a30e26e83b2ac5b9e29e1b161e5c1fa7425e73043362938b9824"%string, None).
Proof. vm_compute. reflexivity. Qed.

Example demo_groups :
  outcome_value (CompareFiles ["d/a"; "d/b"; "d/c"]%string CmpFull true true demo_world)
  = Some ([[0; 1]; [2]]%nat, None)
  \/ outcome_value (CompareFiles ["d/a"; "d/b"; "d/c"]%string CmpFull true true demo_world)
  = Some ([[2]; [0; 1]]%nat, None).
Proof. vm_compute. auto. Qed.

(** * Properties *)

Arguments slice : simpl never.
Arguments SHA256.sum : simpl never.
Arguments hex_EncodeToString : simpl never.
Arguments time_Date : simpl never.
Arguments time_Unix : simpl never.
Arguments strconv_FormatInt : simpl never.
Arguments temp_name : simpl never.
Arguments filepath_Dir : simpl never.
Arguments w_fail : simpl never.
Arguments issued : simpl never.

(** ** Stepping through computations *)

Lemma bind_Done {A B} (c : proc A) (k : A -> proc B) w a w' :
  c w = Done a w' -> (c ≫= k) w = k a w'.
Proof. intros H. unfold mbind, proc_bind. now rewrite H. Qed.

Lemma bind_Exited {A B} (c : proc A) (k : A -> proc B) w code w' :
  c w = Exited code w' -> (c ≫= k) w = Exited code w'.
Proof. intros H. unfold mbind, proc_bind. now rewrite H. Qed.

Lemma sys_failed {A} c (sem : world -> errno + A * world) w e :
  w_fail w c = Some e -> sys c sem w = Done (Fail (Errno e)) (record c (Some e) w).
Proof. intros H. unfold sys. now rewrite H. Qed.

Lemma sys_refused {A} c (sem : world -> errno + A * world) w e :
  w_fail w c = None -> sem w = inl e ->
  sys c sem w = Done (Fail (Errno e)) (record c (Some e) w).
Proof. intros H1 H2. unfold sys. now rewrite H1, H2. Qed.

Lemma sys_done {A} c (sem : world -> errno + A * world) w a w' :
  w_fail w c = None -> sem w = inr (a, w') ->
  sys c sem w = Done (Val a) (record c None w').
Proof. intros H1 H2. unfold sys. now rewrite H1, H2. Qed.

(** A system call always returns, and adds exactly its own record to the
    trace. *)
Lemma sys_total {A} c (sem : world -> errno + A * world) w :
  exists r w', sys c sem w = Done r w'.
Proof.
  unfold sys. destruct (w_fail w c); [eauto|].
  destruct (sem w) as [e|[a w']]; eauto.
Qed.

(** [filepath.Dir] never returns the empty string. *)
Lemma filepath_Clean_nonempty p : filepath_Clean p <> EmptyString.
Proof.
  unfold filepath_Clean. destruct p as [|c p]; [done|]. cbv zeta.
  destruct (Ascii.eqb c "/"); [done|].
  destruct (String.concat _ _); done.
Qed.

Lemma filepath_Dir_nonempty p : filepath_Dir p <> EmptyString.
Proof. unfold filepath_Dir. destruct (dir_split p); apply filepath_Clean_nonempty. Qed.

(** The environment answers a call by the number of times that call was
    made: other calls in between do not change the answer. *)
Lemma traced_refl w : traced [] w w.
Proof. split; [done|]. now rewrite app_nil_r. Qed.

Lemma traced_trans e1 e2 a b c : traced e1 a b -> traced e2 b c -> traced (e1 ++ e2) a c.
Proof. intros [H1 T1] [H2 T2]. split; [congruence|]. now rewrite T2, T1, app_assoc. Qed.

Lemma traced_record c r w : traced [(c, r)] w (record c r w).
Proof. done. Qed.

Lemma traced_snoc evs c r a b : traced evs a b -> traced (evs ++ [(c, r)]) a (record c r b).
Proof. intros H. eapply traced_trans; [exact H|apply traced_record]. Qed.

Lemma w_fail_traced c evs w w' :
  traced evs w w' -> c ∉ evs.*1 -> w_fail w' c = w_fail w c.
Proof.
  intros [He Ht] Hc. unfold w_fail, issued. rewrite He, Ht, filter_app, length_app.
  clear Ht.
  replace (filter (fun ev => ev.1 = c) evs) with (@nil (syscall * option errno));
    [simpl; now rewrite Nat.add_0_r|].
  symmetry. induction evs as [|ev evs IH]; [done|]. rewrite filter_cons.
  destruct (decide (ev.1 = c)) as [E|E]; [exfalso; apply Hc; rewrite <- E; left|].
  apply IH. intros H. apply Hc. now right.
Qed.

Lemma w_fail_record_ne c r w c' : c' <> c -> w_fail (record c r w) c' = w_fail w c'.
Proof.
  intros H. apply (w_fail_traced c' [(c, r)]); [apply traced_record|].
  simpl. intros Hin. apply list_elem_of_In in Hin as [Hin|[]]. congruence.
Qed.

Lemma os_Stat_found w p ino :
  w_fail w (SysStat p) = None -> w_files w !! p = Some ino ->
  os_Stat p w = Done (Val {| fi_Size := Z.of_nat (length (i_data ino));
                             fi_ModTime := i_mtime ino; fi_Atime := i_atime ino |})
                     (record (SysStat p) None w).
Proof. intros Hf Hl. unfold os_Stat. apply sys_done; [done|]. now rewrite Hl. Qed.

Lemma os_Stat_missing w p :
  w_files w !! p = None ->
  exists e, os_Stat p w = Done (Fail (Errno e)) (record (SysStat p) (Some e) w).
Proof.
  intros Hl. unfold os_Stat. destruct (w_fail w (SysStat p)) as [e|] eqn:Hf.
  - exists e. now apply sys_failed.
  - exists ENOENT. apply sys_refused; [done|]. now rewrite Hl.
Qed.

Lemma atime_Stat_missing w p :
  w_files w !! p = None ->
  exists e, atime_Stat p w = Done (Fail (Errno e)) (record (SysStat p) (Some e) w).
Proof.
  intros Hl. destruct (os_Stat_missing w p Hl) as (e & E). exists e.
  unfold atime_Stat. now rewrite (bind_Done _ _ _ _ _ E).
Qed.

(** ** The empty list with the capability check (C10) *)

(** C10: [CompareFiles] with an empty path list and [checkKeepAtime] set
    evaluates [fns[0]] unguarded: the call panics with an index-out-of-range
    run-time error, in the state it was called in, and returns no error
    value. *)
Theorem CompareFiles_empty_check_panics (method : CompareMethod) (keepATime : bool) (w : world) :
  CompareFiles [] method keepATime true w
  = Panicked "runtime error: index out of range [0] with length 0" w
  /\ outcome_value (CompareFiles [] method keepATime true w) = None
  /\ outcome_value (CompareFiles [] method keepATime false w) = Some ([], None).
Proof. repeat split. Qed.

(** ** What a computation leaves untouched *)

(** A relation between the state before and the state after that holds
    step by step holds for whole computations, whatever their outcome. *)
Section Frame.
Context (R : world -> world -> Prop) `{!Frame R}.
Local Abbreviation keeps := (keeps R).

Lemma keeps_ret {A} (a : A) : keeps (mret a).
Proof. intros w. apply R_refl. Qed.

Lemma keeps_Fatal {A} : keeps (@log_Fatal A).
Proof. intros w. apply R_refl. Qed.

Lemma keeps_bind {A B} (c : proc A) (k : A -> proc B) :
  keeps c -> (forall a, keeps (k a)) -> keeps (c ≫= k).
Proof.
  intros Hc Hk w. specialize (Hc w). unfold mbind, proc_bind.
  destruct (c w) as [a w'| |]; simpl in *; try done.
  eapply R_trans; [exact Hc | apply Hk].
Qed.

Lemma keeps_defer {A B} (d : proc B) (body : proc A) :
  keeps d -> keeps body -> keeps (defer d body).
Proof.
  intros Hd Hb w. specialize (Hb w). unfold defer.
  destruct (body w) as [a w'| |msg w']; simpl in *; try done.
  - specialize (Hd w'). destruct (d w'); simpl in *; eapply R_trans; eauto.
  - specialize (Hd w'). destruct (d w'); simpl in *; eapply R_trans; eauto.
Qed.

Lemma keeps_sys {A} c (sem : world -> errno + A * world) :
  (forall w a w', sem w = inr (a, w') -> R w w') -> keeps (sys c sem).
Proof.
  intros Hs w. unfold sys. destruct (w_fail w c); simpl; [apply R_record|].
  destruct (sem w) as [e|[a w']] eqn:E; simpl; [apply R_record|].
  eapply R_trans; [eapply Hs; eassumption | apply R_record].
Qed.

Lemma keeps_bind_post {A B} (P : A -> Prop) (c : proc A) (k : A -> proc B) :
  (forall w a w', c w = Done a w' -> P a) ->
  keeps c -> (forall a, P a -> keeps (k a)) -> keeps (c ≫= k).
Proof.
  intros HP Hc Hk w. specialize (Hc w). specialize (HP w). unfold mbind, proc_bind.
  destruct (c w) as [a w'| |]; simpl in *; try done.
  eapply R_trans; [exact Hc | eapply Hk, HP; reflexivity].
Qed.

Lemma keeps_Done {A} (c : proc A) w a w' : keeps c -> c w = Done a w' -> R w w'.
Proof. intros H E. specialize (H w). now rewrite E in H. Qed.

End Frame.

Lemma retimed_refl w : retimed w w.
Proof. repeat split. Qed.

Lemma retimed_trans a b c : retimed a b -> retimed b c -> retimed a c.
Proof.
  intros (H1 & H2 & H3 & H4 & H5) (G1 & G2 & G3 & G4 & G5).
  repeat split; try congruence.
  - destruct (H5 q), (G5 q). congruence.
  - destruct (H5 q), (G5 q). congruence.
Qed.

Lemma retimed_record c r w : retimed w (record c r w).
Proof. repeat split. Qed.

Lemma accessed_refl p w : accessed p w w.
Proof. split; [apply retimed_refl|]. split; done. Qed.

Lemma accessed_trans p a b c : accessed p a b -> accessed p b c -> accessed p a c.
Proof.
  intros (H1 & H2 & H3) (G1 & G2 & G3). split; [eapply retimed_trans; eauto|].
  split; intros q; [rewrite G2; apply H2|].
  intros Hq. rewrite G3 by done. now apply H3.
Qed.

Lemma accessed_record p c r w : accessed p w (record c r w).
Proof. split; [apply retimed_record|]. split; done. Qed.

Lemma accessed_retimed p w w' : accessed p w w' -> retimed w w'.
Proof. now intros [H _]. Qed.

Lemma retimed_content w w' p : retimed w w' -> content w' p = content w p.
Proof. intros (_ & _ & _ & _ & H). apply H. Qed.

Lemma content_size w p data :
  content w p = Some data -> file_size w p = Z.of_nat (length data).
Proof.
  unfold content, file_size. destruct (w_files w !! p); simpl; [|done].
  now intros [= <-].
Qed.

Lemma read_sem_accessed p off len w bs w' :
  read_sem p off len w = inr (bs, w') -> accessed p w w'.
Proof.
  unfold read_sem. destruct (w_files w !! p) as [ino|] eqn:E; [|done].
  intros [= <- <-]. split; [|split].
  - repeat split; simpl; destruct (decide (q = p)) as [->|Hq];
      rewrite ?lookup_insert_eq, ?lookup_insert_ne by done; rewrite ?E; done.
  - intros q. simpl. destruct (decide (q = p)) as [->|Hq];
      rewrite ?lookup_insert_eq, ?lookup_insert_ne by done; rewrite ?E; done.
  - intros q Hq. simpl. now rewrite lookup_insert_ne.
Qed.

Lemma utimes_retimed p a m w w' :
  match w_files w !! p with
  | None => inl ENOENT
  | Some ino =>
      inr (tt, set_files (<[p := Inode (i_data ino) (store_time (i_fs ino) (i_atime ino) a)
                                       (store_time (i_fs ino) (i_mtime ino) m) (i_fs ino)]>
                            (w_files w)) w)
  end = inr (tt, w') -> retimed w w'.
Proof.
  destruct (w_files w !! p) as [ino|] eqn:E; [|done].
  intros [= <-].
  repeat split; simpl; destruct (decide (q = p)) as [->|Hq];
    rewrite ?lookup_insert_eq, ?lookup_insert_ne by done; rewrite ?E; done.
Qed.

#[global] Instance retimed_frame : Frame retimed.
Proof. split; [apply retimed_refl | apply retimed_trans | apply retimed_record]. Qed.

#[global] Instance accessed_frame p : Frame (accessed p).
Proof. split; [apply accessed_refl | apply accessed_trans | apply accessed_record]. Qed.

(** Decomposing a computation along its binds, defers and returns. *)
Ltac frame_step :=
  lazymatch goal with
  | |- keeps _ (mret _) => apply keeps_ret; apply _
  | |- keeps _ log_Fatal => apply keeps_Fatal; apply _
  | |- keeps _ (defer _ _) => apply keeps_defer; [apply _| |]
  | |- keeps _ (mbind _ _) => apply keeps_bind; [apply _| |intros ?]
  end.

Lemma keeps_weaken (R S : world -> world -> Prop) {A} (c : proc A) :
  (forall w w', R w w' -> S w w') -> keeps R c -> keeps S c.
Proof. intros H Hc w. apply H, Hc. Qed.

Lemma os_Stat_accessed p q : keeps (accessed p) (os_Stat q).
Proof.
  apply keeps_sys; [apply _|]; intros w a w'.
  destruct (w_files w !! q); [|done]. intros [= _ <-]. apply accessed_refl.
Qed.

Lemma atime_Stat_accessed p q : keeps (accessed p) (atime_Stat q).
Proof. unfold atime_Stat. frame_step; [apply os_Stat_accessed|frame_step]. Qed.

Lemma os_Open_accessed p q : keeps (accessed p) (os_Open q).
Proof.
  apply keeps_sys; [apply _|]; intros w a w'.
  destruct (w_files w !! q); [|done]. intros [= _ <-]. apply accessed_refl.
Qed.

Lemma io_Copy_accessed h f : keeps (accessed (f_name f)) (io_Copy h f).
Proof.
  intros w. unfold io_Copy. cbv zeta.
  apply (keeps_bind (accessed (f_name f)) (sys _ _)); [|intros ?; frame_step].
  apply keeps_sys; [apply _|]. intros ? ? ?. apply read_sem_accessed.
Qed.

Lemma io_CopyN_accessed h f n : keeps (accessed (f_name f)) (io_CopyN h f n).
Proof.
  intros w. unfold io_CopyN. cbv zeta.
  apply (keeps_bind (accessed (f_name f)) (sys _ _)); [|intros ?; frame_step].
  apply keeps_sys; [apply _|]. intros ? ? ?. apply read_sem_accessed.
Qed.

Lemma file_Seek_accessed f off wh : keeps (accessed (f_name f)) (file_Seek f off wh).
Proof.
  unfold file_Seek. frame_step; [|frame_step].
  apply keeps_sys; [apply _|]; intros w a w'.
  destruct (_ <? 0); [done|]. intros [= _ <-]. apply accessed_refl.
Qed.

Lemma os_Chtimes_retimed p a m : keeps retimed (os_Chtimes p a m).
Proof.
  unfold os_Chtimes. frame_step; [|frame_step].
  apply keeps_sys; [apply _|]; intros w [] w'. apply utimes_retimed.
Qed.

(** ** What the library calls return *)

Lemma sys_cases {A} c (sem : world -> errno + A * world) w r w' :
  sys c sem w = Done r w' ->
  (exists e, r = Fail (Errno e) /\ w' = record c (Some e) w
             /\ (w_fail w c = Some e \/ w_fail w c = None /\ sem w = inl e))
  \/ (exists a w0, r = Val a /\ w' = record c None w0
                   /\ w_fail w c = None /\ sem w = inr (a, w0)).
Proof.
  unfold sys. destruct (w_fail w c) as [e|] eqn:Hf.
  - intros [= <- <-]. left. eauto.
  - destruct (sem w) as [e|[a w0]] eqn:Hs; intros [= <- <-]; [left|right]; eauto 10.
Qed.

Lemma os_Open_name p w f w' : os_Open p w = Done (Val f) w' -> f_name f = p.
Proof.
  intros H. apply sys_cases in H as [(e & ? & _)|(a & w0 & [= <-] & _ & _ & Hs)]; [done|].
  destruct (w_files w !! p); [|done]. now injection Hs as <- _.
Qed.

Lemma io_CopyN_name h f n w h' f' err w' :
  io_CopyN h f n w = Done (h', f', err) w' -> f_name f' = f_name f.
Proof.
  unfold io_CopyN, mbind, proc_bind. cbv zeta.
  destruct (sys _ _ w) as [[bs|e] w1| |]; try done; now intros [= _ <- _ _].
Qed.

Lemma file_Seek_name f off wh w f' err w' :
  file_Seek f off wh w = Done (f', err) w' -> f_name f' = f_name f.
Proof.
  unfold file_Seek, mbind, proc_bind.
  destruct (sys _ _ w) as [[f1|e] w1| |] eqn:E; try done; intros [= <- _ _]; [|done].
  apply sys_cases in E as [(e & ? & _)|(a & w0 & [= <-] & _ & _ & Hs)]; [done|].
  destruct (_ <? 0); [done|]. now injection Hs as <- _.
Qed.

(** ** Fingerprinting touches nothing but time stamps *)

Lemma GetChecksum_accessed fn : keeps (accessed fn) (GetChecksum fn).
Proof.
  unfold GetChecksum. cbv zeta.
  apply (keeps_bind_post _ (fun r => forall f, r = Val f -> f_name f = fn));
    [|apply os_Open_accessed|].
  { intros w [f|e] w' H f' [= <-]. eauto using os_Open_name. }
  intros [f|e] Hf; [|frame_step]. specialize (Hf f eq_refl) as <-.
  frame_step; [unfold file_Close; frame_step|].
  frame_step; [apply io_Copy_accessed|]. destruct a as [[h f'] [e|]]; frame_step.
Qed.

Lemma GetPartialChecksum_accessed fn : keeps (accessed fn) (GetPartialChecksum fn).
Proof.
  unfold GetPartialChecksum. cbv zeta.
  frame_step; [apply os_Stat_accessed|]. destruct a as [fi|e]; [|frame_step].
  apply (keeps_bind_post _ (fun r => forall f, r = Val f -> f_name f = fn));
    [|apply os_Open_accessed|].
  { intros w [f|e] w' H f' [= <-]. eauto using os_Open_name. }
  intros [f|e] Hf; [|frame_step]. specialize (Hf f eq_refl) as <-.
  frame_step; [unfold file_Close; frame_step|].
  destruct (_ <=? _).
  { frame_step; [apply io_Copy_accessed|]. destruct a as [[h f'] [e|]]; frame_step. }
  apply (keeps_bind_post _ (fun r => f_name (snd (fst r)) = f_name f));
    [|apply io_CopyN_accessed|].
  { intros w [[h f'] e] w' H. simpl. eauto using io_CopyN_name. }
  intros [[h1 f1] [e|]] N1; simpl in N1; [frame_step|].
  apply (keeps_bind_post _ (fun r => f_name (fst r) = f_name f));
    [|rewrite <- N1; apply file_Seek_accessed|].
  { intros w [f' e] w' H. simpl. rewrite <- N1. eauto using file_Seek_name. }
  intros [f2 [e|]] N2; simpl in N2; [frame_step|].
  apply (keeps_bind_post _ (fun r => f_name (snd (fst r)) = f_name f));
    [|rewrite <- N2; apply io_CopyN_accessed|].
  { intros w [[h f'] e] w' H. simpl. rewrite <- N2. eauto using io_CopyN_name. }
  intros [[h3 f3] [e|]] N3; simpl in N3; [frame_step|].
  apply (keeps_bind_post _ (fun r => f_name (fst r) = f_name f));
    [|rewrite <- N3; apply file_Seek_accessed|].
  { intros w [f' e] w' H. simpl. rewrite <- N3. eauto using file_Seek_name. }
  intros [f4 [e|]] N4; simpl in N4; [frame_step|].
  frame_step; [rewrite <- N4; apply io_Copy_accessed|].
  destruct a as [[h5 f5] [e|]]; frame_step.
Qed.

Lemma method_switch_accessed fn method fi : keeps (accessed fn) (method_switch fn method fi).
Proof.
  unfold method_switch. cbv zeta.
  destruct (method =? CmpPartial).
  { frame_step; [apply GetPartialChecksum_accessed|].
    destruct a as [[s b] [e|]]; frame_step. }
  destruct (method =? CmpSize); [frame_step|].
  destruct (method =? CmpFull); [|frame_step].
  frame_step; [apply GetChecksum_accessed|].
  destruct a as [s [e|]]; frame_step.
Qed.

Lemma processFile_retimed fn method keep : keeps retimed (processFile fn method keep).
Proof.
  unfold processFile. cbv zeta.
  frame_step; [eapply keeps_weaken; [apply (accessed_retimed fn)|apply atime_Stat_accessed]|].
  destruct a as [atime|e]; [|frame_step].
  frame_step; [eapply keeps_weaken; [apply (accessed_retimed fn)|apply os_Stat_accessed]|].
  destruct a as [fi|e]; [|frame_step].
  assert (keeps retimed (method_switch fn method fi)) as Hbody.
  { eapply keeps_weaken; [apply (accessed_retimed fn)|apply method_switch_accessed]. }
  destruct keep; [|exact Hbody].
  frame_step; [apply os_Chtimes_retimed|exact Hbody].
Qed.

(** ** What the checksums are *)

Lemma slice_all data : slice data 0 (Z.of_nat (length data)) = data.
Proof. unfold slice. rewrite Nat2Z.id. simpl. now rewrite take_ge. Qed.

Lemma slice_length data off len :
  0 <= off -> 0 <= len -> off + len <= Z.of_nat (length data) ->
  Z.of_nat (length (slice data off len)) = len.
Proof. intros. unfold slice. rewrite length_take, length_drop. lia. Qed.

Lemma content_lookup w p data :
  content w p = Some data -> exists ino, w_files w !! p = Some ino /\ i_data ino = data.
Proof.
  unfold content. destruct (w_files w !! p) as [ino|]; simpl; [|done].
  intros [= <-]. eauto.
Qed.

Lemma io_Copy_value h f w data :
  content w (f_name f) = Some data -> 0 <= f_off f <= Z.of_nat (length data) ->
  let n := Z.of_nat (length data) - f_off f in
  exists w', accessed (f_name f) w w' /\
    traced [(SysRead (f_name f) (f_off f) n, w_fail w (SysRead (f_name f) (f_off f) n))] w w' /\
    io_Copy h f w =
    Done (match w_fail w (SysRead (f_name f) (f_off f) n) with
          | Some e => (h, f, Some (Errno e))
          | None => (h ++ slice data (f_off f) n,
                     {| f_name := f_name f; f_off := Z.of_nat (length data) |}, None)
          end) w'.
Proof.
  intros Hc Hoff n.
  assert (exists w',
    traced [(SysRead (f_name f) (f_off f) n, w_fail w (SysRead (f_name f) (f_off f) n))] w w' /\
    io_Copy h f w =
    Done (match w_fail w (SysRead (f_name f) (f_off f) n) with
          | Some e => (h, f, Some (Errno e))
          | None => (h ++ slice data (f_off f) n,
                     {| f_name := f_name f; f_off := Z.of_nat (length data) |}, None)
          end) w') as (w' & T & E).
  { unfold io_Copy, mbind, proc_bind. cbv zeta.
    rewrite (content_size _ _ _ Hc). replace (0 `max` _) with n by (subst n; lia).
    destruct (content_lookup _ _ _ Hc) as (ino & Hl & Hd).
    unfold sys, read_sem. rewrite Hl.
    destruct (w_fail w _); [eexists; split; [|reflexivity]; done|].
    unfold mret, proc_ret. rewrite Hd. unfold hash_Write.
    eexists; split; [|repeat f_equal; rewrite slice_length; subst n; lia]. done. }
  exists w'. split; [eapply keeps_Done; [apply io_Copy_accessed|exact E]|done].
Qed.

Lemma io_CopyN_value h f n w data :
  content w (f_name f) = Some data ->
  0 <= f_off f -> 0 <= n -> f_off f + n <= Z.of_nat (length data) ->
  exists w', accessed (f_name f) w w' /\
    traced [(SysRead (f_name f) (f_off f) n, w_fail w (SysRead (f_name f) (f_off f) n))] w w' /\
    io_CopyN h f n w =
    Done (match w_fail w (SysRead (f_name f) (f_off f) n) with
          | Some e => (h, f, Some (Errno e))
          | None => (h ++ slice data (f_off f) n,
                     {| f_name := f_name f; f_off := f_off f + n |}, None)
          end) w'.
Proof.
  intros Hc Hoff Hn Hlen.
  assert (exists w',
    traced [(SysRead (f_name f) (f_off f) n, w_fail w (SysRead (f_name f) (f_off f) n))] w w' /\
    io_CopyN h f n w =
    Done (match w_fail w (SysRead (f_name f) (f_off f) n) with
          | Some e => (h, f, Some (Errno e))
          | None => (h ++ slice data (f_off f) n,
                     {| f_name := f_name f; f_off := f_off f + n |}, None)
          end) w') as (w' & T & E).
  { unfold io_CopyN, mbind, proc_bind. cbv zeta.
    rewrite (content_size _ _ _ Hc). replace (n `min` _) with n by lia.
    destruct (content_lookup _ _ _ Hc) as (ino & Hl & Hd).
    unfold sys, read_sem. rewrite Hl.
    destruct (w_fail w _); [eexists; split; [|reflexivity]; done|].
    unfold mret, proc_ret. rewrite Hd. unfold hash_Write.
    rewrite slice_length by lia. rewrite Z.ltb_irrefl. eexists; split; [|reflexivity]. done. }
  exists w'. split; [eapply keeps_Done; [apply io_CopyN_accessed|exact E]|done].
Qed.

Lemma file_Seek_value f off wh w data :
  content w (f_name f) = Some data ->
  let pos := match wh with
             | SeekStart => off
             | SeekEnd => Z.of_nat (length data) + off
             end in
  0 <= pos ->
  exists w', accessed (f_name f) w w' /\
    traced [(SysSeek (f_name f) off wh, w_fail w (SysSeek (f_name f) off wh))] w w' /\
    file_Seek f off wh w =
    Done (match w_fail w (SysSeek (f_name f) off wh) with
          | Some e => (f, Some (Errno e))
          | None => ({| f_name := f_name f; f_off := pos |}, None)
          end) w'.
Proof.
  intros Hc pos Hpos.
  assert (exists w',
    traced [(SysSeek (f_name f) off wh, w_fail w (SysSeek (f_name f) off wh))] w w' /\
    file_Seek f off wh w =
    Done (match w_fail w (SysSeek (f_name f) off wh) with
          | Some e => (f, Some (Errno e))
          | None => ({| f_name := f_name f; f_off := pos |}, None)
          end) w') as (w' & T & E).
  { unfold file_Seek, mbind, proc_bind, sys.
    rewrite (content_size _ _ _ Hc). fold pos.
    destruct (w_fail w _); [eexists; split; [|reflexivity]; done|].
    destruct (Z.ltb_spec pos 0); [lia|]. eexists; split; [|reflexivity]. done. }
  exists w'. split; [eapply keeps_Done; [apply file_Seek_accessed|exact E]|done].
Qed.

Lemma os_Open_value p w data :
  content w p = Some data ->
  os_Open p w =
  Done (match w_fail w (SysOpen p) with
        | Some e => Fail (Errno e)
        | None => Val {| f_name := p; f_off := 0 |}
        end) (record (SysOpen p) (w_fail w (SysOpen p)) w).
Proof.
  intros Hc. unfold os_Open, sys. destruct (content_lookup _ _ _ Hc) as (ino & Hl & Hd).
  rewrite Hl. now destruct (w_fail w _).
Qed.

Lemma os_Stat_value p w ino :
  w_files w !! p = Some ino ->
  os_Stat p w =
  Done (match w_fail w (SysStat p) with
        | Some e => Fail (Errno e)
        | None => Val {| fi_Size := Z.of_nat (length (i_data ino));
                         fi_ModTime := i_mtime ino; fi_Atime := i_atime ino |}
        end) (record (SysStat p) (w_fail w (SysStat p)) w).
Proof. intros Hl. unfold os_Stat, sys. rewrite Hl. now destruct (w_fail w _). Qed.

Lemma atime_Stat_value p w ino :
  w_files w !! p = Some ino ->
  atime_Stat p w =
  Done (match w_fail w (SysStat p) with
        | Some e => Fail (Errno e)
        | None => Val (i_atime ino)
        end) (record (SysStat p) (w_fail w (SysStat p)) w).
Proof.
  intros Hl. unfold atime_Stat.
  rewrite (bind_Done _ _ _ _ _ (os_Stat_value p w ino Hl)).
  now destruct (w_fail w _).
Qed.

Lemma accessed_env p w w' : accessed p w w' -> w_env w' = w_env w.
Proof. now intros ((H & _) & _). Qed.

Lemma accessed_content p w w' q : accessed p w w' -> content w' q = content w q.
Proof. intros [H _]. now apply retimed_content. Qed.

(** A call that has not been made since [w] gets the answer it would have
    got in [w]. *)
Ltac not_issued :=
  simpl; rewrite ?not_elem_of_cons;
  repeat split; try apply not_elem_of_nil; try discriminate; try (intros [=]; lia).

(** The outcome of [GetChecksum] on a file that exists, case by case of
    what the environment does to the calls. *)
Lemma GetChecksum_run fn w data :
  content w fn = Some data ->
  exists w', accessed fn w w' /\
    traced (run_calls w [SysOpen fn; SysRead fn 0 (Z.of_nat (length data))]) w w' /\
    (is_Some (w_fail w (SysOpen fn)) -> w_files w' = w_files w) /\
    GetChecksum fn w =
    match w_fail w (SysOpen fn) with
    | Some _ => Exited 1 w'
    | None =>
        Done (match w_fail w (SysRead fn 0 (Z.of_nat (length data))) with
              | Some e => (EmptyString, Some (Errno e))
              | None => (sha256_hex data, None)
              end) w'
    end.
Proof.
  intros Hc. unfold GetChecksum. cbn [run_calls].
  rewrite (bind_Done _ _ _ _ _ (os_Open_value fn w data Hc)).
  set (w1 := record (SysOpen fn) (w_fail w (SysOpen fn)) w).
  destruct (w_fail w (SysOpen fn)) as [e|] eqn:F1;
    [exists w1; split; [apply accessed_record|done]|].
  assert (B1 : accessed fn w w1) by apply accessed_record.
  assert (T1 : traced [(SysOpen fn, None)] w w1) by done.
  destruct (io_Copy_value sha256_New {| f_name := fn; f_off := 0 |} w1 data)
    as (w2 & A2 & S2 & E2); [done|simpl; lia|].
  cbn [f_name f_off] in A2, S2, E2. rewrite Z.sub_0_r in S2, E2. rewrite slice_all in E2.
  rewrite (w_fail_traced _ _ _ _ T1) in S2, E2 by not_issued.
  pose proof (traced_trans _ _ _ _ _ T1 S2) as T2. simpl app in T2.
  exists w2. split; [exact (accessed_trans _ _ _ _ B1 A2)|].
  unfold defer. cbv zeta. rewrite (bind_Done _ _ _ _ _ E2).
  destruct (w_fail w (SysRead _ _ _)) eqn:F2;
    (split; [exact T2|]); (split; [by intros [? ?]|]); reflexivity.
Qed.

Lemma GetChecksum_outcome fn w data :
  content w fn = Some data ->
  exists w', accessed fn w w' /\
    (is_Some (w_fail w (SysOpen fn)) -> w_files w' = w_files w) /\
    GetChecksum fn w =
    match w_fail w (SysOpen fn) with
    | Some _ => Exited 1 w'
    | None =>
        Done (match w_fail w (SysRead fn 0 (Z.of_nat (length data))) with
              | Some e => (EmptyString, Some (Errno e))
              | None => (sha256_hex data, None)
              end) w'
    end.
Proof.
  intros Hc. destruct (GetChecksum_run fn w data Hc) as (w' & A & _ & X & E).
  exists w'. done.
Qed.

Lemma GetPartialChecksum_small_run fn w data :
  content w fn = Some data -> Z.of_nat (length data) <= minPartialChecksumSize ->
  exists w', accessed fn w w' /\
    traced (run_calls w [SysStat fn; SysOpen fn;
                         SysRead fn 0 (Z.of_nat (length data))]) w w' /\
    (is_Some (w_fail w (SysOpen fn)) -> w_files w' = w_files w) /\
    GetPartialChecksum fn w =
    match w_fail w (SysStat fn) with
    | Some e => Done (EmptyString, false, Some (Errno e)) w'
    | None =>
        match w_fail w (SysOpen fn) with
        | Some _ => Exited 1 w'
        | None =>
            Done (match w_fail w (SysRead fn 0 (Z.of_nat (length data))) with
                  | Some e => (EmptyString, false, Some (Errno e))
                  | None => (sha256_hex data, true, None)
                  end) w'
        end
    end.
Proof.
  intros Hc Hsz. unfold GetPartialChecksum. cbn [run_calls].
  destruct (content_lookup _ _ _ Hc) as (ino & Hl & Hd).
  rewrite (bind_Done _ _ _ _ _ (os_Stat_value fn w ino Hl)).
  set (w0 := record (SysStat fn) (w_fail w (SysStat fn)) w).
  destruct (w_fail w (SysStat fn)) as [e|] eqn:F0;
    [exists w0; split; [apply accessed_record|done]|].
  assert (B0 : accessed fn w w0) by apply accessed_record.
  assert (T0 : traced [(SysStat fn, None)] w w0) by done.
  cbv zeta. simpl fi_Size. rewrite Hd.
  rewrite (bind_Done _ _ _ _ _ (os_Open_value fn w0 data Hc)).
  rewrite (w_fail_traced _ _ _ _ T0) by not_issued.
  set (w1 := record (SysOpen fn) (w_fail w (SysOpen fn)) w0).
  destruct (w_fail w (SysOpen fn)) as [e|] eqn:F1.
  { exists w1. split; [exact (accessed_trans _ _ _ _ B0 (accessed_record _ _ _ _))|].
    split; [exact (traced_snoc _ _ _ _ _ T0)|done]. }
  assert (B1 : accessed fn w w1)
    by exact (accessed_trans _ _ _ _ B0 (accessed_record _ _ _ _)).
  assert (T1 : traced [(SysStat fn, None); (SysOpen fn, None)] w w1)
    by exact (traced_snoc _ _ _ _ _ T0).
  destruct (Z.leb_spec (Z.of_nat (length data)) minPartialChecksumSize); [|lia].
  destruct (io_Copy_value sha256_New {| f_name := fn; f_off := 0 |} w1 data)
    as (w2 & A2 & S2 & E2); [by rewrite (accessed_content _ _ _ _ B1)|simpl; lia|].
  cbn [f_name f_off] in A2, S2, E2. rewrite Z.sub_0_r in S2, E2. rewrite slice_all in E2.
  rewrite (w_fail_traced _ _ _ _ T1) in S2, E2 by not_issued.
  pose proof (traced_trans _ _ _ _ _ T1 S2) as T2. simpl app in T2.
  exists w2. split; [exact (accessed_trans _ _ _ _ B1 A2)|].
  unfold defer. rewrite (bind_Done _ _ _ _ _ E2).
  destruct (w_fail w (SysRead _ _ _)) eqn:F2;
    (split; [exact T2|]); (split; [by intros [? ?]|]); reflexivity.
Qed.

Lemma GetPartialChecksum_small_outcome fn w data :
  content w fn = Some data -> Z.of_nat (length data) <= minPartialChecksumSize ->
  exists w', accessed fn w w' /\
    (is_Some (w_fail w (SysOpen fn)) -> w_files w' = w_files w) /\
    GetPartialChecksum fn w =
    match w_fail w (SysStat fn) with
    | Some e => Done (EmptyString, false, Some (Errno e)) w'
    | None =>
        match w_fail w (SysOpen fn) with
        | Some _ => Exited 1 w'
        | None =>
            Done (match w_fail w (SysRead fn 0 (Z.of_nat (length data))) with
                  | Some e => (EmptyString, false, Some (Errno e))
                  | None => (sha256_hex data, true, None)
                  end) w'
        end
    end.
Proof.
  intros Hc Hsz.
  destruct (GetPartialChecksum_small_run fn w data Hc Hsz) as (w' & A & _ & X & E).
  exists w'. done.
Qed.

Lemma filemid_is_partial_mid size :
  0 <= size ->
  Z.quot size 2 - Z.rem (Z.quot size 2) (1024 * 1024) = partial_mid size.
Proof.
  intros H. unfold partial_mid, MiB.
  rewrite Z.quot_div_nonneg by lia.
  rewrite Z.rem_mod_nonneg; [done| |lia].
  apply Z.div_pos; lia.
Qed.

Lemma partial_mid_bounds size :
  minPartialChecksumSize < size ->
  0 <= partial_mid size /\ partial_mid size + MiB <= size
  /\ partial_mid size mod MiB = 0.
Proof.
  unfold minPartialChecksumSize, partial_mid, MiB. intros H.
  change (16 * 1024 * 1024) with 16777216 in H. change (1024 * 1024) with 1048576.
  pose proof (Z.mod_pos_bound (size / 2) 1048576 ltac:(lia)).
  pose proof (Z.div_mod (size / 2) 1048576 ltac:(lia)) as Hd.
  assert (0 <= size / 2 /\ 2 * (size / 2) <= size) as [H1 H2].
  { split; [apply Z.div_pos; lia|apply Z.mul_div_le; lia]. }
  repeat split; try lia.
  replace (size / 2 - (size / 2) mod 1048576) with (size / 2 / 1048576 * 1048576) by lia.
  apply Z.mod_mul. lia.
Qed.

(** The middle window lies strictly between the first and the last. *)
Lemma partial_mid_between size :
  minPartialChecksumSize < size ->
  8 * MiB <= partial_mid size /\ partial_mid size + MiB <= size - MiB.
Proof.
  unfold minPartialChecksumSize, partial_mid, MiB. intros H.
  change (16 * 1024 * 1024) with 16777216 in H. change (1024 * 1024) with 1048576.
  pose proof (Z.mod_pos_bound (size / 2) 1048576 ltac:(lia)).
  pose proof (Z.div_mod (size / 2) 1048576 ltac:(lia)) as Hd.
  assert (8388608 <= size / 2 /\ 2 * (size / 2) <= size) as [H1 H2].
  { split; [apply Z.div_le_lower_bound; lia|apply Z.mul_div_le; lia]. }
  assert (8 <= size / 2 / 1048576) by (apply Z.div_le_lower_bound; lia).
  lia.
Qed.

(** The outcome of [GetPartialChecksum] on a file above the threshold, with
    the calls it makes: they stop at the first one the environment fails. *)
Lemma GetPartialChecksum_large_run fn w data :
  content w fn = Some data -> minPartialChecksumSize < Z.of_nat (length data) ->
  exists w', accessed fn w w' /\
    traced (run_calls w (SysStat fn :: SysOpen fn
                           :: partial_calls fn (Z.of_nat (length data)))) w w' /\
    (is_Some (w_fail w (SysOpen fn)) -> w_files w' = w_files w) /\
    GetPartialChecksum fn w =
    match w_fail w (SysStat fn) with
    | Some e => Done (EmptyString, false, Some (Errno e)) w'
    | None =>
        match w_fail w (SysOpen fn) with
        | Some _ => Exited 1 w'
        | None =>
            Done (match first_failure w (partial_calls fn (Z.of_nat (length data))) with
                  | Some e => (EmptyString, false, Some (Errno e))
                  | None => (sha256_hex (partial_windows data), false, None)
                  end) w'
        end
    end.
Proof.
  intros Hc Hsz. unfold GetPartialChecksum.
  destruct (content_lookup _ _ _ Hc) as (ino & Hl & Hd).
  rewrite (bind_Done _ _ _ _ _ (os_Stat_value fn w ino Hl)).
  set (size := Z.of_nat (length data)) in *.
  destruct (partial_mid_bounds size Hsz) as (M1 & M2 & _).
  destruct (partial_mid_between size Hsz) as (M3 & M4).
  assert (HM : MiB = 1048576 /\ minPartialChecksumSize = 16777216) by done.
  unfold partial_calls. cbn [run_calls first_failure].
  set (w0 := record (SysStat fn) (w_fail w (SysStat fn)) w).
  destruct (w_fail w (SysStat fn)) as [e|] eqn:F0;
    [exists w0; split; [apply accessed_record|done]|].
  assert (B0 : accessed fn w w0) by apply accessed_record.
  assert (T0 : traced [(SysStat fn, None)] w w0) by done.
  cbv zeta. simpl fi_Size. rewrite Hd. fold size.
  rewrite (bind_Done _ _ _ _ _ (os_Open_value fn w0 data Hc)).
  rewrite (w_fail_traced _ _ _ _ T0) by not_issued.
  set (w1 := record (SysOpen fn) (w_fail w (SysOpen fn)) w0).
  destruct (w_fail w (SysOpen fn)) as [e|] eqn:F1.
  { exists w1. split; [exact (accessed_trans _ _ _ _ B0 (accessed_record _ _ _ _))|].
    split; [exact (traced_snoc _ _ _ _ _ T0)|done]. }
  assert (B1 : accessed fn w w1)
    by exact (accessed_trans _ _ _ _ B0 (accessed_record _ _ _ _)).
  assert (T1 : traced [(SysStat fn, None); (SysOpen fn, None)] w w1)
    by exact (traced_snoc _ _ _ _ _ T0).
  clear B0 T0.
  assert (G : is_Some (@None errno) -> forall x : world, w_files x = w_files w)
    by (by intros [? ?]).
  destruct (Z.leb_spec size minPartialChecksumSize); [lia|].
  rewrite filemid_is_partial_mid by lia.
  change (1024 * 1024) with MiB. change (- 1024 * 1024) with (- MiB).
  unfold defer.
  (* head *)
  destruct (io_CopyN_value sha256_New {| f_name := fn; f_off := 0 |} MiB w1 data)
    as (w2 & A2 & S2 & E2); [by rewrite (accessed_content _ _ _ _ B1)|simpl; fold size; lia..|].
  cbn [f_name f_off] in A2, S2, E2.
  rewrite (w_fail_traced _ _ _ _ T1) in S2, E2 by not_issued.
  rewrite (bind_Done _ _ _ _ _ E2).
  pose proof (accessed_trans _ _ _ _ B1 A2) as B2.
  pose proof (traced_trans _ _ _ _ _ T1 S2) as T2. simpl app in T2. clear B1 T1 A2 S2 E2.
  destruct (w_fail w (SysRead fn 0 MiB)) as [e|] eqn:F2;
    [exists w2; split; [exact B2|split; [exact T2|split; [auto|reflexivity]]]|].
  (* seek to the middle *)
  destruct (file_Seek_value {| f_name := fn; f_off := 0 + MiB |} (partial_mid size)
              SeekStart w2 data) as (w3 & A3 & S3 & E3);
    [by rewrite (accessed_content _ _ _ _ B2)|simpl; lia|].
  cbn [f_name f_off] in A3, S3, E3.
  rewrite (w_fail_traced _ _ _ _ T2) in S3, E3 by not_issued.
  rewrite (bind_Done _ _ _ _ _ E3).
  pose proof (accessed_trans _ _ _ _ B2 A3) as B3.
  pose proof (traced_trans _ _ _ _ _ T2 S3) as T3. simpl app in T3. clear B2 T2 A3 S3 E3.
  destruct (w_fail w (SysSeek fn (partial_mid size) SeekStart)) as [e|] eqn:F3;
    [exists w3; split; [exact B3|split; [exact T3|split; [auto|reflexivity]]]|].
  (* middle *)
  destruct (io_CopyN_value (sha256_New ++ slice data 0 MiB)
              {| f_name := fn; f_off := partial_mid size |} MiB w3 data)
    as (w4 & A4 & S4 & E4); [by rewrite (accessed_content _ _ _ _ B3)|simpl; fold size; lia..|].
  cbn [f_name f_off] in A4, S4, E4.
  rewrite (w_fail_traced _ _ _ _ T3) in S4, E4 by not_issued.
  rewrite (bind_Done _ _ _ _ _ E4).
  pose proof (accessed_trans _ _ _ _ B3 A4) as B4.
  pose proof (traced_trans _ _ _ _ _ T3 S4) as T4. simpl app in T4. clear B3 T3 A4 S4 E4.
  destruct (w_fail w (SysRead fn (partial_mid size) MiB)) as [e|] eqn:F4;
    [exists w4; split; [exact B4|split; [exact T4|split; [auto|reflexivity]]]|].
  (* seek to the tail *)
  destruct (file_Seek_value {| f_name := fn; f_off := partial_mid size + MiB |} (- MiB)
              SeekEnd w4 data) as (w5 & A5 & S5 & E5);
    [by rewrite (accessed_content _ _ _ _ B4)|simpl; fold size; lia|].
  cbn [f_name f_off] in A5, S5, E5.
  rewrite (w_fail_traced _ _ _ _ T4) in S5, E5 by not_issued.
  rewrite (bind_Done _ _ _ _ _ E5).
  pose proof (accessed_trans _ _ _ _ B4 A5) as B5.
  pose proof (traced_trans _ _ _ _ _ T4 S5) as T5. simpl app in T5. clear B4 T4 A5 S5 E5.
  destruct (w_fail w (SysSeek fn (- MiB) SeekEnd)) as [e|] eqn:F5;
    [exists w5; split; [exact B5|split; [exact T5|split; [auto|reflexivity]]]|].
  (* tail *)
  destruct (io_Copy_value ((sha256_New ++ slice data 0 MiB) ++ slice data (partial_mid size) MiB)
              {| f_name := fn; f_off := size + - MiB |} w5 data)
    as (w6 & A6 & S6 & E6); [by rewrite (accessed_content _ _ _ _ B5)|simpl; fold size; lia|].
  cbn [f_name f_off] in A6, S6, E6. fold size in S6, E6.
  replace (size - (size + - MiB)) with MiB in S6, E6 by lia.
  replace (size + - MiB) with (size - MiB) in S6, E6 by lia.
  rewrite (w_fail_traced _ _ _ _ T5) in S6, E6 by not_issued.
  rewrite (bind_Done _ _ _ _ _ E6).
  pose proof (traced_trans _ _ _ _ _ T5 S6) as T6. simpl app in T6.
  exists w6. split; [exact (accessed_trans _ _ _ _ B5 A6)|].
  destruct (w_fail w (SysRead fn (size - MiB) MiB)) as [e|] eqn:F6;
    (split; [exact T6|]); (split; [auto|]); [reflexivity|].
  unfold mret, proc_ret, hash_Sum, sha256_hex, partial_windows, sha256_New. fold size.
  simpl app. now rewrite <- app_assoc.
Qed.

Lemma GetPartialChecksum_large_outcome fn w data :
  content w fn = Some data -> minPartialChecksumSize < Z.of_nat (length data) ->
  exists w', accessed fn w w' /\
    (is_Some (w_fail w (SysOpen fn)) -> w_files w' = w_files w) /\
    GetPartialChecksum fn w =
    match w_fail w (SysStat fn) with
    | Some e => Done (EmptyString, false, Some (Errno e)) w'
    | None =>
        match w_fail w (SysOpen fn) with
        | Some _ => Exited 1 w'
        | None =>
            Done (match first_failure w (partial_calls fn (Z.of_nat (length data))) with
                  | Some e => (EmptyString, false, Some (Errno e))
                  | None => (sha256_hex (partial_windows data), false, None)
                  end) w'
        end
    end.
Proof.
  intros Hc Hsz.
  destruct (GetPartialChecksum_large_run fn w data Hc Hsz) as (w' & A & _ & X & E).
  exists w'. done.
Qed.

(** ** Partial and full checksums (C1, C2) *)

(** C1: for a file of at most 16 MiB, whenever [GetPartialChecksum] returns
    a digest it reports [isFull = true] and the digest is the one
    [GetChecksum] returns for that file; with a working stat the converse
    holds; and when the environment fails neither the open nor the read,
    both return the hex SHA-256 of the whole content. *)
Theorem partial_is_full_up_to_threshold (w : world) (fn : string) (data : list byte) :
  content w fn = Some data ->
  Z.of_nat (length data) <= 16 * 1024 * 1024 ->
  (forall d b, outcome_value (GetPartialChecksum fn w) = Some (d, b, None) ->
               b = true /\ outcome_value (GetChecksum fn w) = Some (d, None))
  /\ (w_fail w (SysStat fn) = None ->
      forall d, outcome_value (GetChecksum fn w) = Some (d, None) ->
                outcome_value (GetPartialChecksum fn w) = Some (d, true, None))
  /\ (w_fail w (SysStat fn) = None -> w_fail w (SysOpen fn) = None ->
      w_fail w (SysRead fn 0 (Z.of_nat (length data))) = None ->
      outcome_value (GetPartialChecksum fn w)
      = Some (hex_EncodeToString (SHA256.sum data), true, None)
      /\ outcome_value (GetChecksum fn w)
         = Some (hex_EncodeToString (SHA256.sum data), None)).
Proof.
  intros Hc Hsz.
  destruct (GetPartialChecksum_small_outcome fn w data Hc Hsz) as (wp & _ & _ & Ep).
  destruct (GetChecksum_outcome fn w data Hc) as (wf & _ & _ & Ef).
  rewrite Ep, Ef. clear Ep Ef.
  destruct (w_fail w (SysStat fn)) as [e0|], (w_fail w (SysOpen fn)) as [e1|],
    (w_fail w (SysRead fn 0 (Z.of_nat (length data)))) as [e2|]; simpl;
    repeat split; try congruence; intros; simplify_eq; done.
Qed.

Lemma partial_is_full_up_to_threshold_witness :
  outcome_value (GetPartialChecksum "d/a" demo_world)
  = Some (hex_EncodeToString (SHA256.sum (bytes_of_string "hello")), true, None)
  /\ outcome_value (GetChecksum "d/a" demo_world)
     = Some (hex_EncodeToString (SHA256.sum (bytes_of_string "hello")), None).
Proof.
  refine (proj2 (proj2 (partial_is_full_up_to_threshold demo_world "d/a"
            (bytes_of_string "hello") _ _)) _ _ _);
    [reflexivity | vm_compute; discriminate | reflexivity..].
Defined.

(** C2: for a file of more than 16 MiB that the environment lets be read,
    [GetPartialChecksum] returns the hex SHA-256 of one stream made of bytes
    [0, 1 MiB), then bytes [mid, mid + 1 MiB) with
    [mid = floor(size/2) - floor(size/2) mod 1 MiB], then the last 1 MiB;
    each window is exactly 1 MiB long; and [isFull] is false however the
    call returns. *)
Theorem partial_of_large_file (w : world) (fn : string) (data : list byte) :
  content w fn = Some data ->
  16 * 1024 * 1024 < Z.of_nat (length data) ->
  let size := Z.of_nat (length data) in
  let mid := size / 2 - (size / 2) mod (1024 * 1024) in
  ((forall c, c ∈ SysStat fn :: SysOpen fn :: partial_calls fn size -> w_fail w c = None) ->
   outcome_value (GetPartialChecksum fn w)
   = Some (hex_EncodeToString
             (hash_Sum (hash_Write (hash_Write (hash_Write sha256_New
                          (slice data 0 (1024 * 1024)))
                          (slice data mid (1024 * 1024)))
                          (slice data (size - 1024 * 1024) (1024 * 1024)))),
           false, None))
  /\ (forall d b e, outcome_value (GetPartialChecksum fn w) = Some (d, b, e) -> b = false)
  /\ Z.of_nat (length (slice data 0 (1024 * 1024))) = 1024 * 1024
  /\ Z.of_nat (length (slice data mid (1024 * 1024))) = 1024 * 1024
  /\ Z.of_nat (length (slice data (size - 1024 * 1024) (1024 * 1024))) = 1024 * 1024.
Proof.
  intros Hc Hsz size mid.
  change (16 * 1024 * 1024) with minPartialChecksumSize in Hsz.
  change (1024 * 1024) with MiB in *. change (size / 2 - (size / 2) mod MiB)
    with (partial_mid size) in mid.
  destruct (GetPartialChecksum_large_outcome fn w data Hc Hsz) as (wp & _ & _ & Ep).
  fold size in Ep. rewrite Ep. clear Ep.
  split; [|split].
  - intros Hok.
    rewrite (Hok (SysStat fn)), (Hok (SysOpen fn)) by set_solver.
    unfold partial_calls, first_failure.
    rewrite !Hok by set_solver. simpl.
    unfold sha256_hex, partial_windows, hash_Sum, hash_Write, sha256_New. fold size.
    simpl app. now rewrite <- app_assoc.
  - intros d b e.
    destruct (w_fail w (SysStat fn)), (w_fail w (SysOpen fn)),
      (first_failure w (partial_calls fn size)); simpl; congruence.
  - destruct (partial_mid_bounds size Hsz) as (M1 & M2 & _).
    assert (HM : MiB = 1048576 /\ minPartialChecksumSize = 16777216) by done.
    subst size mid. repeat split; apply slice_length; lia.
Qed.

Lemma partial_of_large_file_witness :
  outcome_value (GetPartialChecksum "d/big" big_world)
  = Some (hex_EncodeToString
            (hash_Sum (hash_Write (hash_Write (hash_Write sha256_New
                         (slice big_data 0 (1024 * 1024)))
                         (slice big_data (8 * 1024 * 1024) (1024 * 1024)))
                         (slice big_data (15 * 1024 * 1024 + 1) (1024 * 1024)))),
          false, None).
Proof.
  assert (Hlen : Z.of_nat (length big_data) = 16 * 1024 * 1024 + 1).
  { unfold big_data. rewrite length_replicate. lia. }
  pose proof (partial_of_large_file big_world "d/big" big_data eq_refl
                ltac:(rewrite Hlen; lia)) as H.
  cbv zeta in H. rewrite Hlen in H. apply (proj1 H). intros c _. reflexivity.
Defined.

(** ** The per-file operation *)

Lemma os_Chtimes_value p a m w ino :
  w_files w !! p = Some ino ->
  os_Chtimes p a m w =
  match w_fail w (SysUtimes p a m) with
  | Some e => Done (Some (Errno e)) (record (SysUtimes p a m) (Some e) w)
  | None =>
      Done None
        (record (SysUtimes p a m) None
           (set_files (<[p := Inode (i_data ino) (store_time (i_fs ino) (i_atime ino) a)
                                    (store_time (i_fs ino) (i_mtime ino) m) (i_fs ino)]>
                         (w_files w)) w))
  end.
Proof.
  intros Hl. unfold os_Chtimes, mbind, proc_bind, sys. rewrite Hl.
  now destruct (w_fail w _).
Qed.

(** [os.Chtimes] always returns, after exactly one call; its error is the
    error of that call. *)
Lemma os_Chtimes_total p a m w :
  exists res w', os_Chtimes p a m w = Done (Errno <$> res) w'
                 /\ traced [(SysUtimes p a m, res)] w w'.
Proof.
  unfold os_Chtimes, mbind, proc_bind, sys.
  destruct (w_fail w _) as [e|]; [exists (Some e); eexists; done|].
  destruct (w_files w !! p); [exists None|exists (Some ENOENT)]; eexists; done.
Qed.

Lemma run_calls_calls w cs ev : ev ∈ run_calls w cs -> ev.1 ∈ cs.
Proof.
  induction cs as [|c cs IH]; simpl; [intros H; by apply elem_of_nil in H|].
  destruct (w_fail w c).
  - intros H. apply list_elem_of_singleton in H as ->. left.
  - intros H. apply elem_of_cons in H as [->|H]; [left|right; auto].
Qed.

(** None of the calls of a list of stats, opens, reads and seeks is a
    [utimes]. *)
Ltac no_utimes :=
  let H := fresh in
  let ev := fresh in
  let E := fresh in
  intros ? ? ? H; apply list_elem_of_fmap in H as (ev & E & H);
  apply run_calls_calls in H; rewrite <- E in H;
  repeat (apply elem_of_cons in H as [H|H]; [discriminate H|]);
  by apply elem_of_nil in H.

(** The switch either exits before anything was read, or returns having
    changed at most the access time of the file, without a [utimes]. *)
Lemma method_switch_cases fn method fi w data :
  content w fn = Some data ->
  (exists code w', method_switch fn method fi w = Exited code w' /\ w_files w' = w_files w)
  \/ (exists r w' evs, method_switch fn method fi w = Done r w' /\ accessed fn w w'
        /\ traced evs w w' /\ forall p a m, SysUtimes p a m ∉ evs.*1).
Proof.
  intros Hc. unfold method_switch.
  destruct (method =? CmpPartial).
  { assert (exists w' evs, accessed fn w w' /\ traced evs w w' /\
              (forall p a m, SysUtimes p a m ∉ evs.*1) /\
              (is_Some (w_fail w (SysOpen fn)) -> w_files w' = w_files w) /\
              ((exists r, GetPartialChecksum fn w = Done r w')
               \/ (is_Some (w_fail w (SysOpen fn)) /\ GetPartialChecksum fn w = Exited 1 w')))
      as (w' & evs & A & T & U & X & [[[[d b] e] E]|[S E]]).
    { destruct (Z.le_gt_cases (Z.of_nat (length data)) minPartialChecksumSize) as [Hs|Hs].
      - destruct (GetPartialChecksum_small_run fn w data Hc Hs) as (w' & A & T & X & E).
        eexists w', _. split; [done|]. split; [exact T|]. split; [no_utimes|].
        split; [done|]. rewrite E.
        destruct (w_fail w (SysStat fn)); [eauto|].
        destruct (w_fail w (SysOpen fn)); eauto.
      - destruct (GetPartialChecksum_large_run fn w data Hc ltac:(lia)) as (w' & A & T & X & E).
        eexists w', _. split; [done|]. split; [exact T|]. split; [unfold partial_calls; no_utimes|].
        split; [done|]. rewrite E.
        destruct (w_fail w (SysStat fn)); [eauto|].
        destruct (w_fail w (SysOpen fn)); eauto. }
    - right. rewrite (bind_Done _ _ _ _ _ E). destruct e; eauto 10.
    - left. rewrite (bind_Exited _ _ _ _ _ E). eauto. }
  destruct (method =? CmpSize).
  { right. eexists _, w, []. split; [reflexivity|]. split; [apply accessed_refl|].
    split; [apply traced_refl|]. intros p a m. apply not_elem_of_nil. }
  destruct (method =? CmpFull); [|left; eexists _, w; split; reflexivity].
  destruct (GetChecksum_run fn w data Hc) as (w' & A & T & X & E).
  destruct (w_fail w (SysOpen fn)) as [e|] eqn:F.
  - left. rewrite (bind_Exited _ _ _ _ _ E). eauto.
  - right. rewrite (bind_Done _ _ _ _ _ E).
    assert (U : forall p a m,
              SysUtimes p a m
              ∉ (run_calls w [SysOpen fn; SysRead fn 0 (Z.of_nat (length data))]).*1)
      by no_utimes.
    destruct (w_fail w (SysRead _ _ _)); eauto 10.
Qed.

(** [processFile] on a file that exists, way by way: the process exits, and
    no file has changed; or the second stat fails, and the error is
    returned at once; or both stats succeed and the switch returns, after
    which, with [keepATime], the deferred [os.Chtimes] runs and its result
    is dropped. *)
Lemma processFile_cases fn method keep w ino :
  w_files w !! fn = Some ino ->
  (exists code w', processFile fn method keep w = Exited code w' /\ w_files w' = w_files w)
  \/ (exists e, w_fail w (SysStat fn) = None
        /\ w_fail (record (SysStat fn) None w) (SysStat fn) = Some e
        /\ processFile fn method keep w
           = Done (EmptyString, Some (Errno e))
                  (record (SysStat fn) (Some e) (record (SysStat fn) None w)))
  \/ (exists r w3 w' evs,
        processFile fn method keep w = Done r w'
        /\ processFile fn method false w = Done r w3
        /\ accessed fn w w3
        /\ traced ((SysStat fn, None) :: (SysStat fn, None) :: evs) w w3
        /\ (forall p a m, SysUtimes p a m ∉ evs.*1)
        /\ if keep
           then exists res,
                  os_Chtimes fn (i_atime ino) (i_mtime ino) w3 = Done (Errno <$> res) w'
                  /\ traced [(SysUtimes fn (i_atime ino) (i_mtime ino), res)] w3 w'
           else w' = w3).
Proof.
  intros Hl.
  set (w1 := record (SysStat fn) None w).
  set (w2 := record (SysStat fn) None w1).
  set (fi := {| fi_Size := Z.of_nat (length (i_data ino));
                fi_ModTime := i_mtime ino; fi_Atime := i_atime ino |}).
  assert (Hpf : forall k, processFile fn method k w =
            match w_fail w (SysStat fn) with
            | Some e => Exited 1 (record (SysStat fn) (Some e) w)
            | None =>
                match w_fail w1 (SysStat fn) with
                | Some e => Done (EmptyString, Some (Errno e)) (record (SysStat fn) (Some e) w1)
                | None =>
                    (if k then defer (os_Chtimes fn (i_atime ino) (i_mtime ino)) else id)
                      (method_switch fn method fi) w2
                end
            end).
  { intros k. unfold processFile.
    rewrite (bind_Done _ _ _ _ _ (atime_Stat_value fn w ino Hl)).
    destruct (w_fail w (SysStat fn)) as [e|]; [done|]. fold w1.
    rewrite (bind_Done _ _ _ _ _ (os_Stat_value fn w1 ino Hl)).
    destruct (w_fail w1 (SysStat fn)) as [e|]; done. }
  rewrite !Hpf.
  destruct (w_fail w (SysStat fn)) as [e|] eqn:F1; [left; eauto|].
  destruct (w_fail w1 (SysStat fn)) as [e|] eqn:F2; [right; left; eauto|].
  assert (Hc : content w2 fn = Some (i_data ino)) by (unfold content; simpl; now rewrite Hl).
  assert (A2 : accessed fn w w2) by (eapply accessed_trans; apply accessed_record).
  assert (T2 : traced [(SysStat fn, None); (SysStat fn, None)] w w2).
  { split; [done|]. simpl. now rewrite <- app_assoc. }
  destruct (method_switch_cases fn method fi w2 _ Hc)
    as [(code & w3 & E & X)|(r & w3 & evs & E & A & T & U)].
  - left. exists code, w3. split; [|done]. destruct keep; [|done].
    unfold defer. now rewrite E.
  - right. right.
    pose proof (accessed_trans _ _ _ _ A2 A) as A3.
    pose proof (traced_trans _ _ _ _ _ T2 T) as T3. simpl app in T3.
    destruct keep.
    + destruct (os_Chtimes_total fn (i_atime ino) (i_mtime ino) w3) as (res & w' & Ec & Tc).
      exists r, w3, w', evs. split; [unfold defer; now rewrite E, Ec|].
      split; [exact E|]. eauto 10.
    + exists r, w3, w3, evs. split; [exact E|]. split; [exact E|]. done.
Qed.

(** ** The size method (C9) *)

(** C9: on a file whose two stats succeed, [processFile] with [CmpSize]
    returns the decimal string of the content's length, whatever the
    content; the calls it makes are two stats, and the [utimes] of the
    restore when [keepATime] is set: nothing is opened or read, and no
    content changes. *)
Theorem size_fingerprint (w : world) (fn : string) (ino : inode) (keepATime : bool) :
  w_files w !! fn = Some ino ->
  w_fail w (SysStat fn) = None ->
  w_fail (record (SysStat fn) None w) (SysStat fn) = None ->
  exists w',
    processFile fn CmpSize keepATime w
    = Done (strconv_FormatInt (Z.of_nat (length (i_data ino))), None) w'
    /\ (exists tail,
          w_trace w' = w_trace w ++ (SysStat fn, None) :: (SysStat fn, None) :: tail
          /\ if keepATime
             then exists res, tail = [(SysUtimes fn (i_atime ino) (i_mtime ino), res)]
             else tail = [])
    /\ (forall p, content w' p = content w p).
Proof.
  intros Hl F F'. unfold processFile.
  rewrite (bind_Done _ _ _ _ _ (atime_Stat_value fn w ino Hl)). rewrite F.
  set (w1 := record (SysStat fn) None w) in *.
  rewrite (bind_Done _ _ _ _ _ (os_Stat_value fn w1 ino Hl)).
  rewrite F'. cbv zeta.
  set (w2 := record (SysStat fn) None w1).
  unfold method_switch. simpl (CmpSize =? _). cbv iota zeta. cbn [fi_Size fi_ModTime].
  destruct keepATime.
  - unfold defer, mret, proc_ret.
    pose proof (os_Chtimes_retimed fn (i_atime ino) (i_mtime ino) w2) as R.
    destruct (os_Chtimes_total fn (i_atime ino) (i_mtime ino) w2) as (res & w' & Ec & _ & T).
    rewrite Ec in R |- *. simpl in R. exists w'. split; [done|]. split.
    + eexists. split; [|eauto]. rewrite T. simpl. now rewrite <- !app_assoc.
    + intros p. now rewrite (retimed_content _ _ p R).
  - exists w2. split; [done|]. split; [|done].
    exists []. split; [|done]. simpl. now rewrite <- app_assoc.
Qed.

Lemma size_fingerprint_witness :
  exists w',
    processFile "d/c" CmpSize true demo_world = Done ("5"%string, None) w'
    /\ (exists tail,
          w_trace w' = [] ++ (SysStat "d/c", None) :: (SysStat "d/c", None) :: tail
          /\ exists res, tail = [(SysUtimes "d/c" 3000000000 700000000, res)])
    /\ (forall p, content w' p = content demo_world p).
Proof.
  exact (size_fingerprint demo_world "d/c" (file_of "world" 3000000000 700000000) true
           eq_refl eq_refl eq_refl).
Defined.

(** ** Errors while fingerprinting (C4) *)

Lemma processFile_missing_exits fn method keep w :
  w_files w !! fn = None ->
  exists e, processFile fn method keep w = Exited 1 (record (SysStat fn) (Some e) w).
Proof.
  intros Hl. destruct (atime_Stat_missing w fn Hl) as (e & E). exists e.
  unfold processFile. now rewrite (bind_Done _ _ _ _ _ E).
Qed.

Lemma GetChecksum_open_failure_exits fn w e :
  w_fail w (SysOpen fn) = Some e ->
  GetChecksum fn w = Exited 1 (record (SysOpen fn) (Some e) w).
Proof.
  intros F. unfold GetChecksum, os_Open, mbind, proc_bind, sys. now rewrite F.
Qed.

Lemma GetPartialChecksum_open_failure_exits fn w ino e :
  w_files w !! fn = Some ino -> w_fail w (SysStat fn) = None ->
  w_fail w (SysOpen fn) = Some e ->
  GetPartialChecksum fn w
  = Exited 1 (record (SysOpen fn) (Some e) (record (SysStat fn) None w)).
Proof.
  intros Hl F0 F. unfold GetPartialChecksum.
  rewrite (bind_Done _ _ _ _ _ (os_Stat_found _ _ _ F0 Hl)). cbv zeta.
  unfold os_Open, mbind, proc_bind, sys. rewrite w_fail_record_ne by done. now rewrite F.
Qed.

(** C4 fails on the code: a path that does not exist makes [processFile]
    exit the process at its first stat ([log.Fatal]); a file that cannot
    be opened makes [GetChecksum] and [GetPartialChecksum] exit the process;
    only a failed read is returned to the caller as an error. *)
Theorem fingerprint_errors_exit_process :
  (forall method keepATime,
     exit_code (processFile "d/missing" method keepATime demo_world) = Some 1
     /\ w_trace (outcome_world (processFile "d/missing" method keepATime demo_world))
        = [(SysStat "d/missing", Some ENOENT)])
  /\ exit_code (GetChecksum "d/a" (with_fail (fail_on (SysOpen "d/a") EACCES) demo_world))
     = Some 1
  /\ exit_code (GetPartialChecksum "d/a" (with_fail (fail_on (SysOpen "d/a") EACCES) demo_world))
     = Some 1
  /\ exit_code (processFile "d/a" CmpFull true
                  (with_fail (fail_on (SysOpen "d/a") EACCES) demo_world)) = Some 1
  /\ outcome_value (processFile "d/a" CmpFull true
                      (with_fail (fail_on (SysRead "d/a" 0 5) EIO) demo_world))
     = Some (EmptyString, Some (Errno EIO)).
Proof. repeat split; vm_compute; reflexivity. Qed.

(** ** Restoring the times (C5) *)

Lemma accessed_lookup p w w' ino :
  accessed p w w' -> w_files w !! p = Some ino ->
  exists ino', w_files w' !! p = Some ino' /\ i_data ino' = i_data ino
               /\ i_mtime ino' = i_mtime ino /\ i_fs ino' = i_fs ino.
Proof.
  intros ((_ & _ & _ & _ & H) & Hm & _) Hl.
  destruct (H p) as [Hd Hf]. specialize (Hm p). rewrite Hl in Hd, Hf, Hm.
  destruct (w_files w' !! p) as [ino'|]; simpl in *; [|done].
  exists ino'. repeat split; congruence.
Qed.




(** ** The capability probe (C8, C6) *)

Lemma create_temp_cases tries dir pattern w :
  exists r wc, create_temp tries dir pattern w = Done r wc
    /\ w_env wc = w_env w
    /\ (forall c, (forall p, c <> SysCreate p) -> w_fail wc c = w_fail w c)
    /\ w_now wc = w_now w /\ w_dirs wc = w_dirs w
    /\ match r with
       | Fail e => (exists en, e = Errno en) /\ w_files wc = w_files w
       | Val f =>
           exists pol, w_dirs w !! dir = Some pol
                       /\ w_files w !! f_name f = None
                       /\ w_files wc
                          = <[f_name f := Inode [] (w_now w) (w_now w) pol]> (w_files w)
       end.
Proof.
  revert w. induction tries as [|tries IH]; intros w; simpl; unfold sys; simpl;
    change (w_fail (next_rand w)) with (w_fail w).
  - destruct (w_fail w _) as [[]|] eqn:F;
      [eexists _, _; split; [reflexivity|]; split; [reflexivity|];
       (split; [intros c Hc; now rewrite w_fail_record_ne by apply Hc|]); simpl; eauto 10..|].
    destruct (w_dirs w !! dir) as [pol|] eqn:D;
      [|eexists _, _; split; [reflexivity|]; split; [reflexivity|];
        (split; [intros c Hc; now rewrite w_fail_record_ne by apply Hc|]); simpl; eauto 10].
    destruct (w_files w !! _) eqn:L; eexists _, _; (split; [reflexivity|]);
      (split; [reflexivity|]);
      (split; [intros c Hc; now rewrite w_fail_record_ne by apply Hc|]); simpl; eauto 10.
  - assert (forall e, exists r wc,
              create_temp tries dir pattern
                (record (SysCreate (temp_name dir pattern (w_rand w))) (Some e) (next_rand w))
              = Done r wc
              /\ w_env wc = w_env w
              /\ (forall c, (forall p, c <> SysCreate p) -> w_fail wc c = w_fail w c)
              /\ w_now wc = w_now w /\ w_dirs wc = w_dirs w
              /\ match r with
                 | Fail e => (exists en, e = Errno en) /\ w_files wc = w_files w
                 | Val f =>
                     exists pol, w_dirs w !! dir = Some pol
                                 /\ w_files w !! f_name f = None
                                 /\ w_files wc
                                    = <[f_name f := Inode [] (w_now w) (w_now w) pol]> (w_files w)
                 end) as Retry.
    { intros e.
      destruct (IH (record (SysCreate (temp_name dir pattern (w_rand w))) (Some e) (next_rand w)))
        as (r & wc & E & He & Hf & Hn & Hd & Hr).
      exists r, wc. split; [exact E|]. split; [exact He|].
      split; [intros c Hc; rewrite Hf by done; now rewrite w_fail_record_ne by apply Hc|].
      split; [exact Hn|]. split; [exact Hd|exact Hr]. }
    destruct (w_fail w _) as [[]|] eqn:F;
      [try (eexists _, _; split; [reflexivity|]; split; [reflexivity|];
            (split; [intros c Hc; now rewrite w_fail_record_ne by apply Hc|]);
            simpl; eauto 10; fail); apply Retry..|].
    destruct (w_dirs w !! dir) as [pol|] eqn:D;
      [|eexists _, _; split; [reflexivity|]; split; [reflexivity|];
        (split; [intros c Hc; now rewrite w_fail_record_ne by apply Hc|]); simpl; eauto 10].
    destruct (w_files w !! _) eqn:L; [apply Retry|].
    eexists _, _; (split; [reflexivity|]); (split; [reflexivity|]);
      (split; [intros c Hc; now rewrite w_fail_record_ne by apply Hc|]); simpl; eauto 10.
Qed.

(** What [TestKeepAtime] returns, from what its three calls return. *)
Lemma TestKeepAtime_outcome fn w :
  exists b err w', TestKeepAtime fn w = Done (b, err) w' /\
    exists r wc, os_CreateTemp (filepath_Dir fn) "fcompare" w = Done r wc /\
      match r with
      | Fail e => b = false /\ err = Some e /\ w' = wc
      | Val f =>
          exists pol, w_dirs w !! filepath_Dir fn = Some pol /\
          exists eu wu, os_Chtimes (f_name f) sentinel sentinel wc = Done eu wu /\
            match eu with
            | Some e => b = false /\ err = Some e
                        /\ exists en, e = Errno en
                                      /\ w_fail w (SysUtimes (f_name f) sentinel sentinel) = Some en
            | None =>
                exists rs ws, atime_Stat (f_name f) wu = Done rs ws /\
                  match rs with
                  | Fail e => b = false /\ err = Some e
                              /\ exists en, e = Errno en
                                            /\ w_fail w (SysStat (f_name f)) = Some en
                  | Val t => err = None
                             /\ t = store_time pol (w_now w) sentinel
                             /\ b = bool_decide (time_Unix t = time_Unix sentinel)
                  end
            end
      end.
Proof.
  unfold TestKeepAtime, os_CreateTemp. cbv zeta. fold sentinel.
  destruct (create_temp_cases (Z.to_nat 9999) (filepath_Dir fn) "fcompare" w)
    as (r & wc & Ec & Fe & Ff & Fn & Fd & Hr).
  rewrite (bind_Done _ _ _ _ _ Ec).
  destruct r as [f|e];
    [|exists false, (Some e), wc; split; [reflexivity|]; exists (Fail e), wc; done].
  destruct Hr as (pol & D & Lnone & Hfiles).
  rewrite (bind_Done (file_Close f) _ wc tt wc eq_refl).
  assert (Lc : w_files wc !! f_name f = Some (Inode [] (w_now w) (w_now w) pol))
    by (rewrite Hfiles; apply lookup_insert_eq).
  pose proof (os_Chtimes_value (f_name f) sentinel sentinel wc _ Lc) as Eu.
  rewrite Ff in Eu by done. unfold defer. cbn [i_data i_atime i_mtime i_fs] in Eu.
  destruct (w_fail w (SysUtimes (f_name f) sentinel sentinel)) as [en|] eqn:Fu;
    rewrite (bind_Done _ _ _ _ _ Eu).
  { destruct (sys_total (SysUnlink (f_name f))
                (fun w => match w_files w !! f_name f with
                          | None => inl ENOENT
                          | Some _ => inr (tt, set_files (delete (f_name f) (w_files w)) w)
                          end)
                (record (SysUtimes (f_name f) sentinel sentinel) (Some en) wc)) as (rr & wr & Er).
    unfold mret at 1, proc_ret at 1. unfold os_Remove. rewrite (bind_Done _ _ _ _ _ Er).
    exists false, (Some (Errno en)), wr. split; [reflexivity|].
    exists (Val f), wc. split; [done|]. exists pol. split; [done|].
    eexists _, _. split; [exact Eu|]. simpl. eauto 10. }
  set (inou := Inode [] (store_time pol (w_now w) sentinel)
                        (store_time pol (w_now w) sentinel) pol) in *.
  set (wu := record _ None (set_files _ wc)) in *.
  assert (Lu : w_files wu !! f_name f = Some inou) by apply lookup_insert_eq.
  pose proof (atime_Stat_value (f_name f) wu inou Lu) as Es.
  assert (Fs' : w_fail wu (SysStat (f_name f)) = w_fail w (SysStat (f_name f))).
  { unfold wu. rewrite w_fail_record_ne by discriminate.
    transitivity (w_fail wc (SysStat (f_name f))); [reflexivity|].
    apply Ff. intros p. discriminate. }
  rewrite Fs' in Es.
  set (ws := record (SysStat (f_name f)) _ wu) in *.
  destruct (sys_total (SysUnlink (f_name f))
              (fun w => match w_files w !! f_name f with
                        | None => inl ENOENT
                        | Some _ => inr (tt, set_files (delete (f_name f) (w_files w)) w)
                        end) ws) as (rr & wr & Er).
  destruct (w_fail w (SysStat (f_name f))) as [en|] eqn:Fs;
    rewrite (bind_Done _ _ _ _ _ Es).
  { unfold mret at 1, proc_ret at 1. unfold os_Remove. rewrite (bind_Done _ _ _ _ _ Er).
    exists false, (Some (Errno en)), wr. split; [reflexivity|].
    exists (Val f), wc. split; [done|]. exists pol. split; [done|].
    eexists _, _. split; [exact Eu|]. eexists _, _. split; [exact Es|]. simpl. eauto 10. }
  change (i_atime inou) with (store_time pol (w_now w) sentinel) in *.
  exists (bool_decide (time_Unix (store_time pol (w_now w) sentinel) = time_Unix sentinel)),
    None, wr.
  split.
  { destruct (Z.eqb_spec (time_Unix sentinel) (time_Unix (store_time pol (w_now w) sentinel)))
      as [Heq|Hne]; cbn [negb]; unfold mret at 1, proc_ret at 1; cbv beta iota;
      unfold os_Remove;
      rewrite (bind_Done _ _ _ _ _ Er).
    - rewrite bool_decide_eq_true_2 by done. reflexivity.
    - rewrite bool_decide_eq_false_2 by congruence. reflexivity. }
  exists (Val f), wc. split; [done|]. exists pol. split; [done|].
  eexists _, _. split; [exact Eu|]. eexists _, _. split; [exact Es|]. done.
Qed.

(** The probe never reports capable together with an error. *)
Lemma probe_fails_closed fn w :
  exists b err w', TestKeepAtime fn w = Done (b, err) w' /\ (b = true -> err = None).
Proof.
  destruct (TestKeepAtime_outcome fn w) as (b & err & w' & E & r & wc & Ec & H).
  exists b, err, w'. split; [exact E|]. intros ->.
  destruct r as [f|e0]; [|by destruct H].
  destruct H as (pol & D & [e1|] & wu & Eu & H); [by destruct H|].
  destruct H as ([t|e1] & ws & Es & H); by destruct H.
Qed.

(** C8: [TestKeepAtime] always returns.  It returns an error only when
    creating the temporary file, setting its times or statting it failed,
    the error being that call's, and then with [false]; when the three
    calls succeed the error is nil and the result is [true] exactly when
    the access time read back equals, in whole seconds, the sentinel
    946684800 (2000-01-01 00:00:00 UTC): a time that differs gives
    [false] with a nil error. *)
Theorem probe_incapable_is_not_an_error (fn : string) (w : world) :
  exists b err w', TestKeepAtime fn w = Done (b, err) w' /\
    (forall e, err = Some e ->
       b = false /\
       ((exists wc, os_CreateTemp (filepath_Dir fn) "fcompare" w = Done (Fail e) wc)
        \/ (exists f wc en,
              os_CreateTemp (filepath_Dir fn) "fcompare" w = Done (Val f) wc
              /\ e = Errno en
              /\ (w_fail w (SysUtimes (f_name f) sentinel sentinel) = Some en
                  \/ w_fail w (SysStat (f_name f)) = Some en)))) /\
    (err = None ->
       exists f wc wu t ws,
         os_CreateTemp (filepath_Dir fn) "fcompare" w = Done (Val f) wc
         /\ os_Chtimes (f_name f) sentinel sentinel wc = Done None wu
         /\ atime_Stat (f_name f) wu = Done (Val t) ws
         /\ b = bool_decide (time_Unix t = 946684800)).
Proof.
  destruct (TestKeepAtime_outcome fn w) as (b & err & w' & E & r & wc & Ec & H).
  exists b, err, w'. split; [exact E|].
  destruct r as [f|e0].
  - destruct H as (pol & D & eu & wu & Eu & H). destruct eu as [e1|].
    + destruct H as (-> & -> & en & -> & F). split; [|done].
      intros e [= <-]. split; [done|]. right. eauto 10.
    + destruct H as (rs & ws & Es & H). destruct rs as [t|e1].
      * destruct H as (-> & -> & ->). split; [done|]. intros _.
        exists f, wc, wu. eauto 10.
      * destruct H as (-> & -> & en & -> & F). split; [|done].
        intros e [= <-]. split; [done|]. right. eauto 10.
  - destruct H as (-> & -> & ->). split; [|done].
    intros e [= <-]. split; [done|]. left. eauto.
Qed.

(** C6 as stated fails: with [checkKeepAtime] set and [keepATime] not, on a
    file system that ignores [utimes], the call still aborts. *)
Lemma check_aborts_without_keepATime :
  ~ aborts_iff_requested_and_incapable ["d/a"%string] CmpSize false
      (with_dirs {["d"%string := Ignored]} demo_world).
Proof.
  intros [H _]. destruct H as [[=] _].
  exists (errors_New "can't keep atime"). vm_compute. reflexivity.
Qed.

(** C6, amended: with [checkKeepAtime] set, [TestKeepAtime] is run on the
    first path and returns; when it reports not capable, with or without an
    error of its own, [CompareFiles] returns that error, or "can't keep
    atime", and no grouping, in the state the probe left, whether or not
    [keepATime] was set; when it reports capable, [CompareFiles] goes on
    from that state as it does without the check. *)
Theorem check_aborts_when_probe_not_capable
    (fn0 : string) (rest : list string) (method : CompareMethod) (keepATime : bool) (w : world) :
  exists canKeep perr w1,
    TestKeepAtime fn0 w = Done (canKeep, perr) w1
    /\ (canKeep = false ->
        CompareFiles (fn0 :: rest) method keepATime true w
        = Done ([], Some (default (errors_New "can't keep atime") perr)) w1)
    /\ (canKeep = true ->
        perr = None
        /\ CompareFiles (fn0 :: rest) method keepATime true w
           = CompareFiles (fn0 :: rest) method keepATime false w1).
Proof.
  destruct (probe_fails_closed fn0 w) as (b & err & w1 & E & Hb).
  exists b, err, w1. split; [exact E|].
  unfold CompareFiles. rewrite (bind_Done _ _ _ _ _ E).
  split; intros ->.
  - destruct err; reflexivity.
  - rewrite (Hb eq_refl). done.
Qed.

(** ** Grouping indices by fingerprint *)

Section Grouping.
Local Open Scope nat_scope.

Lemma filter_ext_elem {A} (P Q : A -> Prop) `{DP : !forall x, Decision (P x)}
    `{DQ : !forall x, Decision (Q x)} (l : list A) :
  (forall x, x ∈ l -> P x <-> Q x) -> filter P l = filter Q l.
Proof.
  induction l as [|a l IH]; intros Hext; [done|].
  rewrite !filter_cons. rewrite IH by (intros x Hx; apply Hext; now right).
  destruct (decide (P a)) as [HP|HP], (decide (Q a)) as [HQ|HQ]; try done.
  - exfalso. apply HQ, Hext; [left|done].
  - exfalso. apply HP, Hext; [left|done].
Qed.

Lemma group_of_snoc done s key :
  group_of (done ++ [s]) key
  = group_of done key ++ (if decide (s = key) then [length done] else []).
Proof.
  unfold group_of. rewrite length_app. simpl. rewrite Nat.add_1_r, seq_S, filter_app.
  f_equal.
  - apply filter_ext_elem. intros i Hi. apply elem_of_seq in Hi.
    rewrite lookup_app_l by lia. done.
  - simpl. rewrite filter_cons, filter_nil.
    rewrite list_lookup_middle by done.
    destruct (decide (Some s = Some key)) as [[= ->]|Hne].
    + now rewrite decide_True.
    + rewrite decide_False; [done|congruence].
Qed.

Lemma elem_of_group_of fps key i : i ∈ group_of fps key <-> fps !! i = Some key.
Proof.
  unfold group_of. rewrite list_elem_of_filter, elem_of_seq. split; [tauto|].
  intros H. split; [done|]. apply lookup_lt_Some in H. lia.
Qed.

Lemma StronglySorted_filter_lt (P : nat -> Prop) `{!forall x, Decision (P x)} l :
  StronglySorted lt l -> StronglySorted lt (filter P l).
Proof.
  induction 1 as [|a l Hs IH Ha]; [constructor|].
  rewrite filter_cons. destruct (decide (P a)); [|done].
  constructor; [done|]. rewrite Forall_forall in *. intros x Hx.
  apply list_elem_of_filter in Hx as [_ Hx]. auto.
Qed.

Lemma StronglySorted_seq j n : StronglySorted lt (seq j n).
Proof.
  revert j. induction n as [|n IH]; intros j; simpl; constructor; [apply IH|].
  apply Forall_forall. intros x Hx. apply elem_of_seq in Hx. lia.
Qed.

Lemma group_of_sorted fps key : StronglySorted lt (group_of fps key).
Proof. apply StronglySorted_filter_lt, StronglySorted_seq. Qed.

(** Each key of the map holds exactly the indices seen with that
    fingerprint, and no key holds an empty list. *)
Lemma group_fold_lookup fps : forall done fis,
  (forall key, fis !! key = nonempty (group_of done key)) ->
  forall key, group_fold fps (length done) fis !! key = nonempty (group_of (done ++ fps) key).
Proof.
  induction fps as [|s fps IH]; intros done fis Hinv key; simpl.
  - now rewrite app_nil_r.
  - replace (done ++ s :: fps) with ((done ++ [s]) ++ fps) by now rewrite <- app_assoc.
    replace (S (length done)) with (length (done ++ [s])) by (rewrite length_app; simpl; lia).
    apply IH. clear key. intros key. rewrite group_of_snoc.
    destruct (decide (s = key)) as [->|Hne].
    + rewrite lookup_insert_eq, Hinv.
      destruct (group_of done key); reflexivity.
    + rewrite lookup_insert_ne by done. now rewrite app_nil_r.
Qed.

Lemma concat_Permutation {A} (l k : list (list A)) : l ≡ₚ k -> concat l ≡ₚ concat k.
Proof.
  induction 1 as [|x l k _ IH|x y l|l k m _ IH1 _ IH2]; simpl.
  - done.
  - now rewrite IH.
  - rewrite !app_assoc. f_equiv. apply Permutation_app_comm.
  - now rewrite IH1.
Qed.

Lemma group_fold_concat fps : forall i fis,
  concat (range_values (group_fold fps i fis))
  ≡ₚ concat (range_values fis) ++ seq i (length fps).
Proof.
  unfold range_values.
  induction fps as [|s fps IH]; intros i fis; simpl; [now rewrite app_nil_r|].
  rewrite IH. change (i :: seq (S i) (length fps)) with ([i] ++ seq (S i) (length fps)).
  rewrite app_assoc. f_equiv.
  destruct (fis !! s) as [l|] eqn:E; simpl.
  - rewrite <- insert_delete_eq.
    rewrite (concat_Permutation _ _
               (fmap_Permutation snd _ _ (map_to_list_insert _ s (l ++ [i]) (lookup_delete_eq _ _)))).
    rewrite <- (concat_Permutation _ _
                  (fmap_Permutation snd _ _ (map_to_list_delete _ s l E))).
    simpl. rewrite <- !app_assoc. f_equiv. apply Permutation_app_comm.
  - rewrite (concat_Permutation _ _
               (fmap_Permutation snd _ _ (map_to_list_insert _ s [i] E))).
    simpl. apply Permutation_cons_append.
Qed.

(** The groups of a run over files with fingerprints [fps]. *)
Lemma groups_of_fingerprints fps (gs : list (list nat)) :
  gs ≡ₚ range_values (group_fold fps 0 ∅) ->
  concat gs ≡ₚ seq 0 (length fps)
  /\ forall g, g ∈ gs -> g <> [] /\ exists key, g = group_of fps key.
Proof.
  intros Hp. split.
  - rewrite (concat_Permutation _ _ Hp), group_fold_concat.
    unfold range_values. now rewrite map_to_list_empty.
  - intros g Hg. rewrite Hp in Hg. unfold range_values in Hg.
    apply list_elem_of_fmap in Hg as ([key l] & -> & Hg). simpl.
    apply elem_of_map_to_list in Hg.
    rewrite (group_fold_lookup fps [] ∅) in Hg by (intros k; now rewrite lookup_empty).
    simpl in Hg. destruct (group_of fps key) eqn:E; [done|].
    injection Hg as <-. split; [done|]. exists key. now rewrite E.
Qed.

(** In a list of lists without any repeated element overall, a non-empty
    list sits at one position only. *)
Lemma concat_NoDup_position {A} (gs : list (list A)) j1 j2 g x :
  NoDup (concat gs) -> gs !! j1 = Some g -> gs !! j2 = Some g -> x ∈ g -> j1 = j2.
Proof.
  revert j1 j2. induction gs as [|h gs IH]; intros j1 j2 Hnd H1 H2 Hx; [done|].
  simpl in Hnd. apply NoDup_app in Hnd as (_ & Hdis & Hnd).
  assert (forall j, gs !! j = Some g -> h = g -> False) as Hno.
  { intros j Hj ->. apply (Hdis x Hx). apply list_elem_of_In, in_concat.
    exists g. split; apply list_elem_of_In; [|done]. eapply list_elem_of_lookup_2, Hj. }
  destruct j1 as [|j1], j2 as [|j2]; simpl in *; [done| | |f_equal; eauto].
  - injection H1 as <-. exfalso. eauto.
  - injection H2 as <-. exfalso. eauto.
Qed.

End Grouping.

(** ** The fingerprint a successful call returns *)

Lemma method_switch_value fn method fi w data s w' :
  content w fn = Some data -> fi_Size fi = Z.of_nat (length data) ->
  method_switch fn method fi w = Done (s, None) w' ->
  Fingerprint method data = Some s.
Proof.
  intros Hc Hsz. unfold method_switch, Fingerprint.
  destruct (Z.eqb_spec method CmpPartial) as [->|Hp].
  { simpl (CmpPartial =? _). cbv iota. change (16 * MiB) with minPartialChecksumSize.
    unfold mbind, proc_bind.
    destruct (Z.leb_spec (Z.of_nat (length data)) minPartialChecksumSize) as [Hs|Hs].
    - destruct (GetPartialChecksum_small_outcome fn w data Hc Hs) as (w1 & _ & _ & E).
      rewrite E.
      destruct (w_fail w (SysStat fn)); [done|]. destruct (w_fail w (SysOpen fn)); [done|].
      destruct (w_fail w (SysRead _ _ _)); [done|]. now intros [= <- _].
    - destruct (GetPartialChecksum_large_outcome fn w data Hc Hs) as (w1 & _ & _ & E).
      rewrite E.
      destruct (w_fail w (SysStat fn)); [done|]. destruct (w_fail w (SysOpen fn)); [done|].
      destruct (first_failure w _); [done|]. now intros [= <- _]. }
  destruct (Z.eqb_spec method CmpSize) as [->|Hs].
  { cbv zeta. rewrite Hsz. now intros [= <- _]. }
  destruct (Z.eqb_spec method CmpFull) as [->|Hf]; [|done].
  unfold mbind, proc_bind.
  destruct (GetChecksum_outcome fn w data Hc) as (w1 & _ & _ & E). rewrite E.
  destruct (w_fail w (SysOpen fn)); [done|].
  destruct (w_fail w (SysRead _ _ _)); [done|]. now intros [= <- _].
Qed.

Lemma processFile_value fn method keep w s w' :
  processFile fn method keep w = Done (s, None) w' ->
  exists data, content w fn = Some data /\ Fingerprint method data = Some s.
Proof.
  unfold processFile. destruct (w_files w !! fn) as [ino|] eqn:Hl.
  - rewrite (bind_Done _ _ _ _ _ (atime_Stat_value fn w ino Hl)).
    destruct (w_fail w (SysStat fn)) as [e|] eqn:F; [done|].
    set (w1 := record (SysStat fn) None w).
    rewrite (bind_Done _ _ _ _ _ (os_Stat_value fn w1 ino Hl)).
    destruct (w_fail w1 (SysStat fn)) as [e|] eqn:F'; [done|]. cbv zeta.
    set (w2 := record (SysStat fn) None w1). set (fi := {| fi_Size := _ |}).
    assert (Hc : content w2 fn = Some (i_data ino)) by (unfold content; simpl; now rewrite Hl).
    intros H. exists (i_data ino). split; [unfold content; now rewrite Hl|].
    destruct (method_switch fn method fi w2) as [[s0 e0] w3|code w3|msg w3] eqn:E.
    + assert ((s0, e0) = (s, None)) as [= -> ->].
      { destruct keep; [unfold defer in H|unfold id in H]; rewrite E in H;
          [|congruence].
        destruct (os_Chtimes_total fn (i_atime ino) (fi_ModTime fi) w3) as (e & w4 & Ec & _).
        rewrite Ec in H. congruence. }
      exact (method_switch_value fn method fi w2 _ s w3 Hc eq_refl E).
    + destruct keep; [unfold defer in H|unfold id in H]; now rewrite E in H.
    + destruct keep; [unfold defer in H|unfold id in H]; rewrite E in H; [|done].
      destruct (os_Chtimes_total fn (i_atime ino) (fi_ModTime fi) w3) as (e & w4 & Ec & _).
      now rewrite Ec in H.
  - destruct (atime_Stat_missing w fn Hl) as (e & E).
    now rewrite (bind_Done _ _ _ _ _ E).
Qed.

(** ** The loop of [CompareFiles] *)

Lemma compare_loop_app pre post : forall i method keep fis w fis1 w1,
  compare_loop pre i method keep fis w = Done (fis1, None) w1 ->
  compare_loop (pre ++ post) i method keep fis w
  = compare_loop post (i + length pre)%nat method keep fis1 w1.
Proof.
  induction pre as [|fn pre IH]; intros i method keep fis w fis1 w1 H; simpl in *.
  - injection H as <- <-. now rewrite Nat.add_0_r.
  - unfold mbind, proc_bind in *.
    destruct (processFile fn method keep w) as [[s [e|]] w0| |]; try done.
    rewrite (IH _ _ _ _ _ _ _ H). f_equal. lia.
Qed.

Lemma compare_loop_fingerprints fns : forall i method keep fis w fis' w',
  compare_loop fns i method keep fis w = Done (fis', None) w' ->
  exists fps,
    Forall2 (fun fn s => exists data, content w fn = Some data
                                      /\ Fingerprint method data = Some s) fns fps
    /\ fis' = group_fold fps i fis /\ retimed w w'.
Proof.
  induction fns as [|fn fns IH]; intros i method keep fis w fis' w' H; simpl in H.
  - injection H as <- <-. exists []. split; [constructor|]. split; [done|apply retimed_refl].
  - unfold mbind, proc_bind in H.
    destruct (processFile fn method keep w) as [[s [e|]] w0| |] eqn:E; try done.
    pose proof (keeps_Done _ _ _ _ _ (processFile_retimed fn method keep) E) as R.
    destruct (IH _ _ _ _ _ _ _ H) as (fps & HF & -> & R').
    exists (s :: fps). split; [|split; [done|eapply retimed_trans; eauto]].
    constructor; [eapply processFile_value; eauto|].
    eapply Forall2_impl; [exact HF|]. simpl. intros fn' s' (data & Hc & Hf).
    exists data. split; [|done]. now rewrite <- (retimed_content _ _ fn' R).
Qed.

Lemma CompareFiles_success fns method keep check w gs w' :
  CompareFiles fns method keep check w = Done (gs, None) w' ->
  exists w0 fis, enters_loop check fns w w0
    /\ compare_loop fns 0 method keep ∅ w0 = Done (fis, None) w'
    /\ gs = range_values fis.
Proof.
  assert (forall w0, compare_body fns method keep w0 = Done (gs, None) w' ->
            exists fis, compare_loop fns 0 method keep ∅ w0 = Done (fis, None) w'
                        /\ gs = range_values fis) as Hbody.
  { intros w0. unfold compare_body, mbind, proc_bind.
    destruct (compare_loop fns 0 method keep ∅ w0) as [[fis [e|]] w1| |]; try done.
    intros [= <- <-]. eauto. }
  unfold CompareFiles, enters_loop. destruct check.
  - destruct fns as [|fn0 rest]; [done|]. unfold mbind, proc_bind.
    destruct (TestKeepAtime fn0 w) as [[b [e|]] w0| |] eqn:E; try done.
    destruct b; [|done]. simpl negb. cbv iota. intros H.
    destruct (Hbody w0 H) as (fis & ? & ?). exists w0, fis. eauto 10.
  - intros H. destruct (Hbody w H) as (fis & ? & ?). exists w, fis. eauto.
Qed.

(** ** Stop on the first error (C7) *)

Lemma enters_loop_prefix check pre fn post w w0 :
  enters_loop check (pre ++ fn :: post) w w0 -> enters_loop check (pre ++ [fn]) w w0.
Proof.
  unfold enters_loop. destruct check; [|done].
  intros (fn0 & rest & Heq & E). destruct pre as [|p pre]; simpl in *;
    injection Heq as <- <-; eauto.
Qed.

Lemma CompareFiles_from_loop fns method keep check w w0 :
  enters_loop check fns w w0 ->
  CompareFiles fns method keep check w = compare_body fns method keep w0.
Proof.
  unfold enters_loop, CompareFiles. destruct check; [|now intros ->].
  intros (fn0 & rest & -> & E). now rewrite (bind_Done _ _ _ _ _ E).
Qed.

(** C7: when the files before [fn] were fingerprinted without error and
    [processFile] returns an error for [fn], [CompareFiles] returns that
    error with no grouping, in the state that call left: nothing is done
    for the files after [fn], and the result is the one for the list cut
    after [fn]. *)
Theorem CompareFiles_stops_at_first_error
    (pre : list string) (fn : string) (post : list string) (method : CompareMethod)
    (keepATime checkKeepAtime : bool) (w w0 w1 w2 : world)
    (fis : gmap string (list nat)) (s : string) (e : error) :
  enters_loop checkKeepAtime (pre ++ fn :: post) w w0 ->
  compare_loop pre 0 method keepATime ∅ w0 = Done (fis, None) w1 ->
  processFile fn method keepATime w1 = Done (s, Some e) w2 ->
  CompareFiles (pre ++ fn :: post) method keepATime checkKeepAtime w = Done ([], Some e) w2
  /\ CompareFiles (pre ++ [fn]) method keepATime checkKeepAtime w = Done ([], Some e) w2.
Proof.
  intros Hin Hpre Hfn.
  assert (forall rest, compare_body (pre ++ fn :: rest) method keepATime w0
                       = Done ([], Some e) w2) as Hbody.
  { intros rest. unfold compare_body.
    rewrite (bind_Done _ _ _ (fis, Some e) w2); [reflexivity|].
    rewrite (compare_loop_app _ _ _ _ _ _ _ _ _ Hpre). simpl.
    now rewrite (bind_Done _ _ _ _ _ Hfn). }
  split.
  - rewrite (CompareFiles_from_loop _ _ _ _ _ _ Hin). apply Hbody.
  - rewrite (CompareFiles_from_loop _ _ _ _ _ _ (enters_loop_prefix _ _ _ _ _ _ Hin)).
    apply Hbody.
Qed.

Lemma CompareFiles_stops_at_first_error_witness :
  exists w2,
    CompareFiles ["d/a"; "d/b"; "d/c"]%string CmpFull true true
      (with_fail (fail_on (SysRead "d/b" 0 5) EIO) demo_world)
    = Done ([], Some (Errno EIO)) w2
    /\ CompareFiles ["d/a"; "d/b"]%string CmpFull true true
         (with_fail (fail_on (SysRead "d/b" 0 5) EIO) demo_world)
       = Done ([], Some (Errno EIO)) w2.
Proof.
  eexists.
  eapply (CompareFiles_stops_at_first_error ["d/a"%string] "d/b" ["d/c"%string] CmpFull
            true true (with_fail (fail_on (SysRead "d/b" 0 5) EIO) demo_world)).
  - simpl. eexists _, _. split; [reflexivity|]. vm_compute. reflexivity.
  - vm_compute. reflexivity.
  - vm_compute. reflexivity.
Defined.

(** ** The grouping is a partition (C3) *)

Lemma fingerprint_at_run fns fps method w0 w' :
  Forall2 (fun fn s => exists data, content w0 fn = Some data
                                    /\ Fingerprint method data = Some s) fns fps ->
  retimed w0 w' ->
  forall i s, fps !! i = Some s -> fingerprint_at method w' fns i = Some s.
Proof.
  intros HF R i s Hs.
  destruct (Forall2_lookup_r _ _ _ _ _ HF Hs) as (fn & Hfn & data & Hc & Hf).
  unfold fingerprint_at. rewrite Hfn. simpl.
  rewrite (retimed_content _ _ fn R), Hc. simpl. exact Hf.
Qed.

(** C3: when [CompareFiles] returns without error, its groups, in whatever
    order the map is iterated, partition the indices [0 .. n-1]: together
    they hold every index once, so that every index is in one group at one
    position; no group is empty; the indices of a group are in increasing
    (input) order and their files have the same fingerprint under the
    method; and files in groups at different positions have different
    fingerprints. *)
Theorem CompareFiles_groups_partition
    (fns : list string) (method : CompareMethod) (keepATime checkKeepAtime : bool)
    (w w' : world) (gs : list (list nat)) :
  CompareFiles fns method keepATime checkKeepAtime w = Done (gs, None) w' ->
  forall gs', gs' ≡ₚ gs ->
    concat gs' ≡ₚ seq 0 (length fns)
    /\ (forall i, (i < length fns)%nat ->
          exists j g, gs' !! j = Some g /\ i ∈ g
                      /\ forall j' g', gs' !! j' = Some g' -> i ∈ g' -> j' = j)
    /\ (forall g, g ∈ gs' ->
          g <> [] /\ StronglySorted lt g
          /\ exists key, forall i, i ∈ g -> fingerprint_at method w' fns i = Some key)
    /\ (forall j1 j2 g1 g2 i1 i2,
          j1 <> j2 -> gs' !! j1 = Some g1 -> gs' !! j2 = Some g2 -> i1 ∈ g1 -> i2 ∈ g2 ->
          fingerprint_at method w' fns i1 <> fingerprint_at method w' fns i2).
Proof.
  intros H gs' Hp.
  destruct (CompareFiles_success _ _ _ _ _ _ _ H) as (w0 & fis & _ & Hloop & ->).
  destruct (compare_loop_fingerprints _ _ _ _ _ _ _ _ Hloop) as (fps & HF & -> & R).
  pose proof (fingerprint_at_run _ _ _ _ _ HF R) as Hfp.
  destruct (groups_of_fingerprints fps gs' Hp) as (Hcat & Hgr).
  rewrite <- (Forall2_length _ _ _ HF) in Hcat.
  assert (Hnd : NoDup (concat gs')) by (rewrite Hcat; apply NoDup_seq).
  assert (Hkey : forall g i, g ∈ gs' -> i ∈ g ->
            exists key, g = group_of fps key /\ fps !! i = Some key).
  { intros g i Hg Hi. destruct (Hgr g Hg) as (_ & key & ->).
    exists key. split; [done|]. now apply elem_of_group_of. }
  assert (Hsame : forall j1 j2 g1 g2 i1 i2,
            gs' !! j1 = Some g1 -> gs' !! j2 = Some g2 -> i1 ∈ g1 -> i2 ∈ g2 ->
            fingerprint_at method w' fns i1 = fingerprint_at method w' fns i2 -> j1 = j2).
  { intros j1 j2 g1 g2 i1 i2 H1 H2 I1 I2 Heq.
    destruct (Hkey g1 i1 (list_elem_of_lookup_2 _ _ _ H1) I1) as (k1 & -> & F1).
    destruct (Hkey g2 i2 (list_elem_of_lookup_2 _ _ _ H2) I2) as (k2 & -> & F2).
    rewrite (Hfp _ _ F1), (Hfp _ _ F2) in Heq. injection Heq as <-.
    eapply concat_NoDup_position; eauto. }
  split; [exact Hcat|]. split; [|split].
  - intros i Hi.
    assert (i ∈ concat gs') as Hin by (rewrite Hcat; apply elem_of_seq; lia).
    apply list_elem_of_In, in_concat in Hin as (g & Hg & Hig).
    apply list_elem_of_In in Hg, Hig.
    apply list_elem_of_lookup in Hg as (j & Hj).
    exists j, g. split; [done|]. split; [done|].
    intros j' g' Hj' Hig'. eapply Hsame; eauto.
  - intros g Hg. destruct (Hgr g Hg) as (Hne & key & ->).
    split; [done|]. split; [apply group_of_sorted|].
    exists key. intros i Hi. apply Hfp. now apply elem_of_group_of.
  - intros j1 j2 g1 g2 i1 i2 Hne H1 H2 I1 I2 Heq. apply Hne. eapply Hsame; eauto.
Qed.

Lemma CompareFiles_groups_partition_witness :
  exists gs w',
    CompareFiles ["d/a"; "d/b"; "d/c"]%string CmpFull true true demo_world = Done (gs, None) w'
    /\ concat gs ≡ₚ seq 0 3
    /\ (forall g, g ∈ gs ->
          g <> [] /\ StronglySorted lt g
          /\ exists key, forall i, i ∈ g ->
               fingerprint_at CmpFull w' ["d/a"; "d/b"; "d/c"]%string i = Some key).
Proof.
  eexists _, _. split; [vm_compute; reflexivity|].
  match goal with
  | |- context [fingerprint_at _ ?w' _ _] =>
      destruct (CompareFiles_groups_partition ["d/a"; "d/b"; "d/c"]%string CmpFull true true
                  demo_world w' _ ltac:(vm_compute; reflexivity) _ (Permutation_refl _))
        as (H1 & _ & H3 & _)
  end.
  split; [exact H1|exact H3].
Defined.

(** * Further properties of the package *)

(** ** The shape of a fingerprint *)

Lemma be_bytes_length n z : length (SHA256.be_bytes n z) = n.
Proof. induction n as [|n IH]; simpl; [done|now rewrite IH]. Qed.

Lemma sha256_sum_length msg : length (SHA256.sum msg) = 32%nat.
Proof.
  unfold SHA256.sum. cbv zeta. set (s := fold_left _ _ _). clearbody s.
  cbn [map concat]. rewrite !length_app, !be_bytes_length. reflexivity.
Qed.

Lemma hex_length bs : String.length (hex_EncodeToString bs) = (2 * length bs)%nat.
Proof.
  induction bs as [|b bs IH]; [done|].
  change (hex_EncodeToString (b :: bs))
    with (String (hex_digit (SHA256.Z_of_byte b / 16))
            (String (hex_digit (SHA256.Z_of_byte b mod 16)) (hex_EncodeToString bs))).
  simpl String.length. rewrite IH. simpl. lia.
Qed.

Lemma hex_lower bs :
  Forall (fun c => is_lower_hex c = true) (list_ascii_of_string (hex_EncodeToString bs)).
Proof.
  induction bs as [|b bs IH]; [constructor|].
  change (hex_EncodeToString (b :: bs))
    with (String (hex_digit (SHA256.Z_of_byte b / 16))
            (String (hex_digit (SHA256.Z_of_byte b mod 16)) (hex_EncodeToString bs))).
  simpl list_ascii_of_string.
  constructor; [|constructor; [|exact IH]]; destruct b; reflexivity.
Qed.

Lemma sha256_hex_shape data :
  String.length (sha256_hex data) = 64%nat
  /\ Forall (fun c => is_lower_hex c = true) (list_ascii_of_string (sha256_hex data)).
Proof.
  unfold sha256_hex. split; [|apply hex_lower].
  rewrite hex_length, sha256_sum_length. reflexivity.
Qed.

(** X1: whenever [processFile] returns a fingerprint under [CmpFull] or
    [CmpPartial], it is a string of 64 characters, each one of
    [0123456789abcdef]. *)
Theorem checksum_fingerprint_shape
    (fn : string) (method : CompareMethod) (keepATime : bool) (w w' : world) (s : string) :
  processFile fn method keepATime w = Done (s, None) w' ->
  method = CmpFull \/ method = CmpPartial ->
  String.length s = 64%nat
  /\ Forall (fun c => is_lower_hex c = true) (list_ascii_of_string s).
Proof.
  intros H Hm. destruct (processFile_value _ _ _ _ _ _ H) as (data & _ & Hf).
  unfold Fingerprint in Hf. destruct Hm as [-> | ->]; simpl in Hf.
  - injection Hf as <-. apply sha256_hex_shape.
  - destruct (_ <=? _); injection Hf as <-; apply sha256_hex_shape.
Qed.

Lemma checksum_fingerprint_shape_witness :
  exists s w',
    processFile "d/a" CmpPartial true demo_world = Done (s, None) w'
    /\ String.length s = 64%nat
    /\ Forall (fun c => is_lower_hex c = true) (list_ascii_of_string s).
Proof.
  eexists _, _. split; [vm_compute; reflexivity|].
  eapply (checksum_fingerprint_shape "d/a" CmpPartial true demo_world);
    [vm_compute; reflexivity|now right].
Defined.

(** ** An unknown method *)

(** X2: with a method other than the three named ones, [processFile] on a file
    whose two stats succeed exits the process after these stats: nothing is
    opened or read, no fingerprint is returned, and the deferred restore of
    the times is not run even with [keepATime]. *)
Theorem unknown_method_exits
    (fn : string) (method : CompareMethod) (keepATime : bool) (w : world) (ino : inode) :
  method <> CmpSize -> method <> CmpPartial -> method <> CmpFull ->
  w_files w !! fn = Some ino -> w_fail w (SysStat fn) = None ->
  w_fail (record (SysStat fn) None w) (SysStat fn) = None ->
  processFile fn method keepATime w
  = Exited 1 (record (SysStat fn) None (record (SysStat fn) None w))
  /\ forall rest,
       CompareFiles (fn :: rest) method keepATime false w
       = Exited 1 (record (SysStat fn) None (record (SysStat fn) None w)).
Proof.
  intros Hs Hp Hf Hl F F'.
  assert (E : processFile fn method keepATime w
              = Exited 1 (record (SysStat fn) None (record (SysStat fn) None w))).
  { unfold processFile.
    rewrite (bind_Done _ _ _ _ _ (atime_Stat_value fn w ino Hl)). rewrite F.
    set (w1 := record (SysStat fn) None w) in *.
    rewrite (bind_Done _ _ _ _ _ (os_Stat_value fn w1 ino Hl)).
    rewrite F'. cbv zeta.
    unfold method_switch.
    destruct (Z.eqb_spec method CmpPartial); [done|].
    destruct (Z.eqb_spec method CmpSize); [done|].
    destruct (Z.eqb_spec method CmpFull); [done|].
    now destruct keepATime. }
  split; [exact E|].
  intros rest. unfold CompareFiles, compare_body. simpl compare_loop.
  now rewrite (bind_Exited _ _ _ _ _ (bind_Exited _ _ _ _ _ E)).
Qed.

Lemma unknown_method_exits_witness :
  processFile "d/a" 7 true demo_world
  = Exited 1 (record (SysStat "d/a") None (record (SysStat "d/a") None demo_world))
  /\ forall rest,
       CompareFiles ("d/a"%string :: rest) 7 true false demo_world
       = Exited 1 (record (SysStat "d/a") None (record (SysStat "d/a") None demo_world)).
Proof.
  apply (unknown_method_exits "d/a" 7 true demo_world (file_of "hello" 1000000000 900000000));
    (discriminate || reflexivity).
Defined.

(** ** What a run leaves alone *)

#[global] Instance untouched_outside_frame paths : Frame (untouched_outside paths).
Proof.
  split.
  - intros w. split; [apply retimed_refl|done].
  - intros a b c [R1 U1] [R2 U2]. split; [eapply retimed_trans; eauto|].
    intros q Hq. rewrite U2 by done. now apply U1.
  - intros c r w. split; [apply retimed_record|done].
Qed.

Lemma accessed_untouched p paths w w' :
  p ∈ paths -> accessed p w w' -> untouched_outside paths w w'.
Proof.
  intros Hp (R & _ & U). split; [exact R|].
  intros q Hq. apply U. intros ->. contradiction.
Qed.

Lemma os_Chtimes_untouched p paths a m :
  p ∈ paths -> keeps (untouched_outside paths) (os_Chtimes p a m).
Proof.
  intros Hp. unfold os_Chtimes. frame_step; [|frame_step].
  apply keeps_sys; [apply _|]; intros w [] w' H.
  split; [eapply utimes_retimed; exact H|].
  destruct (w_files w !! p) as [ino|]; [|done]. injection H as <-.
  intros q Hq. simpl. apply lookup_insert_ne. intros ->. contradiction.
Qed.

Lemma processFile_untouched fn paths method keep :
  fn ∈ paths -> keeps (untouched_outside paths) (processFile fn method keep).
Proof.
  intros Hp. unfold processFile. cbv zeta.
  frame_step; [eapply keeps_weaken; [intros ? ?; apply (accessed_untouched fn _ _ _ Hp)|apply atime_Stat_accessed]|].
  destruct a as [atime|e]; [|frame_step].
  frame_step; [eapply keeps_weaken; [intros ? ?; apply (accessed_untouched fn _ _ _ Hp)|apply os_Stat_accessed]|].
  destruct a as [fi|e]; [|frame_step].
  assert (keeps (untouched_outside paths) (method_switch fn method fi)) as Hbody.
  { eapply keeps_weaken; [intros ? ?; apply (accessed_untouched fn _ _ _ Hp)|apply method_switch_accessed]. }
  destruct keep; [|exact Hbody].
  frame_step; [now apply os_Chtimes_untouched|exact Hbody].
Qed.

Lemma compare_loop_untouched fns : forall paths i method keep fis,
  (forall fn, fn ∈ fns -> fn ∈ paths) ->
  keeps (untouched_outside paths) (compare_loop fns i method keep fis).
Proof.
  induction fns as [|fn fns IH]; intros paths i method keep fis Hsub; simpl.
  - frame_step.
  - frame_step; [apply processFile_untouched, Hsub; left|].
    destruct a as [s [e|]]; [frame_step|].
    apply IH. intros fn' Hfn'. apply Hsub. now right.
Qed.

(** X3: without the capability check, [CompareFiles] changes nothing but time
    stamps, and those of the listed files only, however it ends (return,
    error or exit): every path holds the same content as before, so no file
    is created, removed or rewritten, and a file that is not in the list is
    exactly as it was. *)
Theorem CompareFiles_touches_only_listed_times
    (fns : list string) (method : CompareMethod) (keepATime : bool) (w : world) :
  let w' := outcome_world (CompareFiles fns method keepATime false w) in
  (forall q, content w' q = content w q)
  /\ (forall q, is_Some (w_files w' !! q) <-> is_Some (w_files w !! q))
  /\ (forall q, q ∉ fns -> w_files w' !! q = w_files w !! q).
Proof.
  assert (keeps (untouched_outside fns) (CompareFiles fns method keepATime false)) as K.
  { unfold CompareFiles, compare_body.
    frame_step; [now apply compare_loop_untouched|].
    destruct a as [fis [e|]]; frame_step. }
  destruct (K w) as [R U]. cbv zeta. split; [|split].
  - intros q. now apply retimed_content.
  - intros q. pose proof (retimed_content _ _ q R) as Hc. unfold content in Hc.
    destruct (w_files _ !! q), (w_files w !! q); simpl in Hc; done.
  - exact U.
Qed.

Lemma CompareFiles_touches_only_listed_times_witness :
  w_files (outcome_world (CompareFiles ["d/a"; "d/b"]%string CmpFull false false demo_world))
    !! "d/c"%string
  = w_files demo_world !! "d/c"%string.
Proof.
  apply (CompareFiles_touches_only_listed_times ["d/a"; "d/b"]%string CmpFull false demo_world).
  intros H. apply list_elem_of_In in H. simpl in H.
  destruct H as [H|[H|[]]]; discriminate H.
Defined.

(** ** What the probe leaves behind *)

Lemma os_Remove_value p w ino :
  w_files w !! p = Some ino ->
  os_Remove p w =
  match w_fail w (SysUnlink p) with
  | Some e => Done (Some (Errno e)) (record (SysUnlink p) (Some e) w)
  | None => Done None (record (SysUnlink p) None (set_files (delete p (w_files w)) w))
  end.
Proof.
  intros Hl. unfold os_Remove, mbind, proc_bind, sys. rewrite Hl.
  now destruct (w_fail w _).
Qed.

Lemma TestKeepAtime_files fn w :
  w_files (outcome_world (TestKeepAtime fn w)) = w_files w
  \/ exists name ino e,
       w_files w !! name = None /\ w_fail w (SysUnlink name) = Some e
       /\ w_files (outcome_world (TestKeepAtime fn w)) = <[name := ino]> (w_files w).
Proof.
  unfold TestKeepAtime, os_CreateTemp. cbv zeta. fold sentinel.
  destruct (create_temp_cases (Z.to_nat 9999) (filepath_Dir fn) "fcompare" w)
    as (r & wc & Ec & Fe & Ff & Fn & Fd & Hr).
  rewrite (bind_Done _ _ _ _ _ Ec).
  destruct r as [f|e]; [|left; simpl; by destruct Hr as (_ & ->)].
  destruct Hr as (pol & D & Lnone & Hfiles).
  rewrite (bind_Done (file_Close f) _ wc tt wc eq_refl).
  lazymatch goal with
  | |- context [defer (os_Remove _) ?b wc] => set (body := b)
  end.
  assert (Fc : w_fail wc (SysUnlink (f_name f)) = w_fail w (SysUnlink (f_name f)))
    by (apply Ff; intros p; discriminate).
  assert (exists v wb ix, body wc = Done v wb
            /\ w_files wb = <[f_name f := ix]> (w_files w)
            /\ w_fail wb (SysUnlink (f_name f)) = w_fail w (SysUnlink (f_name f)))
    as (v & wb & ix & Eb & Hb & Fb).
  { subst body.
    assert (Lc : w_files wc !! f_name f = Some (Inode [] (w_now w) (w_now w) pol))
      by (rewrite Hfiles; apply lookup_insert_eq).
    pose proof (os_Chtimes_value (f_name f) sentinel sentinel wc _ Lc) as Eu.
    cbn [i_data i_atime i_mtime i_fs] in Eu.
    destruct (w_fail wc (SysUtimes (f_name f) sentinel sentinel)) as [en|];
      rewrite (bind_Done _ _ _ _ _ Eu).
    { eexists _, _, _; split; [reflexivity|]. split; [exact Hfiles|].
      now rewrite w_fail_record_ne by discriminate. }
    set (inou := Inode [] (store_time pol (w_now w) sentinel)
                          (store_time pol (w_now w) sentinel) pol) in *.
    set (wu := record _ None (set_files _ wc)) in *.
    assert (Lu : w_files wu !! f_name f = Some inou) by apply lookup_insert_eq.
    assert (Hu : w_files wu = <[f_name f := inou]> (w_files w))
      by (simpl; rewrite Hfiles; apply insert_insert_eq).
    assert (Fu : forall r0, w_fail (record (SysStat (f_name f)) r0 wu) (SysUnlink (f_name f))
                           = w_fail w (SysUnlink (f_name f))).
    { intros r0. unfold wu. rewrite !w_fail_record_ne by discriminate. exact Fc. }
    pose proof (atime_Stat_value (f_name f) wu inou Lu) as Es.
    rewrite (bind_Done _ _ _ _ _ Es).
    destruct (w_fail wu (SysStat (f_name f)));
      [eexists _, _, _; split; [reflexivity|]; split; [exact Hu|apply Fu]|].
    destruct (negb _); eexists _, _, _; (split; [reflexivity|]);
      (split; [exact Hu|apply Fu]). }
  assert (Lb : w_files wb !! f_name f = Some ix) by (rewrite Hb; apply lookup_insert_eq).
  unfold defer. rewrite Eb, (os_Remove_value _ _ _ Lb), Fb.
  destruct (w_fail w (SysUnlink (f_name f))) as [e|] eqn:Fr; simpl.
  - right. exists (f_name f), ix, e. done.
  - left. rewrite Hb. now apply delete_insert_id.
Qed.

(** X4: [TestKeepAtime] never alters a file that exists, however it ends; and
    when the environment does not fail the removal of the temporary file,
    the files afterwards are exactly the files before: the temporary file
    is gone on every way out. *)
Theorem probe_leaves_no_file (fn : string) (w : world) :
  let w' := outcome_world (TestKeepAtime fn w) in
  (forall p ino, w_files w !! p = Some ino -> w_files w' !! p = Some ino)
  /\ ((forall p, w_fail w (SysUnlink p) = None) -> w_files w' = w_files w).
Proof.
  cbv zeta. destruct (TestKeepAtime_files fn w) as [E|(name & ino & e & Hn & Fr & E)];
    rewrite E; split; try done.
  - intros p i Hp. rewrite lookup_insert_ne; [done|]. intros ->. congruence.
  - intros H. rewrite H in Fr. done.
Qed.

Lemma probe_leaves_no_file_witness :
  w_files (outcome_world (TestKeepAtime "d/a" demo_world)) = w_files demo_world.
Proof.
  apply (probe_leaves_no_file "d/a" demo_world). intros p. reflexivity.
Defined.

(** ** The probe and the file system *)

Lemma create_temp_first tries dir pattern w pol :
  w_fail w (SysCreate (temp_name dir pattern (w_rand w))) = None ->
  w_dirs w !! dir = Some pol ->
  w_files w !! temp_name dir pattern (w_rand w) = None ->
  exists wc, create_temp tries dir pattern w
             = Done (Val {| f_name := temp_name dir pattern (w_rand w); f_off := 0 |}) wc.
Proof.
  intros F D L. destruct tries; simpl; unfold sys; simpl;
    change (w_fail (next_rand w)) with (w_fail w); rewrite F, D, L; eauto.
Qed.

Lemma create_temp_no_directory tries dir pattern w :
  w_fail w (SysCreate (temp_name dir pattern (w_rand w))) = None ->
  w_dirs w !! dir = None ->
  exists wc, create_temp tries dir pattern w = Done (Fail (Errno ENOENT)) wc.
Proof.
  intros F D. destruct tries; simpl; unfold sys; simpl;
    change (w_fail (next_rand w)) with (w_fail w); rewrite F, D; eauto.
Qed.

(** X5: when the environment fails no call and the first temporary name is
    free, [TestKeepAtime] answers from what the file system of the
    directory does with the times it is given: it reports capable exactly
    when the sentinel comes back to the second.  So it reports capable on a
    file system that stores the times, and not capable, without error, on
    one that ignores them (the clock not reading the sentinel second). *)
Theorem probe_follows_file_system (fn : string) (w : world) (pol : utimes_policy) :
  (forall c, w_fail w c = None) ->
  w_dirs w !! filepath_Dir fn = Some pol ->
  w_files w !! temp_name (filepath_Dir fn) "fcompare" (w_rand w) = None ->
  outcome_value (TestKeepAtime fn w)
  = Some (bool_decide (time_Unix (store_time pol (w_now w) sentinel) = 946684800), None)
  /\ (pol = Honoured -> outcome_value (TestKeepAtime fn w) = Some (true, None))
  /\ (pol = Ignored -> time_Unix (w_now w) <> 946684800 ->
      outcome_value (TestKeepAtime fn w) = Some (false, None)).
Proof.
  intros Hok D L.
  assert (outcome_value (TestKeepAtime fn w)
          = Some (bool_decide (time_Unix (store_time pol (w_now w) sentinel) = 946684800),
                  None)) as E.
  { destruct (TestKeepAtime_outcome fn w) as (b & err & w' & E & r & wc & Ec & H).
    rewrite E. simpl.
    destruct (create_temp_first (Z.to_nat 9999) _ "fcompare" w pol (Hok _) D L) as (wc' & Ec').
    unfold os_CreateTemp in Ec. rewrite Ec' in Ec. injection Ec as <- <-.
    destruct H as (pol' & D' & eu & wu & Eu & H). rewrite D in D'. injection D' as <-.
    destruct eu as [e|].
    { destruct H as (_ & _ & en & _ & F). rewrite Hok in F; discriminate F. }
    destruct H as ([t|e] & ws & Es & H).
    - destruct H as (-> & -> & ->). reflexivity.
    - destruct H as (_ & _ & en & _ & F). rewrite Hok in F; discriminate F. }
  split; [exact E|]. rewrite E. split; intros ->; simpl.
  - reflexivity.
  - intros Hne. now rewrite bool_decide_eq_false_2.
Qed.

Lemma probe_follows_file_system_witness :
  outcome_value (TestKeepAtime "d/a" demo_world) = Some (true, None)
  /\ outcome_value (TestKeepAtime "d/a" (with_dirs {["d"%string := Ignored]} demo_world))
     = Some (false, None).
Proof.
  split.
  - apply (probe_follows_file_system "d/a" demo_world Honoured);
      [intros c; reflexivity | vm_compute; reflexivity.. ].
  - apply (probe_follows_file_system "d/a"
             (with_dirs {["d"%string := Ignored]} demo_world) Ignored);
      [intros c; reflexivity | vm_compute; reflexivity | vm_compute; reflexivity
      | reflexivity | vm_compute; discriminate].
Defined.

(** X6: when the directory of the path does not exist, [TestKeepAtime] returns
    [false] with the error of the failed creation, and [CompareFiles] with
    the check returns that error and no grouping, before any file is
    fingerprinted. *)
Theorem probe_without_directory
    (fn0 : string) (rest : list string) (method : CompareMethod) (keepATime : bool) (w : world) :
  w_fail w (SysCreate (temp_name (filepath_Dir fn0) "fcompare" (w_rand w))) = None ->
  w_dirs w !! filepath_Dir fn0 = None ->
  outcome_value (TestKeepAtime fn0 w) = Some (false, Some (Errno ENOENT))
  /\ outcome_value (CompareFiles (fn0 :: rest) method keepATime true w)
     = Some ([], Some (Errno ENOENT))
  /\ outcome_world (CompareFiles (fn0 :: rest) method keepATime true w)
     = outcome_world (TestKeepAtime fn0 w).
Proof.
  intros F D.
  destruct (TestKeepAtime_outcome fn0 w) as (b & err & w' & E & r & wc & Ec & H).
  destruct (create_temp_no_directory (Z.to_nat 9999) _ "fcompare" w F D) as (wc' & Ec').
  unfold os_CreateTemp in Ec. rewrite Ec' in Ec. injection Ec as <- <-.
  destruct H as (-> & -> & ->).
  unfold CompareFiles. rewrite (bind_Done _ _ _ _ _ E), E. done.
Qed.

Lemma probe_without_directory_witness :
  outcome_value (TestKeepAtime "nowhere/x" demo_world) = Some (false, Some (Errno ENOENT))
  /\ outcome_value (CompareFiles ["nowhere/x"; "d/a"]%string CmpFull true true demo_world)
     = Some ([], Some (Errno ENOENT))
  /\ outcome_world (CompareFiles ["nowhere/x"; "d/a"]%string CmpFull true true demo_world)
     = outcome_world (TestKeepAtime "nowhere/x" demo_world).
Proof.
  apply (probe_without_directory "nowhere/x" ["d/a"%string] CmpFull true demo_world);
    reflexivity.
Defined.

(** ** Which files share a group *)

Lemma strconv_FormatInt_inj a b : strconv_FormatInt a = strconv_FormatInt b -> a = b.
Proof.
  unfold strconv_FormatInt. intros H.
  assert (forall z, DecimalString.NilZero.int_of_string
                      (DecimalString.NilZero.string_of_int (Z.to_int z))
                    = Some (Z.to_int z)) as Hrt.
  { intros z. apply DecimalString.NilZero.isi; destruct z; simpl; try discriminate;
      intros [= E]; now apply DecimalPos.Unsigned.to_uint_nonnil in E. }
  pose proof (Hrt a) as Ha. rewrite H, Hrt in Ha. injection Ha as Ha.
  rewrite <- (DecimalZ.of_to a), <- (DecimalZ.of_to b). now f_equal.
Qed.

Lemma CompareFiles_groups_core fns method keep check w gs w' :
  CompareFiles fns method keep check w = Done (gs, None) w' ->
  exists fps,
    length fps = length fns
    /\ (forall i s, fps !! i = Some s -> fingerprint_at method w' fns i = Some s)
    /\ concat gs ≡ₚ seq 0 (length fns)
    /\ forall g, g ∈ gs -> g <> [] /\ exists key, g = group_of fps key.
Proof.
  intros H.
  destruct (CompareFiles_success _ _ _ _ _ _ _ H) as (w0 & fis & _ & Hloop & ->).
  destruct (compare_loop_fingerprints _ _ _ _ _ _ _ _ Hloop) as (fps & HF & -> & R).
  exists fps. split; [symmetry; exact (Forall2_length _ _ _ HF)|].
  split; [exact (fingerprint_at_run _ _ _ _ _ HF R)|].
  destruct (groups_of_fingerprints fps _ (Permutation_refl _)) as (Hcat & Hgr).
  rewrite <- (Forall2_length _ _ _ HF) in Hcat. done.
Qed.

Lemma same_group_iff_same_fingerprint_core fns method keep check w gs w' i j :
  CompareFiles fns method keep check w = Done (gs, None) w' ->
  (i < length fns)%nat -> (j < length fns)%nat ->
  (exists g, g ∈ gs /\ i ∈ g /\ j ∈ g)
  <-> fingerprint_at method w' fns i = fingerprint_at method w' fns j.
Proof.
  intros H Hi Hj.
  destruct (CompareFiles_groups_core _ _ _ _ _ _ _ H) as (fps & Hlen & Hfp & Hcat & Hgr).
  destruct (lookup_lt_is_Some_2 fps i ltac:(lia)) as [si Hsi].
  destruct (lookup_lt_is_Some_2 fps j ltac:(lia)) as [sj Hsj].
  rewrite (Hfp _ _ Hsi), (Hfp _ _ Hsj). split.
  - intros (g & Hg & Ii & Ij). destruct (Hgr g Hg) as (_ & key & ->).
    apply elem_of_group_of in Ii, Ij. congruence.
  - intros [= <-].
    assert (i ∈ concat gs) as Hin by (rewrite Hcat; apply elem_of_seq; lia).
    apply list_elem_of_In, in_concat in Hin as (g & Hg & Ii).
    apply list_elem_of_In in Hg, Ii. exists g. split; [done|]. split; [done|].
    destruct (Hgr g Hg) as (_ & key & ->).
    apply elem_of_group_of in Ii. apply elem_of_group_of. congruence.
Qed.

(** X7: when [CompareFiles] returns without error, two indices are in a common
    group exactly when their files have the same fingerprint under the
    method. *)
Theorem same_group_iff_same_fingerprint
    (fns : list string) (method : CompareMethod) (keepATime checkKeepAtime : bool)
    (w w' : world) (gs : list (list nat)) (i j : nat) :
  CompareFiles fns method keepATime checkKeepAtime w = Done (gs, None) w' ->
  (i < length fns)%nat -> (j < length fns)%nat ->
  (exists g, g ∈ gs /\ i ∈ g /\ j ∈ g)
  <-> fingerprint_at method w' fns i = fingerprint_at method w' fns j.
Proof. apply same_group_iff_same_fingerprint_core. Qed.

Lemma same_group_iff_same_fingerprint_witness :
  exists gs w',
    CompareFiles ["d/a"; "d/b"; "d/c"]%string CmpFull true true demo_world = Done (gs, None) w'
    /\ ((exists g, g ∈ gs /\ 0%nat ∈ g /\ 1%nat ∈ g)
        <-> fingerprint_at CmpFull w' ["d/a"; "d/b"; "d/c"]%string 0
            = fingerprint_at CmpFull w' ["d/a"; "d/b"; "d/c"]%string 1).
Proof.
  eexists _, _. split; [vm_compute; reflexivity|].
  apply (same_group_iff_same_fingerprint ["d/a"; "d/b"; "d/c"]%string CmpFull true true
           demo_world); [vm_compute; reflexivity|simpl; lia..].
Defined.

(** X8: files with the same content always share a group, under every
    method. *)
Theorem identical_files_share_a_group
    (fns : list string) (method : CompareMethod) (keepATime checkKeepAtime : bool)
    (w w' : world) (gs : list (list nat)) (i j : nat) (fi fj : string) :
  CompareFiles fns method keepATime checkKeepAtime w = Done (gs, None) w' ->
  fns !! i = Some fi -> fns !! j = Some fj ->
  content w' fi = content w' fj ->
  exists g, g ∈ gs /\ i ∈ g /\ j ∈ g.
Proof.
  intros H Hi Hj Hc.
  destruct (CompareFiles_groups_core _ _ _ _ _ _ _ H) as (fps & Hlen & Hfp & Hcat & Hgr).
  pose proof (lookup_lt_Some _ _ _ Hi) as Li. pose proof (lookup_lt_Some _ _ _ Hj) as Lj.
  destruct (lookup_lt_is_Some_2 fps i ltac:(lia)) as [si Hsi].
  destruct (lookup_lt_is_Some_2 fps j ltac:(lia)) as [sj Hsj].
  pose proof (Hfp _ _ Hsi) as Fi. pose proof (Hfp _ _ Hsj) as Fj.
  assert (si = sj) as <-.
  { unfold fingerprint_at in Fi, Fj. rewrite Hi in Fi. rewrite Hj in Fj. simpl in Fi, Fj.
    rewrite Hc in Fi. congruence. }
  assert (i ∈ concat gs) as Hin by (rewrite Hcat; apply elem_of_seq; lia).
  apply list_elem_of_In, in_concat in Hin as (g & Hg & Ii).
  apply list_elem_of_In in Hg, Ii. exists g. split; [done|]. split; [done|].
  destruct (Hgr g Hg) as (_ & key & ->).
  apply elem_of_group_of in Ii. apply elem_of_group_of. congruence.
Qed.

Lemma identical_files_share_a_group_witness :
  exists gs w',
    CompareFiles ["d/a"; "d/b"; "d/c"]%string CmpPartial true false demo_world
    = Done (gs, None) w'
    /\ exists g, g ∈ gs /\ 0%nat ∈ g /\ 1%nat ∈ g.
Proof.
  eexists _, _. split; [vm_compute; reflexivity|].
  eapply (identical_files_share_a_group ["d/a"; "d/b"; "d/c"]%string CmpPartial true false
            demo_world _ _ 0 1 "d/a" "d/b");
    [vm_compute; reflexivity | reflexivity | reflexivity | vm_compute; reflexivity].
Defined.

(** X9: under [CmpSize], two files share a group exactly when they have the
    same length. *)
Theorem size_groups_are_equal_lengths
    (fns : list string) (keepATime checkKeepAtime : bool)
    (w w' : world) (gs : list (list nat)) (i j : nat) (fi fj : string) :
  CompareFiles fns CmpSize keepATime checkKeepAtime w = Done (gs, None) w' ->
  fns !! i = Some fi -> fns !! j = Some fj ->
  (exists g, g ∈ gs /\ i ∈ g /\ j ∈ g) <-> file_size w' fi = file_size w' fj.
Proof.
  intros H Hi Hj.
  pose proof (lookup_lt_Some _ _ _ Hi) as Li. pose proof (lookup_lt_Some _ _ _ Hj) as Lj.
  rewrite (same_group_iff_same_fingerprint_core _ _ _ _ _ _ _ i j H Li Lj).
  destruct (CompareFiles_groups_core _ _ _ _ _ _ _ H) as (fps & Hlen & Hfp & _).
  destruct (lookup_lt_is_Some_2 fps i ltac:(lia)) as [si Hsi].
  destruct (lookup_lt_is_Some_2 fps j ltac:(lia)) as [sj Hsj].
  pose proof (Hfp _ _ Hsi) as Fi. pose proof (Hfp _ _ Hsj) as Fj.
  rewrite Fi, Fj. unfold fingerprint_at in Fi, Fj. rewrite Hi in Fi. rewrite Hj in Fj.
  simpl in Fi, Fj.
  destruct (content w' fi) as [di|] eqn:Ci; [|done].
  destruct (content w' fj) as [dj|] eqn:Cj; [|done].
  rewrite (content_size _ _ _ Ci), (content_size _ _ _ Cj).
  simpl in Fi, Fj. injection Fi as <-. injection Fj as <-. split.
  - intros [= E]. now apply strconv_FormatInt_inj.
  - now intros ->.
Qed.

Lemma size_groups_are_equal_lengths_witness :
  exists gs w',
    CompareFiles ["d/a"; "d/b"; "d/c"]%string CmpSize false false demo_world
    = Done (gs, None) w'
    /\ ((exists g, g ∈ gs /\ 0%nat ∈ g /\ 2%nat ∈ g)
        <-> file_size w' "d/a" = file_size w' "d/c").
Proof.
  eexists _, _. split; [vm_compute; reflexivity|].
  apply (size_groups_are_equal_lengths ["d/a"; "d/b"; "d/c"]%string false false demo_world);
    [vm_compute; reflexivity | reflexivity | reflexivity].
Defined.

(** ** The windows of the partial checksum *)

(** X10: on a file above 16 MiB, when the environment fails no call, the
    calls [GetPartialChecksum] makes are a stat, an open, and three reads of
    1 MiB each: at offset 0, then, after a seek, at the middle offset the
    code computes with truncating division, then, after a seek from the end,
    at 1 MiB before the end; no other byte of the file is read.  The middle
    offset is a multiple of 1 MiB and at least 8 MiB, and the middle window
    ends no later than the last one starts: the three windows are in order
    and do not overlap. *)
Theorem partial_windows_never_overlap (w : world) (fn : string) (data : list byte) :
  content w fn = Some data ->
  minPartialChecksumSize < Z.of_nat (length data) ->
  (forall c, w_fail w c = None) ->
  let size := Z.of_nat (length data) in
  let filemid := Z.quot size 2 - Z.rem (Z.quot size 2) (1024 * 1024) in
  (exists d w',
     GetPartialChecksum fn w = Done (d, false, None) w'
     /\ w_trace w' = w_trace w ++
          [(SysStat fn, None); (SysOpen fn, None);
           (SysRead fn 0 (1024 * 1024), None);
           (SysSeek fn filemid SeekStart, None);
           (SysRead fn filemid (1024 * 1024), None);
           (SysSeek fn (- 1024 * 1024) SeekEnd, None);
           (SysRead fn (size - 1024 * 1024) (1024 * 1024), None)])
  /\ filemid mod (1024 * 1024) = 0
  /\ 8 * 1024 * 1024 <= filemid
  /\ filemid + 1024 * 1024 <= size - 1024 * 1024.
Proof.
  intros Hc Hsz Hok size filemid. subst filemid.
  rewrite (filemid_is_partial_mid size) by lia.
  destruct (partial_mid_bounds size Hsz) as (M1 & M2 & M3).
  destruct (partial_mid_between size Hsz) as (M4 & M5).
  assert (HM : MiB = 1048576 /\ minPartialChecksumSize = 16777216) by done.
  change (1024 * 1024) with MiB. change (- 1024 * 1024) with (- MiB).
  split; [|repeat split; [exact M3|lia|lia]].
  destruct (GetPartialChecksum_large_run fn w data Hc Hsz) as (w' & _ & T & _ & E).
  fold size in T, E. unfold partial_calls in T, E. cbn [run_calls first_failure] in T, E.
  rewrite !Hok in T, E. eexists _, w'. split; [exact E|apply T].
Qed.

Lemma partial_windows_never_overlap_witness :
  exists d w',
    GetPartialChecksum "d/big" big_world = Done (d, false, None) w'
    /\ w_trace w' =
       [(SysStat "d/big", None); (SysOpen "d/big", None);
        (SysRead "d/big" 0 1048576, None);
        (SysSeek "d/big" 8388608 SeekStart, None);
        (SysRead "d/big" 8388608 1048576, None);
        (SysSeek "d/big" (-1048576) SeekEnd, None);
        (SysRead "d/big" 15728641 1048576, None)].
Proof.
  assert (Hlen : Z.of_nat (length big_data) = 16777217).
  { unfold big_data. rewrite length_replicate. lia. }
  pose proof (partial_windows_never_overlap big_world "d/big" big_data eq_refl
                ltac:(rewrite Hlen; unfold minPartialChecksumSize; lia)
                (fun c => eq_refl)) as H.
  cbv zeta in H. rewrite Hlen in H. destruct H as ((d & w' & E & T) & _).
  exists d, w'. split; [exact E|]. rewrite T. reflexivity.
Defined.

Lemma slice_insert_outside (data : list byte) (k : nat) (b : byte) off len :
  0 <= off -> 0 <= len ->
  Z.of_nat k < off \/ off + len <= Z.of_nat k ->
  slice (<[k := b]> data) off len = slice data off len.
Proof.
  intros Ho Hl [Hk|Hk]; unfold slice.
  - now rewrite drop_insert_lt by lia.
  - rewrite drop_insert_ge by lia. now rewrite take_insert_ge by lia.
Qed.

Lemma first_failure_none w calls :
  (forall c, w_fail w c = None) -> first_failure w calls = None.
Proof. intros H. induction calls as [|c cs IH]; simpl; [done|now rewrite H]. Qed.

(** X11: the partial checksum does not see a byte outside the three windows: for
    a file above 16 MiB, changing the byte at an offset between the first
    and the middle window, or between the middle and the last one, leaves
    the fingerprint [GetPartialChecksum] returns unchanged. *)
Theorem partial_checksum_blind_outside_windows
    (w1 w2 : world) (fn : string) (data : list byte) (k : nat) (b : byte) :
  content w1 fn = Some data ->
  content w2 fn = Some (<[k := b]> data) ->
  minPartialChecksumSize < Z.of_nat (length data) ->
  (forall c, w_fail w1 c = None) -> (forall c, w_fail w2 c = None) ->
  let size := Z.of_nat (length data) in
  1024 * 1024 <= Z.of_nat k < partial_mid size
  \/ partial_mid size + 1024 * 1024 <= Z.of_nat k < size - 1024 * 1024 ->
  outcome_value (GetPartialChecksum fn w2) = outcome_value (GetPartialChecksum fn w1)
  /\ exists d, outcome_value (GetPartialChecksum fn w1) = Some (d, false, None).
Proof.
  intros C1 C2 Hsz F1 F2 size Hk.
  assert (Hlen : length (<[k := b]> data) = length data) by apply length_insert.
  destruct (GetPartialChecksum_large_outcome fn w1 data C1 Hsz) as (v1 & _ & _ & E1).
  destruct (GetPartialChecksum_large_outcome fn w2 _ C2 ltac:(rewrite Hlen; exact Hsz))
    as (v2 & _ & _ & E2).
  rewrite E1, E2, !F1, !F2, !first_failure_none by done. simpl.
  split; [|eauto].
  destruct (partial_mid_bounds size Hsz) as (M1 & M2 & _).
  assert (HM : MiB = 1048576 /\ minPartialChecksumSize = 16777216) by done.
  change (1024 * 1024) with MiB in Hk.
  do 3 f_equal. unfold partial_windows. rewrite Hlen. fold size.
  rewrite !slice_insert_outside by lia. reflexivity.
Qed.

Lemma partial_checksum_blind_outside_windows_witness :
  outcome_value (GetPartialChecksum "d/big" big_world_changed)
  = outcome_value (GetPartialChecksum "d/big" big_world)
  /\ exists d, outcome_value (GetPartialChecksum "d/big" big_world) = Some (d, false, None).
Proof.
  assert (Hlen : Z.of_nat (length big_data) = 16 * 1024 * 1024 + 1).
  { unfold big_data. rewrite length_replicate. lia. }
  apply (partial_checksum_blind_outside_windows big_world big_world_changed "d/big"
           big_data (Z.to_nat (2 * 1024 * 1024)) x01);
    [reflexivity | reflexivity | rewrite Hlen; unfold minPartialChecksumSize; lia
    | intros c; reflexivity | intros c; reflexivity |].
  cbv zeta. rewrite Hlen. left. rewrite Z2Nat.id by lia.
  unfold partial_mid, MiB. split; [lia|]. vm_compute. reflexivity.
Defined.

(** ** A run that leaves no trace on the files *)

Lemma processFile_restores fn method w :
  restorable w ->
  w_files (outcome_world (processFile fn method true w)) = w_files w.
Proof.
  intros [Hon Hut]. destruct (w_files w !! fn) as [ino|] eqn:Hl.
  - destruct (processFile_cases fn method true w ino Hl)
      as [(code & w' & E & X)|[(e & F1 & F2 & E)
          |(r & w3 & w' & evs & E & E0 & A & T & _ & res & Ec & Tc)]];
      rewrite E; simpl; [done|done|].
    destruct (accessed_lookup _ _ _ _ A Hl) as (ino3 & Hl3 & D3 & M3 & P3).
    rewrite (os_Chtimes_value _ _ _ _ _ Hl3) in Ec.
    assert (F : w_fail w3 (SysUtimes fn (i_atime ino) (i_mtime ino)) = None)
      by (unfold w_fail; rewrite (accessed_env _ _ _ A); apply Hut).
    rewrite F in Ec. injection Ec as _ <-. simpl. rewrite P3, (Hon _ _ Hl), D3. simpl.
    apply map_eq. intros q. destruct (decide (q = fn)) as [->|Hq].
    + rewrite lookup_insert_eq, Hl. f_equal. destruct ino as [d a m f]. simpl.
      f_equal. exact (eq_sym (Hon _ _ Hl)).
    + rewrite lookup_insert_ne by done. destruct A as (_ & _ & U). now apply U.
  - destruct (processFile_missing_exits fn method true w Hl) as (e & E). now rewrite E.
Qed.

Lemma compare_loop_restores fns method : forall i fis w,
  restorable w ->
  w_files (outcome_world (compare_loop fns i method true fis w)) = w_files w.
Proof.
  induction fns as [|fn fns IH]; intros i fis w Hr; simpl; [done|].
  pose proof (processFile_restores fn method w Hr) as Hf.
  pose proof (processFile_retimed fn method true w) as R.
  unfold mbind, proc_bind.
  destruct (processFile fn method true w) as [[s [e|]] w1| |]; simpl in *; try done.
  rewrite IH; [done|]. destruct Hr as [Hon Hut]. split.
  - intros p ino. rewrite Hf. apply Hon.
  - intros p a m k. destruct R as (-> & _). apply Hut.
Qed.

(** X12: with [keepATime], on file systems that store the times they are given
    and with no [utimes] failing, [CompareFiles] (without the check) leaves
    every file exactly as it found it, content, access time and
    modification time, however it ends. *)
Theorem CompareFiles_leaves_files_as_found
    (fns : list string) (method : CompareMethod) (w : world) :
  restorable w ->
  w_files (outcome_world (CompareFiles fns method true false w)) = w_files w.
Proof.
  intros Hr. pose proof (compare_loop_restores fns method 0 ∅ w Hr) as H.
  unfold CompareFiles, compare_body, mbind, proc_bind.
  destruct (compare_loop fns 0 method true ∅ w) as [[fis [e|]] w1| |]; exact H.
Qed.

Lemma CompareFiles_leaves_files_as_found_witness :
  w_files (outcome_world (CompareFiles ["d/a"; "d/b"; "d/c"]%string CmpFull true false
                            demo_world))
  = w_files demo_world.
Proof.
  apply (CompareFiles_leaves_files_as_found ["d/a"; "d/b"; "d/c"]%string CmpFull demo_world).
  split; [|intros p a m k; reflexivity].
  intros p ino H. unfold demo_world in H. simpl in H.
  repeat (apply lookup_insert_Some in H as [[_ <-]|[_ H]]; [reflexivity|]).
  now rewrite lookup_empty in H.
Defined.

(** * Properties of the command *)

Example msfile_compare_demo :
  Msfile.main (compare_flags "partial") ["d/a"; "d/b"]%string demo_world
  = ([Msfile.Text "Files are the same"],
     snd (Msfile.main (compare_flags "partial") ["d/a"; "d/b"]%string demo_world))
  /\ fst (Msfile.main (compare_flags "full") ["d/a"; "d/c"]%string demo_world)
     = [Msfile.Text "Files are different"]
  /\ fst (Msfile.main info_flags ["d/c"]%string demo_world)
     = [Msfile.Json {| Msfile.Filename := "d/c"; Msfile.Size := 5; Msfile.Atime := 3;
                       Msfile.Mtime := 0; Msfile.PartialChecksum := "";
                       Msfile.FullChecksum := ""; Msfile.Properties := ∅ |}].
Proof. split; [|split]; vm_compute; reflexivity. Qed.

(** ** The per-file record *)

Lemma msfile_compare_switch_accessed par fn fi0 :
  keeps (accessed fn) (Msfile.compare_switch par fn fi0).
Proof.
  unfold Msfile.compare_switch. cbv zeta.
  destruct (Msfile.compare par); [|frame_step].
  destruct (String.eqb _ "partial").
  { frame_step; [apply GetPartialChecksum_accessed|].
    destruct a as [[s b] [e|]]; frame_step. }
  destruct (String.eqb _ "size"); [frame_step|].
  destruct (String.eqb _ "full"); [|frame_step].
  frame_step; [apply GetChecksum_accessed|].
  destruct a as [s [e|]]; frame_step.
Qed.

Lemma msfile_processFile_untouched par fn paths :
  fn ∈ paths -> keeps (untouched_outside paths) (Msfile.processFile par fn).
Proof.
  intros Hp. unfold Msfile.processFile. cbv zeta.
  frame_step; [eapply keeps_weaken;
                 [intros ? ?; apply (accessed_untouched fn _ _ _ Hp)|apply atime_Stat_accessed]|].
  destruct a as [atime|e]; [|frame_step].
  frame_step; [eapply keeps_weaken;
                 [intros ? ?; apply (accessed_untouched fn _ _ _ Hp)|apply os_Stat_accessed]|].
  destruct a as [fi|e]; [|frame_step].
  frame_step; [now apply os_Chtimes_untouched|].
  eapply keeps_weaken; [intros ? ?; apply (accessed_untouched fn _ _ _ Hp)|].
  apply msfile_compare_switch_accessed.
Qed.

Lemma msfile_compare_switch_value par fn fi0 w data inf w' :
  content w fn = Some data ->
  Msfile.compare_switch par fn fi0 w = Done (inf, None) w' ->
  (Msfile.compare par = false /\ inf = fi0)
  \/ (Msfile.compare par = true /\ Msfile.method par = "partial"%string
      /\ exists s, Fingerprint CmpPartial data = Some s
           /\ inf = if Z.of_nat (length data) <=? minPartialChecksumSize
                    then Msfile.set_FullChecksum s (Msfile.set_PartialChecksum s fi0)
                    else Msfile.set_PartialChecksum s fi0)
  \/ (Msfile.compare par = true /\ Msfile.method par = "size"%string /\ inf = fi0)
  \/ (Msfile.compare par = true /\ Msfile.method par = "full"%string
      /\ inf = Msfile.set_FullChecksum (sha256_hex data) fi0).
Proof.
  intros Hc. unfold Msfile.compare_switch.
  destruct (Msfile.compare par); [|intros [= <- _]; now left].
  destruct (String.eqb_spec (Msfile.method par) "partial") as [Hm|_].
  { intros H. right. left. split; [done|]. split; [done|].
    unfold mbind, proc_bind in H. unfold Fingerprint. simpl (CmpPartial =? _). cbv iota.
    change (16 * MiB) with minPartialChecksumSize.
    destruct (Z.leb_spec (Z.of_nat (length data)) minPartialChecksumSize) as [Hs|Hs].
    - destruct (GetPartialChecksum_small_outcome fn w data Hc Hs) as (w1 & _ & _ & E).
      rewrite E in H.
      destruct (w_fail w (SysStat fn)); [done|]. destruct (w_fail w (SysOpen fn)); [done|].
      destruct (w_fail w (SysRead _ _ _)); [done|].
      injection H as <- _. eauto.
    - destruct (GetPartialChecksum_large_outcome fn w data Hc Hs) as (w1 & _ & _ & E).
      rewrite E in H.
      destruct (w_fail w (SysStat fn)); [done|]. destruct (w_fail w (SysOpen fn)); [done|].
      destruct (first_failure w _); [done|].
      injection H as <- _. eauto. }
  destruct (String.eqb_spec (Msfile.method par) "size") as [Hm|_].
  { intros [= <- _]. right. right. now left. }
  destruct (String.eqb_spec (Msfile.method par) "full") as [Hm|_]; [|done].
  intros H. right. right. right. split; [done|]. split; [done|].
  unfold mbind, proc_bind in H.
  destruct (GetChecksum_outcome fn w data Hc) as (w1 & _ & _ & E). rewrite E in H.
  destruct (w_fail w (SysOpen fn)); [done|].
  destruct (w_fail w (SysRead _ _ _)); [done|]. now injection H as <- _.
Qed.

(** Unfolding [processFile] up to the switch, on a file that exists. *)
Lemma msfile_processFile_body par fn w inf w' :
  Msfile.processFile par fn w = Done (inf, None) w' ->
  exists ino w2 wb,
    w_files w !! fn = Some ino /\ content w2 fn = Some (i_data ino)
    /\ Msfile.compare_switch par fn
         {| Msfile.Filename := fn; Msfile.Size := Z.of_nat (length (i_data ino));
            Msfile.Atime := time_Unix (i_atime ino); Msfile.Mtime := time_Unix (i_mtime ino);
            Msfile.PartialChecksum := ""; Msfile.FullChecksum := "";
            Msfile.Properties := ∅ |} w2
       = Done (inf, None) wb.
Proof.
  unfold Msfile.processFile. cbv zeta. destruct (w_files w !! fn) as [ino|] eqn:Hl.
  - rewrite (bind_Done _ _ _ _ _ (atime_Stat_value fn w ino Hl)).
    destruct (w_fail w (SysStat fn)) as [e|] eqn:F; [done|].
    set (w1 := record (SysStat fn) None w).
    rewrite (bind_Done _ _ _ _ _ (os_Stat_value fn w1 ino Hl)).
    destruct (w_fail w1 (SysStat fn)) as [e|] eqn:F'; [done|].
    set (w2 := record (SysStat fn) None w1).
    cbn [fi_Size fi_ModTime Msfile.set_times Msfile.set_Size Msfile.Filename Msfile.Size
         Msfile.Atime Msfile.Mtime Msfile.PartialChecksum Msfile.FullChecksum
         Msfile.Properties].
    intros H. exists ino, w2.
    unfold defer in H.
    destruct (Msfile.compare_switch _ _ _ w2) as [[inf0 e0] wb|c wb|m wb] eqn:E.
    + destruct (os_Chtimes_total fn (i_atime ino) (i_mtime ino) wb) as (e & w4 & Ec & _).
      rewrite Ec in H. injection H as -> -> _. exists wb.
      split; [done|]. split; [unfold content; simpl; now rewrite Hl|done].
    + done.
    + destruct (os_Chtimes_total fn (i_atime ino) (i_mtime ino) wb) as (e & w4 & Ec & _).
      now rewrite Ec in H.
  - destruct (atime_Stat_missing w fn Hl) as (e & E).
    now rewrite (bind_Done _ _ _ _ _ E).
Qed.

Lemma msfile_processFile_record_core
    (par : Msfile.params) (fn : string) (w w' : world) (inf : Msfile.FileInfo) :
  Msfile.processFile par fn w = Done (inf, None) w' ->
  exists ino,
    w_files w !! fn = Some ino
    /\ Msfile.Filename inf = fn
    /\ Msfile.Size inf = Z.of_nat (length (i_data ino))
    /\ Msfile.Atime inf = time_Unix (i_atime ino)
    /\ Msfile.Mtime inf = time_Unix (i_mtime ino)
    /\ Msfile.Properties inf = ∅
    /\ ((Msfile.compare par = false
         /\ Msfile.PartialChecksum inf = EmptyString /\ Msfile.FullChecksum inf = EmptyString)
        \/ (Msfile.compare par = true /\ Msfile.method par = "partial"%string
            /\ Fingerprint CmpPartial (i_data ino) = Some (Msfile.PartialChecksum inf)
            /\ Msfile.FullChecksum inf
               = if Z.of_nat (length (i_data ino)) <=? 16 * 1024 * 1024
                 then Msfile.PartialChecksum inf else EmptyString)
        \/ (Msfile.compare par = true /\ Msfile.method par = "size"%string
            /\ Msfile.PartialChecksum inf = EmptyString
            /\ Msfile.FullChecksum inf = EmptyString)
        \/ (Msfile.compare par = true /\ Msfile.method par = "full"%string
            /\ Msfile.PartialChecksum inf = EmptyString
            /\ Msfile.FullChecksum inf = sha256_hex (i_data ino))).
Proof.
  intros H. destruct (msfile_processFile_body _ _ _ _ _ H) as (ino & w2 & wb & Hl & Hc & E).
  exists ino. split; [exact Hl|].
  destruct (msfile_compare_switch_value _ _ _ _ _ _ _ Hc E)
    as [(Hcmp & ->)|[(Hcmp & Hm & s & Hf & ->)|[(Hcmp & Hm & ->)|(Hcmp & Hm & ->)]]].
  - repeat (split; [reflexivity|]). left. done.
  - change (16 * 1024 * 1024) with minPartialChecksumSize.
    destruct (_ <=? _); repeat (split; [reflexivity|]); right; left; done.
  - repeat (split; [reflexivity|]). right. right. left. done.
  - repeat (split; [reflexivity|]). right. right. right. done.
Qed.

(** X13: whenever the command's [processFile] returns without error, the record
    names the file, gives its length, its access and modification times in
    whole seconds as they were before the call, and no properties; the
    checksums are empty unless files are compared, and then: with "partial"
    the partial checksum is the fingerprint of the partial method and the
    full checksum repeats it for a file of at most 16 MiB and is empty
    above; with "size" both are empty; with "full" the full checksum is the
    hex SHA-256 of the content and the partial one is empty. *)
Theorem msfile_processFile_record
    (par : Msfile.params) (fn : string) (w w' : world) (inf : Msfile.FileInfo) :
  Msfile.processFile par fn w = Done (inf, None) w' ->
  exists ino,
    w_files w !! fn = Some ino
    /\ Msfile.Filename inf = fn
    /\ Msfile.Size inf = Z.of_nat (length (i_data ino))
    /\ Msfile.Atime inf = time_Unix (i_atime ino)
    /\ Msfile.Mtime inf = time_Unix (i_mtime ino)
    /\ Msfile.Properties inf = ∅
    /\ ((Msfile.compare par = false
         /\ Msfile.PartialChecksum inf = EmptyString /\ Msfile.FullChecksum inf = EmptyString)
        \/ (Msfile.compare par = true /\ Msfile.method par = "partial"%string
            /\ Fingerprint CmpPartial (i_data ino) = Some (Msfile.PartialChecksum inf)
            /\ Msfile.FullChecksum inf
               = if Z.of_nat (length (i_data ino)) <=? 16 * 1024 * 1024
                 then Msfile.PartialChecksum inf else EmptyString)
        \/ (Msfile.compare par = true /\ Msfile.method par = "size"%string
            /\ Msfile.PartialChecksum inf = EmptyString
            /\ Msfile.FullChecksum inf = EmptyString)
        \/ (Msfile.compare par = true /\ Msfile.method par = "full"%string
            /\ Msfile.PartialChecksum inf = EmptyString
            /\ Msfile.FullChecksum inf = sha256_hex (i_data ino))).
Proof. apply msfile_processFile_record_core. Qed.

Lemma msfile_processFile_record_witness :
  exists inf w',
    Msfile.processFile (compare_flags "partial") "d/a" demo_world = Done (inf, None) w'
    /\ Msfile.Filename inf = "d/a"%string /\ Msfile.Size inf = 5
    /\ Msfile.FullChecksum inf = Msfile.PartialChecksum inf.
Proof.
  eexists _, _. split; [vm_compute; reflexivity|].
  destruct (msfile_processFile_record (compare_flags "partial") "d/a" demo_world _ _
              ltac:(vm_compute; reflexivity)) as (ino & Hl & H1 & _).
  split; [exact H1|]. split; reflexivity.
Defined.

Lemma retimed_file_size w w' p : retimed w w' -> file_size w' p = file_size w p.
Proof.
  intros R. pose proof (retimed_content _ _ p R) as H. unfold content, file_size in *.
  destruct (w_files w' !! p), (w_files w !! p); simpl in H; try done.
  now injection H as ->.
Qed.

Lemma msfile_processFile_retimed par fn : keeps retimed (Msfile.processFile par fn).
Proof.
  eapply keeps_weaken; [|apply (msfile_processFile_untouched par fn [fn]); left].
  now intros ? ? [? _].
Qed.

(** X14: when files are not compared, or are compared by size, the command's
    [processFile] on a file whose two stats succeed returns its record after
    these stats and the [utimes] of the restore: nothing is opened or read,
    and no content changes. *)
Theorem msfile_processFile_without_reading
    (par : Msfile.params) (fn : string) (w : world) (ino : inode) :
  Msfile.compare par = false \/ Msfile.method par = "size"%string ->
  w_files w !! fn = Some ino -> w_fail w (SysStat fn) = None ->
  w_fail (record (SysStat fn) None w) (SysStat fn) = None ->
  exists w' res,
    Msfile.processFile par fn w
    = Done ({| Msfile.Filename := fn; Msfile.Size := Z.of_nat (length (i_data ino));
               Msfile.Atime := time_Unix (i_atime ino);
               Msfile.Mtime := time_Unix (i_mtime ino);
               Msfile.PartialChecksum := ""; Msfile.FullChecksum := "";
               Msfile.Properties := ∅ |}, None) w'
    /\ w_trace w' = w_trace w ++ [(SysStat fn, None); (SysStat fn, None);
                                  (SysUtimes fn (i_atime ino) (i_mtime ino), res)]
    /\ forall p, content w' p = content w p.
Proof.
  intros Hmode Hl F F'. unfold Msfile.processFile. cbv zeta.
  rewrite (bind_Done _ _ _ _ _ (atime_Stat_value fn w ino Hl)). rewrite F.
  set (w1 := record (SysStat fn) None w) in *.
  rewrite (bind_Done _ _ _ _ _ (os_Stat_value fn w1 ino Hl)).
  rewrite F'.
  set (w2 := record (SysStat fn) None w1).
  unfold Msfile.set_Size, Msfile.set_times.
  cbn [fi_Size fi_ModTime Msfile.Filename Msfile.Size
       Msfile.Atime Msfile.Mtime Msfile.PartialChecksum Msfile.FullChecksum
       Msfile.Properties].
  set (inf := {| Msfile.Filename := fn |}).
  assert (Msfile.compare_switch par fn inf w2 = Done (inf, None) w2) as E.
  { unfold Msfile.compare_switch. destruct (Msfile.compare par); [|done].
    destruct Hmode as [Hf|Hm]; [done|]. rewrite Hm. reflexivity. }
  unfold defer. rewrite E.
  pose proof (os_Chtimes_retimed fn (i_atime ino) (i_mtime ino) w2) as R.
  destruct (os_Chtimes_total fn (i_atime ino) (i_mtime ino) w2) as (res & w' & Ec & _ & T).
  rewrite Ec in R |- *. simpl in R. exists w', res. split; [done|]. split.
  - rewrite T. simpl. now rewrite <- !app_assoc.
  - intros p. now rewrite (retimed_content _ _ p R).
Qed.

Lemma msfile_processFile_without_reading_witness :
  exists w' res,
    Msfile.processFile (compare_flags "size") "d/c" demo_world
    = Done ({| Msfile.Filename := "d/c"; Msfile.Size := 5; Msfile.Atime := 3;
               Msfile.Mtime := 0; Msfile.PartialChecksum := ""; Msfile.FullChecksum := "";
               Msfile.Properties := ∅ |}, None) w'
    /\ w_trace w' = [] ++ [(SysStat "d/c", None); (SysStat "d/c", None);
                           (SysUtimes "d/c" 3000000000 700000000, res)]
    /\ forall p, content w' p = content demo_world p.
Proof.
  exact (msfile_processFile_without_reading (compare_flags "size") "d/c" demo_world
           (file_of "world" 3000000000 700000000) (or_intror eq_refl) eq_refl eq_refl eq_refl).
Defined.

(** ** The command *)

Lemma msfile_probe_all_app pre rest w w1 :
  Msfile.probe_all pre w = Done tt w1 ->
  Msfile.probe_all (pre ++ rest) w = Msfile.probe_all rest w1.
Proof.
  revert w. induction pre as [|fn pre IH]; intros w H; simpl in *.
  - now injection H as <-.
  - unfold mbind, proc_bind in *.
    destruct (TestKeepAtime fn w) as [[b e] w0| |]; try done.
    destruct b; simpl in *; [|done]. now apply IH.
Qed.

(** X15: whatever the flags, the command exits with status 1 at the first
    argument for which [TestKeepAtime] reports not capable, with or without
    an error of its own: nothing is printed and no file is fingerprinted,
    the state being the one that probe left. *)
Theorem msfile_exits_at_first_incapable_probe
    (par : Msfile.params) (pre : list string) (fn : string) (post : list string)
    (w w1 w2 : world) (err : option error) :
  Msfile.probe_all pre w = Done tt w1 ->
  TestKeepAtime fn w1 = Done (false, err) w2 ->
  Msfile.main par (pre ++ fn :: post) w = ([], Exited 1 w2).
Proof.
  intros Hpre Hfn. unfold Msfile.main.
  assert ((length (pre ++ fn :: post) =? 0)%nat = false) as ->
    by (rewrite length_app; simpl; apply Nat.eqb_neq; lia).
  rewrite (msfile_probe_all_app _ _ _ _ Hpre). simpl.
  now rewrite (bind_Done _ _ _ _ _ Hfn).
Qed.

Lemma msfile_exits_at_first_incapable_probe_witness :
  exists w2,
    Msfile.main info_flags ["d/a"; "d/b"]%string
      (with_dirs {["d"%string := Ignored]} demo_world)
    = ([], Exited 1 w2).
Proof.
  eexists.
  eapply (msfile_exits_at_first_incapable_probe info_flags [] "d/a" ["d/b"%string]);
    [reflexivity | vm_compute; reflexivity].
Defined.

Lemma msfile_compare_two_inv par a b w out w' :
  Msfile.compare_two par a b w = (out, Done tt w') ->
  exists inf1 w1 inf2,
    Msfile.processFile par a w = Done (inf1, None) w1
    /\ Msfile.processFile par b w1 = Done (inf2, None) w'
    /\ out = [Msfile.Text (if Msfile.same_files par inf1 inf2
                           then "Files are the same" else "Files are different")].
Proof.
  unfold Msfile.compare_two.
  destruct (Msfile.processFile par a w) as [[inf1 [e|]] w1| |] eqn:E1; try done.
  destruct (Msfile.processFile par b w1) as [[inf2 [e|]] w2| |] eqn:E2; try done.
  intros [= <- <-]. exists inf1, w1, inf2. done.
Qed.

Lemma msfile_main_compare_inv par args w out w' :
  Msfile.compare par = true ->
  Msfile.main par args w = (out, Done tt w') ->
  exists a b w1, args = [a; b] /\ Msfile.compare_two par a b w1 = (out, Done tt w').
Proof.
  intros Hc. unfold Msfile.main. rewrite Hc.
  destruct (length args =? 0)%nat; [done|].
  destruct (Msfile.probe_all args w) as [[] w1| |]; try done.
  destruct (length args =? 2)%nat eqn:L2; simpl; [|done].
  destruct args as [|a [|b [|c rest]]]; try done. eauto.
Qed.

(** X16: in compare mode, whenever the command ends normally it was given
    exactly two files and printed one verdict; for two files with the same
    content the verdict is "Files are the same", under each of the three
    methods; and with method "size" the verdict is "Files are the same"
    exactly when the two files have the same length. *)
Theorem msfile_compare_verdict
    (par : Msfile.params) (args : list string) (w w' : world) (out : list Msfile.line) :
  Msfile.compare par = true ->
  Msfile.main par args w = (out, Done tt w') ->
  exists a b,
    args = [a; b]
    /\ (out = [Msfile.Text "Files are the same"] \/ out = [Msfile.Text "Files are different"])
    /\ (content w' a = content w' b -> out = [Msfile.Text "Files are the same"])
    /\ (Msfile.method par = "size"%string ->
        out = [Msfile.Text "Files are the same"] <-> file_size w' a = file_size w' b).
Proof.
  intros Hc H.
  destruct (msfile_main_compare_inv _ _ _ _ _ Hc H) as (a & b & w1 & -> & H2).
  destruct (msfile_compare_two_inv _ _ _ _ _ _ H2) as (inf1 & w2 & inf2 & E1 & E2 & ->).
  exists a, b. split; [done|].
  pose proof (keeps_Done _ _ _ _ _ (msfile_processFile_retimed par a) E1) as R1.
  pose proof (keeps_Done _ _ _ _ _ (msfile_processFile_retimed par b) E2) as R2.
  destruct (msfile_processFile_record_core _ _ _ _ _ E1)
    as (ino1 & L1 & _ & S1 & _ & _ & _ & M1).
  destruct (msfile_processFile_record_core _ _ _ _ _ E2)
    as (ino2 & L2 & _ & S2 & _ & _ & _ & M2).
  assert (Ca : content w' a = Some (i_data ino1)).
  { rewrite (retimed_content _ _ a R2), (retimed_content _ _ a R1).
    unfold content. now rewrite L1. }
  assert (Cb : content w' b = Some (i_data ino2)).
  { rewrite (retimed_content _ _ b R2). unfold content. now rewrite L2. }
  split; [destruct (Msfile.same_files par inf1 inf2); auto|]. split.
  - rewrite Ca, Cb. intros [= Hd].
    assert (Msfile.same_files par inf1 inf2 = true) as ->; [|done].
    unfold Msfile.same_files. rewrite Hc in M1, M2.
    destruct M1 as [(? & _)|[(_ & Hm & F1 & _)|[(_ & Hm & _)|(_ & Hm & _ & F1)]]]; [done|..];
      destruct M2 as [(? & _)|[(_ & Hm' & F2 & _)|[(_ & Hm' & _)|(_ & Hm' & _ & F2)]]];
      try done; try (rewrite Hm in Hm'; discriminate Hm'); rewrite Hm; simpl.
    + rewrite Hd in F1. rewrite F1 in F2. injection F2 as ->.
      now rewrite String.eqb_refl.
    + rewrite S1, S2, Hd. now rewrite Z.eqb_refl, ?orb_true_r.
    + rewrite F1, F2, Hd. now rewrite String.eqb_refl, ?orb_true_r.
  - intros Hm. rewrite (content_size _ _ _ Ca), (content_size _ _ _ Cb).
    unfold Msfile.same_files. rewrite Hm. simpl. rewrite S1, S2, orb_false_r.
    destruct (Z.eqb_spec (Z.of_nat (length (i_data ino1))) (Z.of_nat (length (i_data ino2))));
      split; done.
Qed.

Lemma msfile_compare_verdict_witness :
  exists out w' a b,
    Msfile.main (compare_flags "size") ["d/a"; "d/c"]%string demo_world = (out, Done tt w')
    /\ ["d/a"; "d/c"]%string = [a; b]
    /\ (out = [Msfile.Text "Files are the same"] <-> file_size w' a = file_size w' b).
Proof.
  eexists _, _.
  destruct (msfile_compare_verdict (compare_flags "size") ["d/a"; "d/c"]%string demo_world
              _ _ eq_refl ltac:(vm_compute; reflexivity)) as (a & b & Ha & _ & _ & H).
  exists a, b. split; [vm_compute; reflexivity|]. split; [exact Ha|]. now apply H.
Defined.

Lemma msfile_print_all_inv par args : forall out0 w out w',
  Msfile.print_all par args out0 w = (out, Done tt w') ->
  retimed w w'
  /\ exists infs,
       out = out0 ++ map (fun inf => if Msfile.json par then Msfile.Json inf
                                     else Msfile.PlusV inf) infs
       /\ Forall2 (fun fn inf => Msfile.Filename inf = fn
                                 /\ Msfile.Size inf = file_size w' fn) args infs.
Proof.
  induction args as [|fn args IH]; intros out0 w out w' H; simpl in H.
  - injection H as <- <-. split; [apply retimed_refl|]. exists []. simpl.
    rewrite app_nil_r. split; [done|constructor].
  - destruct (Msfile.processFile par fn w) as [[inf [e|]] w1| |] eqn:E; try done.
    destruct (IH _ _ _ _ H) as (R' & infs & -> & HF).
    pose proof (keeps_Done _ _ _ _ _ (msfile_processFile_retimed par fn) E) as R.
    split; [eapply retimed_trans; eauto|].
    exists (inf :: infs). split; [simpl; now rewrite <- app_assoc|].
    constructor; [|exact HF].
    destruct (msfile_processFile_record_core _ _ _ _ _ E) as (ino & L & Hn & Hs & _).
    split; [exact Hn|]. rewrite Hs.
    rewrite (retimed_file_size _ _ fn R'), (retimed_file_size _ _ fn R).
    unfold file_size. now rewrite L.
Qed.

(** X17: without the compare flag, whenever the command ends normally it has
    printed one record per argument, in the order of the arguments, in the
    format the json flag selects, each naming its file and giving its
    length. *)
Theorem msfile_prints_one_record_per_file
    (par : Msfile.params) (args : list string) (w w' : world) (out : list Msfile.line) :
  Msfile.compare par = false ->
  Msfile.main par args w = (out, Done tt w') ->
  length out = length args
  /\ forall i fn, args !! i = Some fn ->
       exists inf,
         out !! i = Some (if Msfile.json par then Msfile.Json inf else Msfile.PlusV inf)
         /\ Msfile.Filename inf = fn /\ Msfile.Size inf = file_size w' fn.
Proof.
  intros Hc. unfold Msfile.main. rewrite Hc.
  destruct (length args =? 0)%nat; [done|].
  destruct (Msfile.probe_all args w) as [[] w1| |]; try done.
  intros H. destruct (msfile_print_all_inv _ _ _ _ _ _ H) as (_ & infs & -> & HF).
  simpl. split; [rewrite length_map; symmetry; exact (Forall2_length _ _ _ HF)|].
  intros i fn Hi. destruct (Forall2_lookup_l _ _ _ _ _ HF Hi) as (inf & Hinf & Hn & Hs).
  exists inf. split; [|done]. now rewrite list_lookup_fmap, Hinf.
Qed.

Lemma msfile_prints_one_record_per_file_witness :
  exists out w',
    Msfile.main info_flags ["d/a"; "d/c"]%string demo_world = (out, Done tt w')
    /\ length out = 2%nat.
Proof.
  eexists _, _. split; [vm_compute; reflexivity|].
  apply (msfile_prints_one_record_per_file info_flags ["d/a"; "d/c"]%string demo_world _ _
           eq_refl ltac:(vm_compute; reflexivity)).
Defined.
